(** * Nano-Banana MCP: a shallow embedding of [src/index.ts]

    The server is one class, [NanoBananaMCP], whose methods read and
    write three things: the fields of the instance (credential,
    source label, last image path), the file system, and the remote
    generation service.  The embedding threads one [World] value through
    every method (a state-and-exception monad), keeps the process
    environment in an immutable [Env] record, and logs every remote
    call, so that statements such as "no remote call is made" are
    statements about the log. *)

From Stdlib Require Import ZArith Ascii String List Bool Lia.
From stdpp Require Import base option list gmap strings pretty.

Open Scope Z_scope.
Open Scope string_scope.

(** ** JavaScript strings *)

Module Js.

(** A string is truthy when it is not empty. *)
Definition truthy (s : string) : bool := negb (String.eqb s "").

(** [x?: string] in a position tested with [if (x)]. *)
Definition truthy_opt (o : option string) : bool :=
  match o with Some s => truthy s | None => false end.

(** [a || b] on an optional string. *)
Definition or_else (o : option string) (d : string) : string :=
  match o with Some s => if truthy s then s else d | None => d end.

Definition lower_ascii (c : ascii) : ascii :=
  let n := N_of_ascii c in
  if ((65 <=? n) && (n <=? 90))%N then ascii_of_N (n + 32) else c.

(** [s.toLowerCase()], on the ASCII range. *)
Fixpoint toLowerCase (s : string) : string :=
  match s with
  | EmptyString => EmptyString
  | String c r => String (lower_ascii c) (toLowerCase r)
  end.

(** [s.startsWith(p)] *)
Definition startsWith (s p : string) : bool := String.prefix p s.

(** [s.substring(a, b)] for [a <= b]. *)
Definition substring (a b : nat) (s : string) : string :=
  String.substring a (b - a) s.

(** [s.replace(/[:.]/g, "-")] *)
Fixpoint replace_colon_dot (s : string) : string :=
  match s with
  | EmptyString => EmptyString
  | String c r =>
      String (if (Ascii.eqb c ":" || Ascii.eqb c ".")%bool then "-"%char else c)
             (replace_colon_dot r)
  end.

(** [xs.join(sep)] *)
Fixpoint join (sep : string) (xs : list string) : string :=
  match xs with
  | [] => ""
  | [x] => x
  | x :: r => x +:+ sep +:+ join sep r
  end.

(** [xs.includes(x)] *)
Definition includes (xs : list string) (x : string) : bool :=
  existsb (String.eqb x) xs.

(** [Math.round(a / b)] for a non-negative integer [a] and a power of
    two [b]: the quotient is exact in floating point, and [Math.round]
    rounds halves up. *)
Definition round_div (a b : Z) : Z := (2 * a + b) / (2 * b).

(** Decimal rendering of an integer in a template literal. *)
Definition show (n : Z) : string := pretty n.

End Js.

(** ** The [path] module (POSIX flavour) *)

Module Path.

(** Split at every ['/'].  ["/a//b"] gives [""; "a"; ""; "b"]. *)
Fixpoint split_go (cur : string) (s : string) : list string :=
  match s with
  | EmptyString => [String.rev cur]
  | String c r =>
      if Ascii.eqb c "/" then String.rev cur :: split_go "" r
      else split_go (String c cur) r
  end.

Definition split (s : string) : list string := split_go "" s.

Definition isAbsolute (p : string) : bool := String.prefix "/" p.

Fixpoint endsWithSlash (p : string) : bool :=
  match p with
  | EmptyString => false
  | String c EmptyString => Ascii.eqb c "/"
  | String _ r => endsWithSlash r
  end.

(** [normalizeString]: fold the segments left to right, dropping empty
    and ["."] segments and letting [".."] cancel the segment before it.
    [acc] is kept in reverse.  With [allowAboveRoot], a [".."] that has
    nothing to cancel is kept. *)
Fixpoint normalize_go (allowAboveRoot : bool) (acc : list string)
         (segs : list string) : list string :=
  match segs with
  | [] => rev acc
  | s :: r =>
      if (String.eqb s "" || String.eqb s ".")%bool then
        normalize_go allowAboveRoot acc r
      else if String.eqb s ".." then
        match acc with
        | top :: below =>
            if String.eqb top ".." then normalize_go allowAboveRoot (s :: acc) r
            else normalize_go allowAboveRoot below r
        | [] =>
            if allowAboveRoot then normalize_go allowAboveRoot [s] r
            else normalize_go allowAboveRoot [] r
        end
      else normalize_go allowAboveRoot (s :: acc) r
  end.

Definition normalizeString (allowAboveRoot : bool) (p : string) : list string :=
  normalize_go allowAboveRoot [] (split p).

(** [path.normalize] *)
Definition normalize (p : string) : string :=
  if String.eqb p "" then "."
  else
    let abs := isAbsolute p in
    let body := Js.join "/" (normalizeString (negb abs) p) in
    if String.eqb body "" then
      (if abs then "/" else if endsWithSlash p then "./" else ".")
    else
      let body := if endsWithSlash p then body +:+ "/" else body in
      if abs then "/" +:+ body else body.

(** [path.join(...parts)] *)
Definition join (parts : list string) : string :=
  let present := filter (fun s => Js.truthy s = true) parts in
  match present with
  | [] => "."
  | _ => normalize (Js.join "/" present)
  end.

(** The segments of [path.resolve(p)] when the working directory is
    [cwd] (an absolute path). *)
Definition resolve_segments (cwd p : string) : list string :=
  if isAbsolute p then normalizeString false p
  else normalizeString false (cwd +:+ "/" +:+ p).

Definition render (segs : list string) : string := "/" +:+ Js.join "/" segs.

(** [path.resolve(p)] *)
Definition resolve (cwd p : string) : string := render (resolve_segments cwd p).

(** Index-free [extname] on one path segment: the part from the last
    ['.'] on, unless there is no ['.'] or the only one is the first
    character.  [best] is the latest candidate. *)
Fixpoint ext_go (first : bool) (best : string) (s : string) : string :=
  match s with
  | EmptyString => best
  | String c r =>
      if (Ascii.eqb c "." && negb first)%bool then ext_go false (String c r) r
      else ext_go false best r
  end.

Fixpoint last_nonempty (d : string) (xs : list string) : string :=
  match xs with
  | [] => d
  | x :: r => last_nonempty (if String.eqb x "" then d else x) r
  end.

(** [path.basename]-like last portion; trailing slashes are skipped. *)
Definition lastPortion (p : string) : string := last_nonempty "" (split p).

(** [path.extname(p)] *)
Definition extname (p : string) : string :=
  let b := lastPortion p in
  if String.eqb b ".." then "" else ext_go true "" b.

End Path.


(** ** The file system

    Only what the server touches is modelled: regular files and
    directories, looked up the way the kernel does it, one component at
    a time.  Keys are the components of an absolute path; the root is a
    directory that is always there.  [size] is the inode's size as
    [fs.stat] reports it, [data] what [fs.readFile] returns.  Symbolic
    links and permissions are not modelled. *)

Record Inode := mkInode {
  isDirectory : bool;
  size : Z;
  data : string;
  mtime : string;   (* [stats.mtime.toLocaleString()] *)
}.

Inductive Errno := ENOENT | ENOTDIR | EISDIR | EEXIST.

Inductive IO (A : Type) :=
| Done (a : A)
| Fail (e : Errno).
Arguments Done {A} a.
Arguments Fail {A} e.

Abbreviation FsMap := (gmap (list string) Inode).

Module Fs.

Definition root : Inode := mkInode true 4096 "" "".

Definition inode_at (m : FsMap) (at_ : list string) : option Inode :=
  match at_ with [] => Some root | _ => m !! at_ end.

(** [Done tt] when [at_] is a directory; the error the kernel raises
    for a further component otherwise. *)
Definition as_dir (m : FsMap) (at_ : list string) : IO unit :=
  match inode_at m at_ with
  | None => Fail ENOENT
  | Some i => if isDirectory i then Done tt else Fail ENOTDIR
  end.

Definition enter (at_ : list string) (s : string) : list string :=
  if (String.eqb s "" || String.eqb s ".")%bool then at_
  else if String.eqb s ".." then removelast at_
  else (at_ ++ [s])%list.

(** Follow [segs] from [at_]; every step needs a directory under it. *)
Fixpoint walk (m : FsMap) (at_ : list string) (segs : list string)
  : IO (list string) :=
  match segs with
  | [] => Done at_
  | s :: r =>
      match as_dir m at_ with
      | Fail e => Fail e
      | Done _ => walk m (enter at_ s) r
      end
  end.

Definition start (cwd p : string) : list string :=
  if Path.isAbsolute p then [] else Path.normalizeString false cwd.

Definition lookup (m : FsMap) (cwd p : string) : IO Inode :=
  if String.eqb p "" then Fail ENOENT
  else match walk m (start cwd p) (Path.split p) with
       | Fail e => Fail e
       | Done at_ =>
           match inode_at m at_ with
           | Some i => Done i
           | None => Fail ENOENT
           end
       end.

(** [fs.stat] *)
Definition stat := lookup.

(** [fs.access] with the default mode: does the path exist. *)
Definition access (m : FsMap) (cwd p : string) : IO unit :=
  match lookup m cwd p with Done _ => Done tt | Fail e => Fail e end.

(** [fs.readFile] *)
Definition readFile (m : FsMap) (cwd p : string) : IO string :=
  match lookup m cwd p with
  | Fail e => Fail e
  | Done i => if isDirectory i then Fail EISDIR else Done (data i)
  end.

Definition proper_name (s : string) : bool :=
  negb (String.eqb s "" || String.eqb s "." || String.eqb s "..")%bool.

(** [fs.writeFile]: create or truncate the file named by the last
    component, inside the directory the others lead to.  The failures
    followed are those of opening the file (a missing parent, a parent
    that is no directory, a directory at the file's place): nothing has
    been written when they occur.  A write that fails after the file
    was opened is not followed. *)
Definition writeFile (m : FsMap) (cwd p : string) (content stamp : string)
  : IO FsMap :=
  if String.eqb p "" then Fail ENOENT
  else
    let segs := Path.split p in
    match walk m (start cwd p) (removelast segs) with
    | Fail e => Fail e
    | Done dir =>
        match as_dir m dir with
        | Fail e => Fail e
        | Done _ =>
            let name := List.last segs "" in
            if proper_name name then
              let target := (dir ++ [name])%list in
              match m !! target with
              | Some i =>
                  if isDirectory i then Fail EISDIR
                  else Done (<[target := mkInode false (Z.of_nat (String.length content)) content stamp]> m)
              | None =>
                  Done (<[target := mkInode false (Z.of_nat (String.length content)) content stamp]> m)
              end
            else Fail EISDIR
        end
    end.

(** [fs.mkdir(p, { recursive: true })]: create every missing
    directory on the way; an existing directory is fine, an existing
    file is not. *)
Fixpoint mkdir_go (m : FsMap) (at_ : list string) (segs : list string)
         (stamp : string) : IO FsMap :=
  match segs with
  | [] => Done m
  | s :: r =>
      if proper_name s then
        let next := (at_ ++ [s])%list in
        match m !! next with
        | Some i =>
            if isDirectory i then mkdir_go m next r stamp
            else Fail (match r with [] => EEXIST | _ => ENOTDIR end)
        | None => mkdir_go (<[next := mkInode true 4096 "" stamp]> m) next r stamp
        end
      else mkdir_go m (enter at_ s) r stamp
  end.

Definition mkdir_recursive (m : FsMap) (cwd p : string) (stamp : string)
  : IO FsMap :=
  if String.eqb p "" then Fail ENOENT
  else match as_dir m (start cwd p) with
       | Fail e => Fail e
       | Done _ => mkdir_go m (start cwd p) (Path.split p) stamp
       end.

Definition errno_text (e : Errno) : string :=
  match e with
  | ENOENT => "ENOENT: no such file or directory"
  | ENOTDIR => "ENOTDIR: not a directory"
  | EISDIR => "EISDIR: illegal operation on a directory"
  | EEXIST => "EEXIST: file already exists"
  end.

(** The [message] of the error Node raises for a failed call. *)
Definition error_message (e : Errno) (syscall p : string) : string :=
  errno_text e +:+ ", " +:+ syscall +:+ " '" +:+ p +:+ "'".

(** ... and for a failed [fs.readFile]: a directory can be opened, it
    is the read that fails, and that error names no path. *)
Definition read_error_message (e : Errno) (p : string) : string :=
  match e with
  | EISDIR => errno_text e +:+ ", read"
  | _ => error_message e "open" p
  end.

End Fs.

(** ** Errors *)

(** [ErrorCode] of the MCP SDK; the numbers are those of JSON-RPC. *)
Inductive ErrorCode := InvalidParams | InvalidRequest | InternalError | MethodNotFound.

Definition code_number (c : ErrorCode) : string :=
  match c with
  | InvalidParams => "-32602"
  | InvalidRequest => "-32600"
  | InternalError => "-32603"
  | MethodNotFound => "-32601"
  end.

(** What a method can throw: an [McpError], a [ZodError] with the
    messages of its issues, or a plain [Error] (file system, provider). *)
Inductive Exn :=
| McpError (code : ErrorCode) (msg : string)
| ZodError (issues : list string)
| Error (msg : string).

(** [error instanceof McpError] *)
Definition isMcpError (e : Exn) : bool :=
  match e with McpError _ _ => true | _ => false end.

(** [error.message].  The SDK's [McpError] constructor prefixes the code.
    A [ZodError]'s message is never read by the server. *)
Definition message (e : Exn) : string :=
  match e with
  | McpError c m => "MCP error " +:+ code_number c +:+ ": " +:+ m
  | ZodError issues => Js.join "; " issues
  | Error m => m
  end.

Inductive Res (A : Type) :=
| Ok (a : A)
| Throw (e : Exn).
Arguments Ok {A} a.
Arguments Throw {A} e.

(** ** Data *)

Definition DEFAULT_MODEL : string := "gemini-2.5-flash-image".
Definition SUPPORTED_MODELS : list string := [DEFAULT_MODEL; "gemini-3-pro-image-preview"].

Definition MAX_IMAGE_SIZE_BYTES : Z := 20 * 1024 * 1024.
Definition ALLOWED_IMAGE_EXTENSIONS : list string :=
  [".jpg"; ".jpeg"; ".png"; ".webp"; ".gif"].

Definition CONFIG_FILE_NAME : string := ".nano-banana-config.json".

Record Config := mkConfig { geminiApiKey : string }.

(** The value [JSON.parse] returns.  An object's fields have distinct
    names. *)
#[local] Unset Elimination Schemes.
Inductive Json :=
| JNull
| JBool (b : bool)
| JNumber (literal : string)
| JString (s : string)
| JArray (items : list Json)
| JObject (fields : list (string * Json)).
#[local] Set Elimination Schemes.

Fixpoint field (name : string) (fields : list (string * Json)) : option Json :=
  match fields with
  | [] => None
  | (k, v) :: r => if String.eqb k name then Some v else field name r
  end.

(** The name zod gives the type of a value in its messages. *)
Definition typeName (j : Json) : string :=
  match j with
  | JNull => "null"
  | JBool _ => "boolean"
  | JNumber _ => "number"
  | JString _ => "string"
  | JArray _ => "array"
  | JObject _ => "object"
  end.

(** [ConfigSchema.parse]: an object whose [geminiApiKey] is a string of
    at least one character; other fields are dropped.  The messages are
    those of zod's issues: the schema's own for an empty string,
    "Required" for a missing field, "Expected <type>, received <type>"
    for a value of another type. *)
Definition ConfigSchema_parse (j : Json) : Res Config :=
  match j with
  | JObject fields =>
      match field "geminiApiKey" fields with
      | Some (JString s) =>
          if (1 <=? String.length s)%nat then Ok (mkConfig s)
          else Throw (ZodError ["Gemini API key is required"])
      | Some v => Throw (ZodError ["Expected string, received " +:+ typeName v])
      | None => Throw (ZodError ["Required"])
      end
  | _ => Throw (ZodError ["Expected object, received " +:+ typeName j])
  end.

(** [ImagePart | TextPart] of a request. *)
Inductive ContentPart :=
| ImagePart (data mimeType : string)
| TextPart (text : string).

(** [contents]: the bare prompt of [generateImage], or the one-element
    array [[{ parts }]] of [editImage]. *)
Inductive Contents :=
| Prompt (text : string)
| Parts (parts : list ContentPart).

Record GenerateContentParameters := mkParams {
  model : string;
  contents : Contents;
}.

(** A provider response, with every optional level of
    [response.candidates?.[0]?.content?.parts]. *)
Record InlineData := mkInline {
  inl_data : option string;
  inl_mimeType : option string;
}.

Record Part := mkPart {
  part_text : option string;
  part_inlineData : option InlineData;
}.

Record Content := mkContent { parts : option (list Part) }.

Record Candidate := mkCandidate { cand_content : option Content }.

Record GenerateContentResponse := mkResponse { candidates : option (list Candidate) }.

(** An item of [CallToolResult["content"]]. *)
Inductive ContentItem :=
| TextItem (text : string)
| ImageItem (data mimeType : string).

Record CallToolResult := mkResult { content : list ContentItem }.

Record SavedImage := mkSaved {
  filePath : string;
  base64 : string;
  saved_mimeType : string;
}.

Inductive ConfigSource := environment | config_file | not_configured.

(** [GoogleGenAI]: the client remembers the key it was built with. *)
Record GoogleGenAI := mkClient { apiKey : string }.

(** ** The process environment

    Everything the server reads but cannot change: the environment
    variable (after [dotenvConfig()]), the working and home directories,
    the clock, [Math.random], the provider, and the library codecs. *)
Record Env := mkEnv {
  GEMINI_API_KEY : option string;
  cwd : string;
  homedir : string;
  platform : string;
  toISOString : nat -> string;      (* [new Date().toISOString()], n-th reading *)
  random36 : nat -> string;         (* [Math.random().toString(36)], n-th reading *)
  localeTime : nat -> string;       (* modification time given to a write *)
  generateContent : GoogleGenAI -> GenerateContentParameters -> nat -> Res GenerateContentResponse;
  from_base64 : string -> string;   (* [Buffer.from(s, "base64")] *)
  to_base64 : string -> string;     (* [buffer.toString("base64")] *)
  JSON_parse : string -> option Json;
  JSON_stringify : Json -> string;  (* [JSON.stringify(v, null, 2)] *)
}.

(** ** The instance and its surroundings *)

Record World := mkWorld {
  config : option Config;
  genAI : option GoogleGenAI;
  lastImagePath : option string;
  configSource : ConfigSource;
  fs : FsMap;
  calls : list (GoogleGenAI * GenerateContentParameters);  (* remote calls, oldest first *)
  ticks : nat;                                             (* clock readings so far *)
}.

Definition set_config (c : option Config) (w : World) : World :=
  mkWorld c (genAI w) (lastImagePath w) (configSource w) (fs w) (calls w) (ticks w).
Definition set_genAI (g : option GoogleGenAI) (w : World) : World :=
  mkWorld (config w) g (lastImagePath w) (configSource w) (fs w) (calls w) (ticks w).
Definition set_lastImagePath (p : option string) (w : World) : World :=
  mkWorld (config w) (genAI w) p (configSource w) (fs w) (calls w) (ticks w).
Definition set_configSource (s : ConfigSource) (w : World) : World :=
  mkWorld (config w) (genAI w) (lastImagePath w) s (fs w) (calls w) (ticks w).
Definition set_fs (m : FsMap) (w : World) : World :=
  mkWorld (config w) (genAI w) (lastImagePath w) (configSource w) m (calls w) (ticks w).
Definition log_call (c : GoogleGenAI * GenerateContentParameters) (w : World) : World :=
  mkWorld (config w) (genAI w) (lastImagePath w) (configSource w) (fs w)
          (calls w ++ [c])%list (ticks w).
Definition tick (w : World) : World :=
  mkWorld (config w) (genAI w) (lastImagePath w) (configSource w) (fs w) (calls w)
          (S (ticks w)).

(** [this.config !== null && this.genAI !== null] *)
Definition configured (w : World) : bool :=
  match config w, genAI w with
  | Some _, Some _ => true
  | _, _ => false
  end.

(** [!this.lastImagePath] is false. *)
Definition holdsLastImage (w : World) : bool := Js.truthy_opt (lastImagePath w).

(** ** Methods run in a state-and-exception monad

    A thrown error keeps the world as it was at the throw: whatever was
    assigned or written before stays. *)
Definition M (A : Type) : Type := World -> Res A * World.

Definition ret {A} (a : A) : M A := fun w => (Ok a, w).
Definition throw {A} (e : Exn) : M A := fun w => (Throw e, w).
Definition bind {A B} (m : M A) (k : A -> M B) : M B :=
  fun w => match m w with
           | (Ok a, w') => k a w'
           | (Throw e, w') => (Throw e, w')
           end.
(** [try { m } catch (e) { h e }] *)
Definition try_catch {A} (m : M A) (h : Exn -> M A) : M A :=
  fun w => match m w with
           | (Ok a, w') => (Ok a, w')
           | (Throw e, w') => h e w'
           end.
Definition gets {A} (f : World -> A) : M A := fun w => (Ok (f w), w).
Definition modify (f : World -> World) : M unit := fun w => (Ok tt, f w).
Definition lift {A} (r : Res A) : M A := fun w => (r, w).

#[global] Instance M_ret : MRet M := @ret.
#[global] Instance M_bind : MBind M := fun A B k m => bind m k.

(** A file-system call: its failure is thrown as Node's error. *)
Definition io {A} (syscall p : string) (r : IO A) : M A :=
  match r with
  | Done a => ret a
  | Fail e => throw (Error (Fs.error_message e syscall p))
  end.

(** The double-quote character, for messages that quote their argument. *)
Definition dq : string := String (ascii_of_nat 34) EmptyString.

(** Arguments of the tools, as the handlers cast them. *)
Record GenerateArgs := mkGenerateArgs {
  gen_prompt : string;
  gen_model : option string;
}.

Record EditArgs := mkEditArgs {
  imagePath : string;
  edit_prompt : string;
  referenceImages : option (list string);
  edit_model : option string;
}.

Record ContinueArgs := mkContinueArgs {
  cont_prompt : string;
  cont_referenceImages : option (list string);
  cont_model : option string;
}.

Inductive ToolRequest :=
| configure_gemini_token (key : string)
| generate_image (a : GenerateArgs)
| edit_image (a : EditArgs)
| get_configuration_status
| continue_editing (a : ContinueArgs)
| get_last_image_info
| unknown_tool (name : string).

(** The local variables the part loop of [buildImageResponse] updates. *)
Record Locals := mkLocals {
  loc_content : list ContentItem;
  savedFiles : list string;
  textContent : string;
}.

(** [response.candidates?.[0]?.content?.parts] *)
Definition firstCandidateParts (response : GenerateContentResponse) : option (list Part) :=
  match candidates response with
  | Some (c :: _) =>
      match cand_content c with
      | Some ct => parts ct
      | None => None
      end
  | _ => None
  end.

(** [part.inlineData?.data] when truthy. *)
Definition imageData (p : Part) : option string :=
  match part_inlineData p with
  | Some i => match inl_data i with
              | Some d => if Js.truthy d then Some d else None
              | None => None
              end
  | None => None
  end.

(** [part.inlineData.mimeType || "image/png"] *)
Definition imageMime (p : Part) : string :=
  match part_inlineData p with
  | Some i => Js.or_else (inl_mimeType i) "image/png"
  | None => "image/png"
  end.

(** The text a part contributes: [part.text], or nothing. *)
Definition partText (p : Part) : string :=
  match part_text p with
  | Some t => t
  | None => ""
  end.

Definition nl : string := String (ascii_of_nat 10) EmptyString.

(** [xs.map((x) => `- ${x}`).join("\n")] *)
Definition bullets (xs : list string) : string :=
  Js.join nl (map (fun x => "- " +:+ x) xs).

Definition NO_IMAGE_NOTE : string :=
  nl +:+ nl +:+ "Note: No image was generated. The model may have returned only text.".

(** The status text [buildImageResponse] puts first in the result. *)
Definition statusText (prefix promptText : string) (warnings : list string)
           (l : Locals) : string :=
  let s0 := "Image " +:+ (if String.eqb prefix "generated" then "generated" else "edited")
            +:+ " with nano-banana!" +:+ nl +:+ nl +:+ "Prompt: " +:+ dq +:+ promptText +:+ dq in
  let s1 := if Js.truthy (textContent l)
            then s0 +:+ nl +:+ nl +:+ "Description: " +:+ textContent l else s0 in
  let s2 := if (0 <? length warnings)%nat
            then s1 +:+ nl +:+ nl +:+ "Warnings:" +:+ nl +:+ bullets warnings else s1 in
  if (0 <? length (savedFiles l))%nat
  then s2 +:+ nl +:+ nl +:+ "Image saved to:" +:+ nl +:+ bullets (savedFiles l)
          +:+ nl +:+ nl +:+ "To modify this image, use: continue_editing"
          +:+ nl +:+ "To check current image info, use: get_last_image_info"
  else s2 +:+ NO_IMAGE_NOTE.

(** [resolveModel] *)
Definition resolveModel (m : option string) : Res string :=
  match m with
  | None => Ok DEFAULT_MODEL
  | Some s =>
      if negb (Js.truthy s) then Ok DEFAULT_MODEL
      else if Js.includes SUPPORTED_MODELS s then Ok s
      else Throw (McpError InvalidParams
                    ("Unsupported model " +:+ dq +:+ s +:+ dq +:+ ". Supported: "
                     +:+ Js.join ", " SUPPORTED_MODELS))
  end.

(** [getMimeType] *)
Definition getMimeType (filePath : string) : string :=
  let ext := Js.toLowerCase (Path.extname filePath) in
  if String.eqb ext ".jpg" then "image/jpeg"
  else if String.eqb ext ".jpeg" then "image/jpeg"
  else if String.eqb ext ".png" then "image/png"
  else if String.eqb ext ".webp" then "image/webp"
  else if String.eqb ext ".gif" then "image/gif"
  else "image/jpeg".

Definition NOT_CONFIGURED : Exn :=
  McpError InvalidRequest "Gemini API token not configured. Use configure_gemini_token first.".

Definition NO_PREVIOUS_IMAGE : Exn :=
  McpError InvalidRequest "No previous image found. Please generate or edit an image first.".

Definition LAST_IMAGE_MISSING (p : string) : Exn :=
  McpError InvalidRequest
    ("Last image file not found at: " +:+ p +:+ ". Please generate a new image first.").

(** ** The methods of [NanoBananaMCP] *)

Section Server.

Variable E : Env.

(** *** File-system calls in the monad *)

Definition fs_stat (p : string) : M Inode :=
  fun w => io "stat" p (Fs.stat (fs w) (cwd E) p) w.

Definition fs_access (p : string) : M unit :=
  fun w => io "access" p (Fs.access (fs w) (cwd E) p) w.

Definition fs_readFile (p : string) : M string :=
  fun w => match Fs.readFile (fs w) (cwd E) p with
           | Done buffer => (Ok buffer, w)
           | Fail e => (Throw (Error (Fs.read_error_message e p)), w)
           end.

Definition fs_writeFile (p content : string) : M unit :=
  fun w => match Fs.writeFile (fs w) (cwd E) p content (localeTime E (ticks w)) with
           | Done m => (Ok tt, set_fs m w)
           | Fail e => (Throw (Error (Fs.error_message e "open" p)), w)
           end.

Definition fs_mkdir (p : string) : M unit :=
  fun w => match Fs.mkdir_recursive (fs w) (cwd E) p (localeTime E (ticks w)) with
           | Done m => (Ok tt, set_fs m w)
           | Fail e => (Throw (Error (Fs.error_message e "mkdir" p)), w)
           end.

(** [this.genAI!.models.generateContent(params)]: the call is logged,
    then answered by the provider. *)
Definition models_generateContent (params : GenerateContentParameters)
  : M GenerateContentResponse :=
  fun w => match genAI w with
           | Some g => (generateContent E g params (length (calls w)),
                        log_call (g, params) w)
           | None => (Throw (Error "Cannot read properties of null (reading 'models')"), w)
           end.

(** *** Utilities *)

Definition ensureConfigured : M bool := gets configured.

Definition getImagesDirectory : string :=
  if String.eqb (platform E) "win32" then
    Path.join [homedir E; "Documents"; "nano-banana-images"]
  else if (Js.startsWith (cwd E) "/usr/" || Js.startsWith (cwd E) "/opt/"
           || Js.startsWith (cwd E) "/var/")%bool then
    Path.join [homedir E; "nano-banana-images"]
  else Path.join [cwd E; "generated_imgs"].

Definition getConfigPath : string := Path.join [homedir E; CONFIG_FILE_NAME].

Definition config_json (c : Config) : Json :=
  JObject [("geminiApiKey", JString (geminiApiKey c))].

Definition saveConfig : M unit :=
  c ← gets config;
  match c with
  | None => ret tt
  | Some c => fs_writeFile getConfigPath (JSON_stringify E (config_json c))
  end.

(** *** Validation helpers *)

Definition validateImagePath (filePath : string) : M unit :=
  let resolved := Path.resolve (cwd E) filePath in
  let ext := Js.toLowerCase (Path.extname resolved) in
  if negb (Js.includes ALLOWED_IMAGE_EXTENSIONS ext) then
    throw (McpError InvalidParams
             ("Unsupported image format " +:+ dq +:+ ext +:+ dq +:+ ". Allowed: "
              +:+ Js.join ", " ALLOWED_IMAGE_EXTENSIONS))
  else
    stats ← try_catch (fs_stat resolved)
              (fun _ => throw (McpError InvalidParams
                                 ("Image file not found: " +:+ filePath)));
    if (size stats >? MAX_IMAGE_SIZE_BYTES)%Z then
      throw (McpError InvalidParams
               ("Image file too large ("
                +:+ Js.show (Js.round_div (size stats) (1024 * 1024))
                +:+ "MB). Maximum: "
                +:+ Js.show (MAX_IMAGE_SIZE_BYTES / 1024 / 1024) +:+ "MB"))
    else ret tt.

(** *** Shared response builder *)

Definition saveImage (imagesDir prefix base64Data : string) : M SavedImage :=
  n ← gets ticks;
  modify tick;;
  let timestamp := Js.replace_colon_dot (toISOString E n) in
  let randomId := Js.substring 2 8 (random36 E n) in
  let fileName := prefix +:+ "-" +:+ timestamp +:+ "-" +:+ randomId +:+ ".png" in
  let filePath := Path.join [imagesDir; fileName] in
  let imageBuffer := from_base64 E base64Data in
  fs_writeFile filePath imageBuffer;;
  ret (mkSaved filePath base64Data "image/png").

(** The body of [for (const part of ...parts)]. *)
Definition processPart (imagesDir prefix : string) (l : Locals) (part : Part)
  : M Locals :=
  let l1 := if Js.truthy_opt (part_text part)
            then mkLocals (loc_content l) (savedFiles l) (textContent l +:+ partText part)
            else l in
  match imageData part with
  | Some d =>
      saved ← saveImage imagesDir prefix d;
      modify (set_lastImagePath (Some (filePath saved)));;
      ret (mkLocals (loc_content l1 ++ [ImageItem d (imageMime part)])%list
                    (savedFiles l1 ++ [filePath saved])%list
                    (textContent l1))
  | None => ret l1
  end.

Fixpoint forParts (imagesDir prefix : string) (ps : list Part) (l : Locals)
  : M Locals :=
  match ps with
  | [] => ret l
  | p :: r => l' ← processPart imagesDir prefix l p; forParts imagesDir prefix r l'
  end.

(** [buildImageResponse] up to the end of the loop: the directory is
    made, then the first candidate's parts are walked. *)
Definition reassemble (response : GenerateContentResponse) (prefix : string)
  : M Locals :=
  let imagesDir := getImagesDirectory in
  fs_mkdir imagesDir;;
  match firstCandidateParts response with
  | Some ps => forParts imagesDir prefix ps (mkLocals [] [] "")
  | None => ret (mkLocals [] [] "")
  end.

Definition buildImageResponse (response : GenerateContentResponse)
           (prefix promptText : string) (warnings : list string)
  : M CallToolResult :=
  l ← reassemble response prefix;
  ret (mkResult (TextItem (statusText prefix promptText warnings l) :: loc_content l)).

(** *** Tool implementations *)

Definition CONFIGURED_TEXT : string :=
  "Gemini API token configured successfully. You can now use nano-banana image generation features.".

Definition firstIssue (issues : list string) : string :=
  match issues with m :: _ => m | [] => "undefined" end.

Definition configureGeminiToken (key : string) : M CallToolResult :=
  try_catch
    (lift (ConfigSchema_parse (JObject [("geminiApiKey", JString key)]));;
     modify (set_config (Some (mkConfig key)));;
     modify (set_genAI (Some (mkClient key)));;
     modify (set_configSource config_file);;
     saveConfig;;
     ret (mkResult [TextItem CONFIGURED_TEXT]))
    (fun error =>
       match error with
       | ZodError issues =>
           throw (McpError InvalidParams ("Invalid API key: " +:+ firstIssue issues))
       | _ => throw error
       end).

Definition generateImage (a : GenerateArgs) : M CallToolResult :=
  ok ← ensureConfigured;
  if negb ok then throw NOT_CONFIGURED
  else
    resolvedModel ← lift (resolveModel (gen_model a));
    try_catch
      (response ← models_generateContent (mkParams resolvedModel (Prompt (gen_prompt a)));
       buildImageResponse response "generated" (gen_prompt a) [])
      (fun error =>
         throw (McpError InternalError ("Failed to generate image: " +:+ message error))).

(** One turn of the reference loop: the image part on success, the
    warning on failure. *)
Definition loadReference (refPath : string) : M (ContentPart + string) :=
  try_catch
    (validateImagePath refPath;;
     refBuffer ← fs_readFile refPath;
     ret (inl (ImagePart (to_base64 E refBuffer) (getMimeType refPath))))
    (fun error =>
       ret (inr ("Skipped reference image " +:+ dq +:+ refPath +:+ dq +:+ ": "
                 +:+ message error))).

(** [for (const refPath of referenceImages)], pushing to [imageParts]
    and [warnings]. *)
Fixpoint loadReferences (refs : list string)
         (imageParts : list ContentPart) (warnings : list string)
  : M (list ContentPart * list string) :=
  match refs with
  | [] => ret (imageParts, warnings)
  | refPath :: r =>
      x ← loadReference refPath;
      match x with
      | inl part => loadReferences r (imageParts ++ [part])%list warnings
      | inr warning => loadReferences r imageParts (warnings ++ [warning])%list
      end
  end.

Definition editImage (a : EditArgs) : M CallToolResult :=
  ok ← ensureConfigured;
  if negb ok then throw NOT_CONFIGURED
  else
    resolvedModel ← lift (resolveModel (edit_model a));
    validateImagePath (imagePath a);;
    try_catch
      (imageBuffer ← fs_readFile (imagePath a);
       let mimeType := getMimeType (imagePath a) in
       let imageParts := [ImagePart (to_base64 E imageBuffer) mimeType] in
       '(imageParts, warnings) ←
         match referenceImages a with
         | Some (r :: rs) => loadReferences (r :: rs) imageParts []
         | _ => ret (imageParts, [])
         end;
       let imageParts := (imageParts ++ [TextPart (edit_prompt a)])%list in
       response ← models_generateContent (mkParams resolvedModel (Parts imageParts));
       buildImageResponse response "edited" (edit_prompt a) warnings)
      (fun error =>
         if isMcpError error then throw error
         else throw (McpError InternalError
                       ("Failed to edit image: " +:+ message error))).

Definition getConfigurationStatus : M CallToolResult :=
  isConfigured ← ensureConfigured;
  src ← gets configSource;
  let status :=
    if (isConfigured : bool) then "Gemini API token is configured and ready to use"
    else "Gemini API token is not configured" in
  let sourceInfo :=
    if (isConfigured : bool) then
      match src with
      | environment =>
          nl +:+ "Source: Environment variable (GEMINI_API_KEY)" +:+ nl
          +:+ "This is the most secure configuration method."
      | config_file =>
          nl +:+ "Source: Local configuration file (.nano-banana-config.json)" +:+ nl
          +:+ "Consider using environment variables for better security."
      | not_configured => ""
      end
    else
      nl +:+ nl +:+ "Configuration options (in priority order):" +:+ nl
      +:+ "1. MCP client environment variables (Recommended)" +:+ nl
      +:+ "2. System environment variable: GEMINI_API_KEY" +:+ nl
      +:+ "3. Use configure_gemini_token tool" +:+ nl +:+ nl
      +:+ "For the most secure setup, add this to your MCP configuration:" +:+ nl
      +:+ dq +:+ "env" +:+ dq +:+ ": { " +:+ dq +:+ "GEMINI_API_KEY" +:+ dq +:+ ": "
      +:+ dq +:+ "your-api-key-here" +:+ dq +:+ " }" in
  ret (mkResult [TextItem (status +:+ sourceInfo)]).

Definition continueEditing (a : ContinueArgs) : M CallToolResult :=
  ok ← ensureConfigured;
  if negb ok then throw NOT_CONFIGURED
  else
    last ← gets lastImagePath;
    match last with
    | None => throw NO_PREVIOUS_IMAGE
    | Some p =>
        if negb (Js.truthy p) then throw NO_PREVIOUS_IMAGE
        else
          try_catch (fs_access p) (fun _ => throw (LAST_IMAGE_MISSING p));;
          editImage (mkEditArgs p (cont_prompt a) (cont_referenceImages a) (cont_model a))
    end.

Definition NO_IMAGE_YET_TEXT : string :=
  "No previous image found." +:+ nl +:+ nl +:+ "Please generate or edit an image first.".

Definition FILE_NOT_FOUND_TEXT (p : string) : string :=
  "Last Image Information:" +:+ nl +:+ nl +:+ "Path: " +:+ p +:+ nl
  +:+ "Status: File not found" +:+ nl +:+ nl
  +:+ "The image file may have been moved or deleted. Please generate a new image.".

Definition getLastImageInfo : M CallToolResult :=
  last ← gets lastImagePath;
  match last with
  | None => ret (mkResult [TextItem NO_IMAGE_YET_TEXT])
  | Some p =>
      if negb (Js.truthy p) then ret (mkResult [TextItem NO_IMAGE_YET_TEXT])
      else
        try_catch
          (fs_access p;;
           stats ← fs_stat p;
           ret (mkResult
                  [TextItem ("Last Image Information:" +:+ nl +:+ nl +:+ "Path: " +:+ p
                             +:+ nl +:+ "File Size: "
                             +:+ Js.show (Js.round_div (size stats) 1024) +:+ " KB"
                             +:+ nl +:+ "Last Modified: " +:+ mtime stats +:+ nl +:+ nl
                             +:+ "Use continue_editing to make further changes.")]))
          (fun _ => ret (mkResult [TextItem (FILE_NOT_FOUND_TEXT p)]))
  end.

(** *** Startup *)

(** Priority 2 of [loadConfig]: the config file in the home directory. *)
Definition loadConfigFile : M unit :=
  try_catch
    (configData ← fs_readFile getConfigPath;
     parsedConfig ← match JSON_parse E configData with
                    | Some j => ret j
                    | None => throw (Error "Unexpected token in JSON")
                    end;
     c ← lift (ConfigSchema_parse parsedConfig);
     modify (set_config (Some c));;
     modify (set_genAI (Some (mkClient (geminiApiKey c))));;
     modify (set_configSource config_file))
    (fun _ => modify (set_configSource not_configured)).

Definition loadConfig : M unit :=
  match GEMINI_API_KEY E with
  | Some envApiKey =>
      if Js.truthy envApiKey then
        done ← try_catch
                 (c ← lift (ConfigSchema_parse (JObject [("geminiApiKey", JString envApiKey)]));
                  modify (set_config (Some c));;
                  modify (set_genAI (Some (mkClient (geminiApiKey c))));;
                  modify (set_configSource environment);;
                  ret true)
                 (fun _ => ret false);
        if (done : bool) then ret tt else loadConfigFile
      else loadConfigFile
  | None => loadConfigFile
  end.

(** The fields of a fresh [NanoBananaMCP], in a process that finds the
    files [m]. *)
Definition fresh (m : FsMap) : World :=
  mkWorld None None None not_configured m [] 0.

(** [run()], up to the transport: the world the first request sees. *)
Definition run (m : FsMap) : World := snd (loadConfig (fresh m)).

(** *** The request handler *)

Definition dispatch (r : ToolRequest) : M CallToolResult :=
  match r with
  | configure_gemini_token key => configureGeminiToken key
  | generate_image a => generateImage a
  | edit_image a => editImage a
  | get_configuration_status => getConfigurationStatus
  | continue_editing a => continueEditing a
  | get_last_image_info => getLastImageInfo
  | unknown_tool name => throw (McpError MethodNotFound ("Unknown tool: " +:+ name))
  end.

Definition callTool (r : ToolRequest) : M CallToolResult :=
  try_catch (dispatch r)
    (fun error =>
       if isMcpError error then throw error
       else throw (McpError InternalError
                     ("Tool execution failed: " +:+ message error))).

End Server.

(** ** Requests as they arrive

    The methods take the request itself and read their arguments with
    an unchecked cast, [request.params.arguments as { ... }].  The
    protocol lets a client leave the arguments out, and says nothing
    about the values. *)

(** [request.params] of a [tools/call] request. *)
Record CallToolRequest := mkRequest {
  params_name : string;
  params_arguments : option (list (string * Json));
}.

(** The [TypeError] of [const { first, ... } = request.params.arguments]
    when the request carries no arguments. *)
Definition CANNOT_DESTRUCTURE (first : string) : Exn :=
  Error ("Cannot destructure property '" +:+ first
         +:+ "' of 'request.params.arguments' as it is undefined.").

(** An argument the cast calls a [string]. *)
Definition requiredString (name : string) (fields : list (string * Json))
  : option string :=
  match field name fields with
  | Some (JString s) => Some s
  | _ => None
  end.

(** An argument the cast calls [string | undefined]. *)
Definition optionalString (name : string) (fields : list (string * Json))
  : option (option string) :=
  match field name fields with
  | None => Some None
  | Some (JString s) => Some (Some s)
  | Some _ => None
  end.

Fixpoint strings (items : list Json) : option (list string) :=
  match items with
  | [] => Some []
  | JString s :: r =>
      match strings r with
      | Some ss => Some (s :: ss)
      | None => None
      end
  | _ :: _ => None
  end.

(** An argument the cast calls [string[] | undefined]. *)
Definition optionalStrings (name : string) (fields : list (string * Json))
  : option (option (list string)) :=
  match field name fields with
  | None => Some None
  | Some (JArray items) =>
      match strings items with
      | Some ss => Some (Some ss)
      | None => None
      end
  | Some _ => None
  end.

(** The arguments of the three generation tools when every field has
    the type its cast names; [None] when one has another type: what the
    methods do with such a value is not followed here. *)
Definition generateArgs (fields : list (string * Json)) : option GenerateArgs :=
  match requiredString "prompt" fields, optionalString "model" fields with
  | Some prompt, Some model => Some (mkGenerateArgs prompt model)
  | _, _ => None
  end.

Definition editArgs (fields : list (string * Json)) : option EditArgs :=
  match requiredString "imagePath" fields, requiredString "prompt" fields,
        optionalStrings "referenceImages" fields, optionalString "model" fields with
  | Some imagePath, Some prompt, Some refs, Some model =>
      Some (mkEditArgs imagePath prompt refs model)
  | _, _, _, _ => None
  end.

Definition continueArgs (fields : list (string * Json)) : option ContinueArgs :=
  match requiredString "prompt" fields, optionalStrings "referenceImages" fields,
        optionalString "model" fields with
  | Some prompt, Some refs, Some model => Some (mkContinueArgs prompt refs model)
  | _, _, _ => None
  end.

(** The arguments as a method finds them: absent ([Some None]), or
    present with fields of the declared types; [None] otherwise. *)
Definition castArguments {A} (read : list (string * Json) -> option A)
           (arguments : option (list (string * Json))) : option (option A) :=
  match arguments with
  | None => Some None
  | Some fields =>
      match read fields with
      | Some a => Some (Some a)
      | None => None
      end
  end.

Section Requests.

Variable E : Env.

(** [configureGeminiToken(request)].  The key is destructured outside
    the [try]; the schema, inside it, sees whatever value came. *)
Definition configureGeminiToken_request (arguments : option (list (string * Json)))
  : M CallToolResult :=
  match arguments with
  | None => throw (CANNOT_DESTRUCTURE "apiKey")
  | Some fields =>
      let apiKey := field "apiKey" fields in
      try_catch
        (c ← lift (ConfigSchema_parse
                     (JObject match apiKey with
                              | Some v => [("geminiApiKey", v)]
                              | None => []
                              end));
         modify (set_config (Some c));;
         modify (set_genAI (Some (mkClient (geminiApiKey c))));;
         modify (set_configSource config_file);;
         saveConfig E;;
         ret (mkResult [TextItem CONFIGURED_TEXT]))
        (fun error =>
           match error with
           | ZodError issues =>
               throw (McpError InvalidParams ("Invalid API key: " +:+ firstIssue issues))
           | _ => throw error
           end)
  end.

(** [generateImage(request)]: the credential check, then the
    destructuring, then the rest. *)
Definition generateImage_request (arguments : option GenerateArgs)
  : M CallToolResult :=
  ok ← ensureConfigured;
  if negb ok then throw NOT_CONFIGURED
  else
    match arguments with
    | None => throw (CANNOT_DESTRUCTURE "prompt")
    | Some a =>
        resolvedModel ← lift (resolveModel (gen_model a));
        try_catch
          (response ← models_generateContent E
                        (mkParams resolvedModel (Prompt (gen_prompt a)));
           buildImageResponse E response "generated" (gen_prompt a) [])
          (fun error =>
             throw (McpError InternalError
                      ("Failed to generate image: " +:+ message error)))
    end.

(** [editImage(request)] *)
Definition editImage_request (arguments : option EditArgs) : M CallToolResult :=
  ok ← ensureConfigured;
  if negb ok then throw NOT_CONFIGURED
  else
    match arguments with
    | None => throw (CANNOT_DESTRUCTURE "imagePath")
    | Some a =>
        resolvedModel ← lift (resolveModel (edit_model a));
        validateImagePath E (imagePath a);;
        try_catch
          (imageBuffer ← fs_readFile E (imagePath a);
           let mimeType := getMimeType (imagePath a) in
           let imageParts := [ImagePart (to_base64 E imageBuffer) mimeType] in
           '(imageParts, warnings) ←
             match referenceImages a with
             | Some (r :: rs) => loadReferences E (r :: rs) imageParts []
             | _ => ret (imageParts, [])
             end;
           let imageParts := (imageParts ++ [TextPart (edit_prompt a)])%list in
           response ← models_generateContent E (mkParams resolvedModel (Parts imageParts));
           buildImageResponse E response "edited" (edit_prompt a) warnings)
          (fun error =>
             if isMcpError error then throw error
             else throw (McpError InternalError
                           ("Failed to edit image: " +:+ message error)))
    end.

(** [continueEditing(request)]: the arguments are read last, after the
    three checks; the edit is then called with arguments of its own. *)
Definition continueEditing_request (arguments : option ContinueArgs)
  : M CallToolResult :=
  ok ← ensureConfigured;
  if negb ok then throw NOT_CONFIGURED
  else
    last ← gets lastImagePath;
    match last with
    | None => throw NO_PREVIOUS_IMAGE
    | Some p =>
        if negb (Js.truthy p) then throw NO_PREVIOUS_IMAGE
        else
          try_catch (fs_access E p) (fun _ => throw (LAST_IMAGE_MISSING p));;
          match arguments with
          | None => throw (CANNOT_DESTRUCTURE "prompt")
          | Some a =>
              editImage_request
                (Some (mkEditArgs p (cont_prompt a) (cont_referenceImages a)
                                  (cont_model a)))
          end
    end.

(** The [switch] of the handler.  [None] when the tool is one of the
    three that read typed arguments and a field has another type. *)
Definition dispatch_request (request : CallToolRequest) : option (M CallToolResult) :=
  let name := params_name request in
  let arguments := params_arguments request in
  if String.eqb name "configure_gemini_token" then
    Some (configureGeminiToken_request arguments)
  else if String.eqb name "generate_image" then
    option_map generateImage_request (castArguments generateArgs arguments)
  else if String.eqb name "edit_image" then
    option_map editImage_request (castArguments editArgs arguments)
  else if String.eqb name "get_configuration_status" then
    Some getConfigurationStatus
  else if String.eqb name "continue_editing" then
    option_map continueEditing_request (castArguments continueArgs arguments)
  else if String.eqb name "get_last_image_info" then
    Some (getLastImageInfo E)
  else Some (throw (McpError MethodNotFound ("Unknown tool: " +:+ name))).

(** The [CallTool] handler: the switch inside its [try]. *)
Definition handleCallTool (request : CallToolRequest) : option (M CallToolResult) :=
  option_map
    (fun method =>
       try_catch method
         (fun error =>
            if isMcpError error then throw error
            else throw (McpError InternalError
                          ("Tool execution failed: " +:+ message error))))
    (dispatch_request request).

End Requests.

(** ** A small concrete process

    One environment and a handful of files, used to run the methods on
    explicit inputs. *)

Module Demo.

Definition dir : Inode := mkInode true 4096 "" "yesterday".
Definition file (bytes : Z) (content : string) : Inode :=
  mkInode false bytes content "yesterday".

Definition textPart (t : string) : Part := mkPart (Some t) None.
Definition imagePart (d : string) : Part :=
  mkPart None (Some (mkInline (Some d) (Some "image/png"))).
Definition oneCandidate (ps : list Part) : Candidate :=
  mkCandidate (Some (mkContent (Some ps))).
Definition respond (ps : list Part) : GenerateContentResponse :=
  mkResponse (Some [oneCandidate ps]).

(** A provider that answers every request with [r]. *)
Definition always (r : Res GenerateContentResponse)
  : GoogleGenAI -> GenerateContentParameters -> nat -> Res GenerateContentResponse :=
  fun _ _ _ => r.

Definition env (key : option string)
           (provider : GoogleGenAI -> GenerateContentParameters -> nat
                       -> Res GenerateContentResponse) : Env :=
  mkEnv key "/work" "/home/u" "linux"
        (fun n => "2025-01-31T12:00:00." +:+ pretty n +:+ "Z")
        (fun n => "0.k3x9q2zz" +:+ pretty n)
        (fun _ => "today")
        provider
        (fun s => "raw:" +:+ s)
        (fun s => "b64:" +:+ s)
        (fun s => if String.eqb s "{key}"
                  then Some (JObject [("geminiApiKey", JString "file-key")])
                  else None)
        (fun _ => "{key}").

Definition textOnly : GenerateContentResponse := respond [textPart "Sorry, text only."].
Definition twoImages : GenerateContentResponse :=
  respond [textPart "Here "; imagePart "AAAA"; textPart "you go"; imagePart "BBBB"].

Definition disk : FsMap :=
  list_to_map
    [ (["work"], dir); (["home"], dir); (["home"; "u"], dir);
      (["work"; "cat.png"], file 100 "CAT");
      (["work"; "edge.PNG"], file 20971520 "EDGE");
      (["work"; "over.png"], file 20971521 "OVER");
      (["work"; "huge.svg"], file 99999999 "SVG");
      (["work"; "folder.gif"], dir);
      (["home"; "u"; ".nano-banana-config.json"], file 5 "{key}") ].

(** The same disk, with a regular file where the images directory
    should go. *)
Definition blocked : FsMap :=
  <[ ["work"; "generated_imgs"] := file 1 "x" ]> disk.

(** The same disk, with a directory where the config file should go. *)
Definition noConfigSlot : FsMap :=
  <[ ["home"; "u"; ".nano-banana-config.json"] := dir ]> disk.

(** The demo disk once the images directory exists. *)
Definition withImagesDir : FsMap :=
  <[ ["work"; "generated_imgs"] := mkInode true 4096 "" "today" ]> disk.

Definition firstImage : string :=
  "/work/generated_imgs/generated-2025-01-31T12-00-00-0Z-k3x9q2.png".
Definition secondImage : string :=
  "/work/generated_imgs/generated-2025-01-31T12-00-00-1Z-k3x9q2.png".

(** ... and once the two images of [twoImages] are in it. *)
Definition withTwoImages : FsMap :=
  <[ ["work"; "generated_imgs"; "generated-2025-01-31T12-00-00-1Z-k3x9q2.png"]
     := mkInode false 8 "raw:BBBB" "today" ]>
  (<[ ["work"; "generated_imgs"; "generated-2025-01-31T12-00-00-0Z-k3x9q2.png"]
      := mkInode false 8 "raw:AAAA" "today" ]> withImagesDir).

(** The demo disk with a directory sitting at the name the second
    generated image will get. *)
Definition secondTaken : FsMap :=
  <[ ["work"; "generated_imgs"; "generated-2025-01-31T12-00-00-1Z-k3x9q2.png"] := dir ]>
  withImagesDir.

(** An instance holding the credential ["env-key"], taken from the
    environment, over the files [m]. *)
Definition ready (m : FsMap) : World :=
  mkWorld (Some (mkConfig "env-key")) (Some (mkClient "env-key")) None environment m [] 0.

End Demo.

(** ** Vocabulary for the statements *)

(** The credential the config file yields on the files [m]: the file is
    read, parsed as JSON and checked against the schema; any failure on
    the way gives none. *)
Definition configRecord (E : Env) (m : FsMap) : option Config :=
  match Fs.readFile m (cwd E) (getConfigPath E) with
  | Fail _ => None
  | Done text =>
      match JSON_parse E text with
      | None => None
      | Some j =>
          match ConfigSchema_parse j with
          | Ok c => Some c
          | Throw _ => None
          end
      end
  end.

(** The credential state: which key is active, in which client, and
    the label of its source. *)
Definition credential (w : World) : option Config * option GoogleGenAI * ConfigSource :=
  (config w, genAI w, configSource w).

(** The world after a credential [c] from source [s] became active. *)
Definition activate (c : Config) (s : ConfigSource) (w : World) : World :=
  set_configSource s (set_genAI (Some (mkClient (geminiApiKey c))) (set_config (Some c) w)).

(** The parts of a candidate, none when a level is missing. *)
Definition partsOf (c : Candidate) : list Part :=
  match cand_content c with
  | Some ct => match parts ct with Some ps => ps | None => [] end
  | None => []
  end.

(** The base64 payloads of the image-bearing parts, in part order. *)
Definition imageDatas (ps : list Part) : list string := omap imageData ps.

(** The image items the result carries, in part order. *)
Definition imageItems (ps : list Part) : list ContentItem :=
  omap (fun p => match imageData p with
                 | Some d => Some (ImageItem d (imageMime p))
                 | None => None
                 end) ps.

(** The texts of the parts, concatenated in part order. *)
Fixpoint textOf (ps : list Part) : string :=
  match ps with
  | [] => ""
  | p :: r => partText p +:+ textOf r
  end.

(** The path of the file [saveImage] writes at clock reading [n]. *)
Definition imagePathAt (E : Env) (prefix : string) (n : nat) : string :=
  Path.join [getImagesDirectory E;
             prefix +:+ "-" +:+ Js.replace_colon_dot (toISOString E n) +:+ "-"
             +:+ Js.substring 2 8 (random36 E n) +:+ ".png"].

(** The paths of [k] images written from clock reading [n] on. *)
Definition imagePaths (E : Env) (prefix : string) (n k : nat) : list string :=
  map (imagePathAt E prefix) (seq n k).

(** Decoding each payload and writing it, one file after the other,
    the first at clock reading [n]. *)
Fixpoint writeImages (E : Env) (prefix : string) (n : nat) (ds : list string)
         (m : FsMap) : IO FsMap :=
  match ds with
  | [] => Done m
  | d :: r =>
      match Fs.writeFile m (cwd E) (imagePathAt E prefix n) (from_base64 E d)
                         (localeTime E (S n)) with
      | Done m' => writeImages E prefix (S n) r m'
      | Fail e => Fail e
      end
  end.

(** The last of [paths] when there is one, else [old]. *)
Definition latest (old : option string) (paths : list string) : option string :=
  match last paths with
  | Some p => Some p
  | None => old
  end.

(** The world after [k] images were written, leaving the files [m]. *)
Definition afterImages (E : Env) (prefix : string) (k : nat) (m : FsMap) (w : World)
  : World :=
  mkWorld (config w) (genAI w) (latest (lastImagePath w) (imagePaths E prefix (ticks w) k))
          (configSource w) m (calls w) (ticks w + k)%nat.

(** How far the writes of [writeImages] get: the number of images
    written, the disk they leave, and the error that stopped them when
    one did. *)
Record Progress := mkProgress {
  written : nat;
  disk_after : FsMap;
  stopped : option Errno;
}.

Fixpoint writeProgress (E : Env) (prefix : string) (n : nat) (ds : list string)
         (m : FsMap) : Progress :=
  match ds with
  | [] => mkProgress 0 m None
  | d :: r =>
      match Fs.writeFile m (cwd E) (imagePathAt E prefix n) (from_base64 E d)
                         (localeTime E (S n)) with
      | Done m' =>
          let p := writeProgress E prefix (S n) r m' in
          mkProgress (S (written p)) (disk_after p) (stopped p)
      | Fail e => mkProgress 0 m (Some e)
      end
  end.

(** The parts [buildImageResponse] walks:
    [response.candidates?.[0]?.content?.parts], or none. *)
Definition firstParts (response : GenerateContentResponse) : list Part :=
  match firstCandidateParts response with
  | Some ps => ps
  | None => []
  end.

(** The warning recorded for a reference that failed with [e]. *)
Definition skipped (refPath : string) (e : Exn) : string :=
  "Skipped reference image " +:+ dq +:+ refPath +:+ dq +:+ ": " +:+ message e.

(** What one reference comes to on the files of [w]: its image part
    when it passes validation and can be read, its warning otherwise. *)
Definition referenceOutcome (E : Env) (w : World) (refPath : string)
  : ContentPart + string :=
  match fst (validateImagePath E refPath w) with
  | Throw e => inr (skipped refPath e)
  | Ok _ =>
      match Fs.readFile (fs w) (cwd E) refPath with
      | Done buf => inl (ImagePart (to_base64 E buf) (getMimeType refPath))
      | Fail e => inr (skipped refPath (Error (Fs.read_error_message e refPath)))
      end
  end.

Definition partOf (x : ContentPart + string) : option ContentPart :=
  match x with inl p => Some p | inr _ => None end.

Definition warningOf (x : ContentPart + string) : option string :=
  match x with inl _ => None | inr s => Some s end.

(** The image parts of the references that loaded, in input order. *)
Definition loadedParts (E : Env) (w : World) (refs : list string) : list ContentPart :=
  omap (fun r => partOf (referenceOutcome E w r)) refs.

(** The warnings of the references that did not, in input order. *)
Definition referenceWarnings (E : Env) (w : World) (refs : list string) : list string :=
  omap (fun r => warningOf (referenceOutcome E w r)) refs.

Definition referencesOf (a : EditArgs) : list string :=
  match referenceImages a with
  | Some rs => rs
  | None => []
  end.

(** The request [editImage] sends for a primary image with content
    [buf]: primary first, loaded references next, prompt last. *)
Definition editRequest (E : Env) (a : EditArgs) (w : World) (m buf : string)
  : GenerateContentParameters :=
  mkParams m (Parts (ImagePart (to_base64 E buf) (getMimeType (imagePath a))
                     :: loadedParts E w (referencesOf a)
                     ++ [TextPart (edit_prompt a)])%list).

(** The [catch] clauses of [generateImage] and [editImage]. *)
Definition generateCatch (error : Exn) : Exn :=
  McpError InternalError ("Failed to generate image: " +:+ message error).

Definition editCatch (error : Exn) : Exn :=
  if isMcpError error then error
  else McpError InternalError ("Failed to edit image: " +:+ message error).

(** A result passed through a [catch] clause. *)
Definition caught {A} (h : Exn -> Exn) (r : Res A * World) : Res A * World :=
  match r with
  | (Ok a, w) => (Ok a, w)
  | (Throw e, w) => (Throw (h e), w)
  end.

(** The error for a model id outside the supported set. *)
Definition UNSUPPORTED_MODEL (m : string) : Exn :=
  McpError InvalidParams
    ("Unsupported model " +:+ dq +:+ m +:+ dq +:+ ". Supported: "
     +:+ Js.join ", " SUPPORTED_MODELS).

(** What [generateImage] runs inside its [try]. *)
Definition generateBody (E : Env) (m prompt : string) : M CallToolResult :=
  try_catch
    (response ← models_generateContent E (mkParams m (Prompt prompt));
     buildImageResponse E response "generated" prompt [])
    (fun error =>
       throw (McpError InternalError ("Failed to generate image: " +:+ message error))).

(** The session's last image path names a file that can be read. *)
Definition lastIsWritten (E : Env) (w : World) : Prop :=
  exists p content, lastImagePath w = Some p
                    /\ Fs.readFile (fs w) (cwd E) p = Done content.

(** From [w0] to [w] the last image path either stayed, or was set to
    a file that is there. *)
Definition lastFollowsWrite (E : Env) (w0 w : World) : Prop :=
  lastImagePath w = lastImagePath w0 \/ lastIsWritten E w.

(** ** Frames: what a method leaves alone

    [keeps f m]: running [m] never changes the projection [f] of the
    world, whether [m] returns or throws. *)

Definition keeps {A B} (f : World -> B) (m : M A) : Prop :=
  forall w, f (snd (m w)) = f w.

(** [readonly m]: [m] changes nothing at all. *)
Definition readonly {A} (m : M A) : Prop := forall w, snd (m w) = w.

(** ** The server over time *)

(** The handler takes one request at a time: [serve] runs a list of
    requests in order, each on the world the one before left. *)
Fixpoint serve (E : Env) (rs : list ToolRequest) (w : World) : World :=
  match rs with
  | [] => w
  | r :: rest => serve E rest (snd (callTool E r w))
  end.

(** The names the [ListTools] handler advertises, in its order. *)
Definition listedTools : list string :=
  ["configure_gemini_token"; "generate_image"; "edit_image";
   "get_configuration_status"; "continue_editing"; "get_last_image_info"].

(** The [case] labels of the [CallTool] switch: is [name] one of them. *)
Definition hasCase (name : string) : bool :=
  if String.eqb name "configure_gemini_token" then true
  else if String.eqb name "generate_image" then true
  else if String.eqb name "edit_image" then true
  else if String.eqb name "get_configuration_status" then true
  else if String.eqb name "continue_editing" then true
  else if String.eqb name "get_last_image_info" then true
  else false.

(** [m] throws nothing but [McpError]s. *)
Definition throwsMcpOnly {A} (m : M A) : Prop :=
  forall w e w', m w = (Throw e, w') -> isMcpError e = true.

(** A disk shaped like a tree: whatever exists lies in a directory. *)
Definition wellFormed (m : FsMap) : Prop :=
  forall k i, m !! k = Some i -> k <> [] /\ Fs.as_dir m (removelast k) = Done tt.

(** [s] has no ['/'] in it. *)
Fixpoint slashFree (s : string) : bool :=
  match s with
  | EmptyString => true
  | String c r => negb (Ascii.eqb c "/") && slashFree r
  end.

(** The file name [saveImage] makes up at clock reading [n]. *)
Definition imageFileName (E : Env) (prefix : string) (n : nat) : string :=
  prefix +:+ "-" +:+ Js.replace_colon_dot (toISOString E n) +:+ "-"
  +:+ Js.substring 2 8 (random36 E n) +:+ ".png".

(** The text [getLastImageInfo] returns for a file that is there. *)
Definition LAST_IMAGE_TEXT (p : string) (stats : Inode) : string :=
  "Last Image Information:" +:+ nl +:+ nl +:+ "Path: " +:+ p
  +:+ nl +:+ "File Size: "
  +:+ Js.show (Js.round_div (size stats) 1024) +:+ " KB"
  +:+ nl +:+ "Last Modified: " +:+ mtime stats +:+ nl +:+ nl
  +:+ "Use continue_editing to make further changes.".

(** The three answers of [getConfigurationStatus]. *)
Definition STATUS_ENVIRONMENT : string :=
  "Gemini API token is configured and ready to use" +:+ nl
  +:+ "Source: Environment variable (GEMINI_API_KEY)" +:+ nl
  +:+ "This is the most secure configuration method.".

Definition STATUS_CONFIG_FILE : string :=
  "Gemini API token is configured and ready to use" +:+ nl
  +:+ "Source: Local configuration file (.nano-banana-config.json)" +:+ nl
  +:+ "Consider using environment variables for better security.".

Definition STATUS_NOT_CONFIGURED : string :=
  "Gemini API token is not configured" +:+ nl +:+ nl
  +:+ "Configuration options (in priority order):" +:+ nl
  +:+ "1. MCP client environment variables (Recommended)" +:+ nl
  +:+ "2. System environment variable: GEMINI_API_KEY" +:+ nl
  +:+ "3. Use configure_gemini_token tool" +:+ nl +:+ nl
  +:+ "For the most secure setup, add this to your MCP configuration:" +:+ nl
  +:+ dq +:+ "env" +:+ dq +:+ ": { " +:+ dq +:+ "GEMINI_API_KEY" +:+ dq +:+ ": "
  +:+ dq +:+ "your-api-key-here" +:+ dq +:+ " }".

(** The credential states the server can be in: nothing, or one
    non-empty key held alike by the config and the client, with the
    label of where it came from. *)
Definition coherent (w : World) : Prop :=
  credential w = (None, None, not_configured)
  \/ exists key s, key <> "" /\ s <> not_configured
                   /\ credential w = (Some (mkConfig key), Some (mkClient key), s).

(** ** The files over time *)

(** [m'] has every file and directory of [m]: a directory as it was, a
    file still a file (its content may be newer). *)
Definition extends (m m' : FsMap) : Prop :=
  forall k i, m !! k = Some i ->
    if isDirectory i then m' !! k = Some i
    else exists i', m' !! k = Some i' /\ isDirectory i' = false.

(** Running [m] takes every world to one related to it by [R], whether
    [m] returns or throws. *)
Definition steps {A} (R : World -> World -> Prop) (m : M A) : Prop :=
  forall w, R w (snd (m w)).

(** A relation on the files, read on the worlds that hold them. *)
Definition onFiles (Q : FsMap -> FsMap -> Prop) (w w' : World) : Prop :=
  Q (fs w) (fs w').

(** A tree stays a tree. *)
Definition keepsTree (m m' : FsMap) : Prop := wellFormed m -> wellFormed m'.

(** The session holds no last image, or one that can be read. *)
Definition tracked (E : Env) (w : World) : Prop :=
  lastImagePath w = None \/ lastIsWritten E w.

(** [t] is the one segment [s], or ends in a ['/'] followed by [s]. *)
Definition hasLastSegment (s t : string) : Prop :=
  t = s \/ exists q, t = q +:+ "/" +:+ s.

(** The last image of the session, if any, is one the server named. *)
Definition ownImage (E : Env) (w : World) : Prop :=
  match lastImagePath w with
  | None => True
  | Some p => exists prefix n, slashFree prefix = true /\ p = imagePathAt E prefix n
  end.

(** An environment whose clock and random source stand still. *)
Definition steadyEnv (key : option string)
           (provider : GoogleGenAI -> GenerateContentParameters -> nat
                       -> Res GenerateContentResponse) : Env :=
  mkEnv key "/work" "/home/u" "linux"
        (fun _ => "2025-01-31T12:00:00.000Z")
        (fun _ => "0.k3x9q2zz")
        (fun _ => "today")
        provider
        (fun s => "raw:" +:+ s)
        (fun s => "b64:" +:+ s)
        (fun _ => None)
        (fun _ => "{key}").

(** * Reasoning about methods *)

Ltac unfold_monad :=
  unfold io, mbind, M_bind, mret, M_ret, bind, ret, throw, try_catch, gets, modify, lift in *.

(** A few runs of the string and path helpers. *)
Example extname_png : Path.extname "/home/u/pic.PNG" = ".PNG". Proof. reflexivity. Qed.
Example extname_hidden : Path.extname "/home/u/.bashrc" = "". Proof. reflexivity. Qed.
Example extname_two : Path.extname "a.tar.gz" = ".gz". Proof. reflexivity. Qed.
Example extname_dir : Path.extname "a.b/c" = "". Proof. reflexivity. Qed.
Example extname_dot : Path.extname "index." = ".". Proof. reflexivity. Qed.
Example resolve_rel : Path.resolve "/work" "a/../b.png" = "/work/b.png". Proof. reflexivity. Qed.
Example resolve_abs : Path.resolve "/work" "/x//y/./z/" = "/x/y/z". Proof. reflexivity. Qed.
Example resolve_up : Path.resolve "/work" "../../../etc/p.gif" = "/etc/p.gif". Proof. reflexivity. Qed.
Example join_two : Path.join ["/work"; "generated_imgs"] = "/work/generated_imgs". Proof. reflexivity. Qed.
Example lower_ext : Js.toLowerCase ".JpEg" = ".jpeg". Proof. reflexivity. Qed.
Example round_21mb : Js.round_div 22020096 1048576 = 21. Proof. reflexivity. Qed.
Example show_20 : Js.show 20 = "20". Proof. reflexivity. Qed.


Section Frames.

Context {B : Type} (f : World -> B).

Lemma readonly_keeps {A} (m : M A) : readonly m -> keeps f m.
Proof. intros H w. now rewrite H. Qed.

Lemma keeps_ret {A} (a : A) : keeps f (ret a).
Proof. now intros w. Qed.

Lemma keeps_throw {A} (e : Exn) : keeps f (@throw A e).
Proof. now intros w. Qed.

Lemma keeps_lift {A} (r : Res A) : keeps f (lift r).
Proof. now intros w. Qed.

Lemma keeps_gets {A} (g : World -> A) : keeps f (gets g).
Proof. now intros w. Qed.

Lemma keeps_modify (g : World -> World) :
  (forall w, f (g w) = f w) -> keeps f (modify g).
Proof. intros H w. apply H. Qed.

Lemma keeps_bind {A C} (m : M A) (k : A -> M C) :
  keeps f m -> (forall a, keeps f (k a)) -> keeps f (bind m k).
Proof.
  intros Hm Hk w. unfold bind. specialize (Hm w).
  destruct (m w) as [[a|e] w1]; simpl in *.
  - now rewrite Hk.
  - exact Hm.
Qed.

Lemma keeps_try_catch {A} (m : M A) (h : Exn -> M A) :
  keeps f m -> (forall e, keeps f (h e)) -> keeps f (try_catch m h).
Proof.
  intros Hm Hh w. unfold try_catch. specialize (Hm w).
  destruct (m w) as [[a|e] w1]; simpl in *.
  - exact Hm.
  - now rewrite Hh.
Qed.

End Frames.

Lemma readonly_ret {A} (a : A) : readonly (ret a).
Proof. now intros w. Qed.

Lemma readonly_throw {A} (e : Exn) : readonly (@throw A e).
Proof. now intros w. Qed.

Lemma readonly_bind {A C} (m : M A) (k : A -> M C) :
  readonly m -> (forall a, readonly (k a)) -> readonly (bind m k).
Proof. intros Hm Hk. apply (keeps_bind id); [exact Hm | exact Hk]. Qed.

Lemma readonly_try_catch {A} (m : M A) (h : Exn -> M A) :
  readonly m -> (forall e, readonly (h e)) -> readonly (try_catch m h).
Proof. intros Hm Hh. apply (keeps_try_catch id); [exact Hm | exact Hh]. Qed.

Section ServerFacts.

Variable E : Env.

Lemma readonly_io {A} (syscall p : string) (r : IO A) : readonly (io syscall p r).
Proof. now destruct r. Qed.

Lemma readonly_fs_stat p : readonly (fs_stat E p).
Proof. intros w. unfold fs_stat. apply readonly_io. Qed.

Lemma readonly_fs_access p : readonly (fs_access E p).
Proof. intros w. unfold fs_access. apply readonly_io. Qed.

Lemma readonly_fs_readFile p : readonly (fs_readFile E p).
Proof. intros w. unfold fs_readFile. now destruct (Fs.readFile _ _ _). Qed.

Lemma readonly_validateImagePath p : readonly (validateImagePath E p).
Proof.
  unfold validateImagePath.
  destruct (negb _); [apply readonly_throw|].
  apply readonly_bind.
  - apply readonly_try_catch; [apply readonly_fs_stat | intros; apply readonly_throw].
  - intros st. destruct (_ >? _)%Z; [apply readonly_throw | apply readonly_ret].
Qed.

Lemma readonly_loadReference p : readonly (loadReference E p).
Proof.
  unfold loadReference. apply readonly_try_catch.
  - apply readonly_bind; [apply readonly_validateImagePath|].
    intros _. apply readonly_bind; [apply readonly_fs_readFile|].
    intros; apply readonly_ret.
  - intros; apply readonly_ret.
Qed.

Lemma readonly_loadReferences refs : forall ps ws, readonly (loadReferences E refs ps ws).
Proof.
  induction refs as [|r refs IH]; intros ps ws; simpl.
  - apply readonly_ret.
  - apply readonly_bind; [apply readonly_loadReference|].
    intros [part|warning]; apply IH.
Qed.

End ServerFacts.

(** * The input validator *)

Lemma validate_bad_extension (E : Env) (filePath : string) (w : World) :
  Js.includes ALLOWED_IMAGE_EXTENSIONS
    (Js.toLowerCase (Path.extname (Path.resolve (cwd E) filePath))) = false ->
  exists msg, validateImagePath E filePath w = (Throw (McpError InvalidParams msg), w).
Proof.
  intros H. unfold validateImagePath. rewrite H. simpl. eexists. reflexivity.
Qed.

Lemma validate_good_extension (E : Env) (filePath : string) (w : World) :
  Js.includes ALLOWED_IMAGE_EXTENSIONS
    (Js.toLowerCase (Path.extname (Path.resolve (cwd E) filePath))) = true ->
  validateImagePath E filePath w =
  match Fs.stat (fs w) (cwd E) (Path.resolve (cwd E) filePath) with
  | Fail _ => (Throw (McpError InvalidParams ("Image file not found: " +:+ filePath)), w)
  | Done stats =>
      if (size stats >? MAX_IMAGE_SIZE_BYTES)%Z
      then (Throw (McpError InvalidParams
                     ("Image file too large ("
                      +:+ Js.show (Js.round_div (size stats) (1024 * 1024))
                      +:+ "MB). Maximum: "
                      +:+ Js.show (MAX_IMAGE_SIZE_BYTES / 1024 / 1024) +:+ "MB")), w)
      else (Ok tt, w)
  end.
Proof.
  intros H. unfold validateImagePath. rewrite H. cbv [negb].
  unfold_monad. unfold fs_stat, io.
  destruct (Fs.stat _ _ _) as [st|e]; [|reflexivity].
  unfold ret. destruct (size st >? _)%Z; reflexivity.
Qed.

(** C4.  The validator resolves the path, lower-cases the extension of
    the resolved path and, when it is not one of .jpg, .jpeg, .png,
    .webp, .gif, rejects with [InvalidParams] and the
    unsupported-format message, whatever the file system holds: a
    missing file or an oversized one with such an extension gets this
    answer and no other.  Only for an allowed extension does it stat
    the resolved path, rejecting with the not-found message when that
    fails; only then does it compare the size with the cap, rejecting
    with the too-large message.  A file of exactly 20971520 bytes
    passes, one of 20971521 bytes is rejected.  The validator changes
    nothing. *)
Theorem validateImagePath_checks_in_order (E : Env) (filePath : string) (w : World) :
  let resolved := Path.resolve (cwd E) filePath in
  let ext := Js.toLowerCase (Path.extname resolved) in
  (Js.includes [".jpg"; ".jpeg"; ".png"; ".webp"; ".gif"] ext = false ->
   validateImagePath E filePath w
   = (Throw (McpError InvalidParams
               ("Unsupported image format " +:+ dq +:+ ext +:+ dq
                +:+ ". Allowed: .jpg, .jpeg, .png, .webp, .gif")), w))
  /\
  (Js.includes [".jpg"; ".jpeg"; ".png"; ".webp"; ".gif"] ext = true ->
   match Fs.stat (fs w) (cwd E) resolved with
   | Fail _ =>
       validateImagePath E filePath w =
       (Throw (McpError InvalidParams ("Image file not found: " +:+ filePath)), w)
   | Done stats =>
       (size stats <= 20971520 -> validateImagePath E filePath w = (Ok tt, w))
       /\ (20971521 <= size stats ->
           validateImagePath E filePath w
           = (Throw (McpError InvalidParams
                       ("Image file too large ("
                        +:+ Js.show (Js.round_div (size stats) 1048576)
                        +:+ "MB). Maximum: 20MB")), w))
   end).
Proof.
  cbv zeta. split.
  - intros H. unfold validateImagePath.
    change ALLOWED_IMAGE_EXTENSIONS with [".jpg"; ".jpeg"; ".png"; ".webp"; ".gif"].
    rewrite H. reflexivity.
  - intros H. rewrite (validate_good_extension E filePath w H).
    destruct (Fs.stat _ _ _) as [st|e]; [|reflexivity].
    change MAX_IMAGE_SIZE_BYTES with 20971520.
    split; intros Hs.
    + destruct (Z.gtb_spec (size st) 20971520); [lia | reflexivity].
    + destruct (Z.gtb_spec (size st) 20971520); [reflexivity | lia].
Qed.

(** On the demo disk: a file of exactly the cap passes; one byte more
    is turned down for its size; a missing [.gif] is not found; and for
    [.svg] and [.bmp] the answer is the unsupported format, though the
    one file is far over the cap and the other is not there at all. *)
Lemma validateImagePath_checks_in_order_witness :
  let w := fresh Demo.disk in
  let E := Demo.env None (Demo.always (Ok Demo.textOnly)) in
  validateImagePath E "edge.PNG" w = (Ok tt, w)
  /\ validateImagePath E "./over.png" w
     = (Throw (McpError InvalidParams "Image file too large (20MB). Maximum: 20MB"), w)
  /\ validateImagePath E "nowhere.gif" w =
     (Throw (McpError InvalidParams "Image file not found: nowhere.gif"), w)
  /\ validateImagePath E "/work/huge.svg" w
     = (Throw (McpError InvalidParams
                 ("Unsupported image format " +:+ dq +:+ ".svg" +:+ dq
                  +:+ ". Allowed: .jpg, .jpeg, .png, .webp, .gif")), w)
  /\ validateImagePath E "missing.bmp" w
     = (Throw (McpError InvalidParams
                 ("Unsupported image format " +:+ dq +:+ ".bmp" +:+ dq
                  +:+ ". Allowed: .jpg, .jpeg, .png, .webp, .gif")), w).
Proof.
  cbv zeta.
  set (w := fresh Demo.disk). set (E := Demo.env None (Demo.always (Ok Demo.textOnly))).
  split; [|split; [|split; [|split]]].
  - pose proof (proj2 (validateImagePath_checks_in_order E "edge.PNG" w) eq_refl) as H.
    cbv zeta in H.
    replace (Fs.stat (fs w) (cwd E) (Path.resolve (cwd E) "edge.PNG"))
      with (@Done Inode (Demo.file 20971520 "EDGE")) in H by reflexivity.
    apply (proj1 H). cbn [size Demo.file]. lia.
  - pose proof (proj2 (validateImagePath_checks_in_order E "./over.png" w) eq_refl) as H.
    cbv zeta in H.
    replace (Fs.stat (fs w) (cwd E) (Path.resolve (cwd E) "./over.png"))
      with (@Done Inode (Demo.file 20971521 "OVER")) in H by reflexivity.
    apply (proj2 H). cbn [size Demo.file]. lia.
  - pose proof (proj2 (validateImagePath_checks_in_order E "nowhere.gif" w) eq_refl) as H.
    cbv zeta in H.
    replace (Fs.stat (fs w) (cwd E) (Path.resolve (cwd E) "nowhere.gif"))
      with (@Fail Inode ENOENT) in H by reflexivity.
    exact H.
  - exact (proj1 (validateImagePath_checks_in_order E "/work/huge.svg" w) eq_refl).
  - exact (proj1 (validateImagePath_checks_in_order E "missing.bmp" w) eq_refl).
Defined.

(** * Iterative editing and the last-image query *)

Section Continue.

Variable E : Env.

Lemma continueEditing_unconfigured a w :
  configured w = false -> continueEditing E a w = (Throw NOT_CONFIGURED, w).
Proof.
  intros H. unfold continueEditing, ensureConfigured. unfold_monad. now rewrite H.
Qed.

Lemma continueEditing_no_image a w :
  configured w = true -> holdsLastImage w = false ->
  continueEditing E a w = (Throw NO_PREVIOUS_IMAGE, w).
Proof.
  intros Hc Hl. unfold continueEditing, ensureConfigured. unfold_monad.
  rewrite Hc. cbv [negb]. unfold holdsLastImage, Js.truthy_opt in Hl.
  destruct (lastImagePath w) as [p|]; [|reflexivity].
  now rewrite Hl.
Qed.

Lemma continueEditing_with_image a w p :
  configured w = true -> lastImagePath w = Some p -> Js.truthy p = true ->
  continueEditing E a w =
  match Fs.access (fs w) (cwd E) p with
  | Fail _ => (Throw (LAST_IMAGE_MISSING p), w)
  | Done _ => editImage E (mkEditArgs p (cont_prompt a) (cont_referenceImages a)
                                      (cont_model a)) w
  end.
Proof.
  intros Hc Hl Hp. unfold continueEditing, ensureConfigured. unfold_monad.
  rewrite Hc. cbv [negb]. rewrite Hl, Hp. cbv [negb]. unfold fs_access, io.
  destruct (Fs.access _ _ _); reflexivity.
Qed.

Lemma getLastImageInfo_none w :
  holdsLastImage w = false ->
  getLastImageInfo E w = (Ok (mkResult [TextItem NO_IMAGE_YET_TEXT]), w).
Proof.
  intros Hl. unfold getLastImageInfo. unfold_monad.
  unfold holdsLastImage, Js.truthy_opt in Hl.
  destruct (lastImagePath w) as [p|]; [|reflexivity].
  now rewrite Hl.
Qed.

Lemma getLastImageInfo_some w p :
  lastImagePath w = Some p -> Js.truthy p = true ->
  getLastImageInfo E w =
  match Fs.access (fs w) (cwd E) p with
  | Fail _ => (Ok (mkResult [TextItem (FILE_NOT_FOUND_TEXT p)]), w)
  | Done _ =>
      match Fs.stat (fs w) (cwd E) p with
      | Fail _ => (Ok (mkResult [TextItem (FILE_NOT_FOUND_TEXT p)]), w)
      | Done stats =>
          (Ok (mkResult
                 [TextItem ("Last Image Information:" +:+ nl +:+ nl +:+ "Path: " +:+ p
                            +:+ nl +:+ "File Size: "
                            +:+ Js.show (Js.round_div (size stats) 1024) +:+ " KB"
                            +:+ nl +:+ "Last Modified: " +:+ mtime stats +:+ nl +:+ nl
                            +:+ "Use continue_editing to make further changes.")]), w)
      end
  end.
Proof.
  intros Hl Hp. unfold getLastImageInfo. unfold_monad.
  rewrite Hl, Hp. cbv [negb]. unfold fs_access, fs_stat, io.
  destruct (Fs.access _ _ _); [|reflexivity].
  unfold ret, throw. cbv beta iota.
  destruct (Fs.stat _ _ _); reflexivity.
Qed.

Lemma getLastImageInfo_total w : exists r, getLastImageInfo E w = (Ok r, w).
Proof.
  destruct (holdsLastImage w) eqn:Hl.
  - unfold holdsLastImage, Js.truthy_opt in Hl.
    destruct (lastImagePath w) as [p|] eqn:Hp; [|discriminate].
    rewrite (getLastImageInfo_some w p Hp Hl).
    destruct (Fs.access _ _ _); [|eexists; reflexivity].
    destruct (Fs.stat _ _ _); eexists; reflexivity.
  - rewrite (getLastImageInfo_none w Hl). eexists; reflexivity.
Qed.

End Continue.

Lemma session_errors_distinct p :
  NOT_CONFIGURED <> NO_PREVIOUS_IMAGE
  /\ NOT_CONFIGURED <> LAST_IMAGE_MISSING p
  /\ NO_PREVIOUS_IMAGE <> LAST_IMAGE_MISSING p.
Proof. repeat split; discriminate. Qed.

(** C10.  In [continueEditing] the credential check comes first: in
    every state without an active credential the call throws the
    not-configured error and changes nothing, also when no last image is
    recorded and when the recorded file is gone; that error is neither
    the no-previous-image error nor the last-image-missing error. *)
Theorem continueEditing_not_configured_first (E : Env) (a : ContinueArgs) (w : World) :
  configured w = false ->
  continueEditing E a w = (Throw NOT_CONFIGURED, w)
  /\ NOT_CONFIGURED <> NO_PREVIOUS_IMAGE
  /\ (forall p, NOT_CONFIGURED <> LAST_IMAGE_MISSING p).
Proof.
  intros H. split; [now apply continueEditing_unconfigured|].
  split; [apply (session_errors_distinct "") | intros p; apply (session_errors_distinct p)].
Qed.

(** A fresh instance on the demo disk, before any credential: no last
    image either, yet the error is the not-configured one.  The same
    with a recorded path whose file does not exist. *)
Lemma continueEditing_not_configured_first_witness :
  let E := Demo.env None (Demo.always (Ok Demo.textOnly)) in
  let a := mkContinueArgs "brighter" None None in
  continueEditing E a (fresh Demo.disk) = (Throw NOT_CONFIGURED, fresh Demo.disk)
  /\ continueEditing E a (set_lastImagePath (Some "/work/gone.png") (fresh Demo.disk))
     = (Throw NOT_CONFIGURED, set_lastImagePath (Some "/work/gone.png") (fresh Demo.disk)).
Proof.
  cbv zeta. split.
  - apply (continueEditing_not_configured_first _ _ (fresh Demo.disk)). reflexivity.
  - apply (continueEditing_not_configured_first _ _
             (set_lastImagePath (Some "/work/gone.png") (fresh Demo.disk))). reflexivity.
Defined.

(** C8, as stated, fails: "NoPriorImage whenever the session holds no
    last image" does not hold in a state without a credential.  A fresh
    instance with no environment key holds no last image, and
    [continueEditing] throws the not-configured error, which is not the
    no-previous-image error. *)
Lemma continueEditing_no_image_unconfigured :
  let E := Demo.env None (Demo.always (Ok Demo.textOnly)) in
  let w := fresh Demo.disk in
  lastImagePath w = None
  /\ continueEditing E (mkContinueArgs "brighter" None None) w = (Throw NOT_CONFIGURED, w)
  /\ NOT_CONFIGURED <> NO_PREVIOUS_IMAGE.
Proof. cbv zeta. split; [reflexivity|]. split; [reflexivity|discriminate]. Qed.

(** C8, amended.  When a credential is active, [continueEditing] throws
    the no-previous-image error if the session holds no last image path,
    throws the distinct last-image-missing error if the recorded file
    cannot be accessed, and otherwise is exactly [editImage] with the
    recorded path as the primary image.  [getLastImageInfo] never throws
    and changes nothing; when the recorded file cannot be accessed it
    returns the "Status: File not found" text. *)
Theorem continueEditing_prior_image_checks (E : Env) (a : ContinueArgs) (w : World) :
  (configured w = true ->
   (holdsLastImage w = false -> continueEditing E a w = (Throw NO_PREVIOUS_IMAGE, w))
   /\ (forall p, lastImagePath w = Some p -> Js.truthy p = true ->
       match Fs.access (fs w) (cwd E) p with
       | Fail _ =>
           continueEditing E a w = (Throw (LAST_IMAGE_MISSING p), w)
           /\ LAST_IMAGE_MISSING p <> NO_PREVIOUS_IMAGE
       | Done _ =>
           continueEditing E a w =
           editImage E (mkEditArgs p (cont_prompt a) (cont_referenceImages a) (cont_model a)) w
       end))
  /\ (exists r, getLastImageInfo E w = (Ok r, w))
  /\ (forall p, lastImagePath w = Some p -> Js.truthy p = true ->
      forall e, Fs.access (fs w) (cwd E) p = Fail e ->
      getLastImageInfo E w = (Ok (mkResult [TextItem (FILE_NOT_FOUND_TEXT p)]), w)).
Proof.
  split; [intros Hc; split|split].
  - now apply continueEditing_no_image.
  - intros p Hl Hp. rewrite (continueEditing_with_image E a w p Hc Hl Hp).
    destruct (Fs.access _ _ _); [reflexivity|]. split; [reflexivity|discriminate].
  - apply getLastImageInfo_total.
  - intros p Hl Hp e He. rewrite (getLastImageInfo_some E w p Hl Hp), He. reflexivity.
Qed.

(** With the credential ["env-key"] on the demo disk: no recorded image
    gives the no-previous-image error; a recorded path that is gone
    gives the last-image-missing error from [continueEditing] and the
    file-not-found text from [getLastImageInfo]; a recorded path that
    exists hands over to [editImage]. *)
Lemma continueEditing_prior_image_checks_witness :
  let E := Demo.env (Some "env-key") (Demo.always (Ok Demo.textOnly)) in
  let a := mkContinueArgs "brighter" None None in
  let w := Demo.ready Demo.disk in
  let gone := set_lastImagePath (Some "/work/gone.png") w in
  let there := set_lastImagePath (Some "/work/cat.png") w in
  continueEditing E a w = (Throw NO_PREVIOUS_IMAGE, w)
  /\ continueEditing E a gone = (Throw (LAST_IMAGE_MISSING "/work/gone.png"), gone)
  /\ getLastImageInfo E gone =
     (Ok (mkResult [TextItem (FILE_NOT_FOUND_TEXT "/work/gone.png")]), gone)
  /\ continueEditing E a there = editImage E (mkEditArgs "/work/cat.png" "brighter" None None) there.
Proof.
  cbv zeta.
  set (E := Demo.env (Some "env-key") (Demo.always (Ok Demo.textOnly))).
  set (a := mkContinueArgs "brighter" None None).
  set (w := Demo.ready Demo.disk).
  set (gone := set_lastImagePath (Some "/work/gone.png") w).
  set (there := set_lastImagePath (Some "/work/cat.png") w).
  split; [|split; [|split]].
  - apply (proj1 (continueEditing_prior_image_checks E a w)); reflexivity.
  - exact (proj1 (proj2 (proj1 (continueEditing_prior_image_checks E a gone) eq_refl)
                    "/work/gone.png" eq_refl eq_refl)).
  - exact (proj2 (proj2 (continueEditing_prior_image_checks E a gone))
                 "/work/gone.png" eq_refl eq_refl ENOENT eq_refl).
  - exact (proj2 (proj1 (continueEditing_prior_image_checks E a there) eq_refl)
                 "/work/cat.png" eq_refl eq_refl).
Defined.

(** * Model selection *)


Lemma resolveModel_omitted : resolveModel None = Ok DEFAULT_MODEL.
Proof. reflexivity. Qed.

Lemma resolveModel_default : resolveModel (Some DEFAULT_MODEL) = Ok DEFAULT_MODEL.
Proof. reflexivity. Qed.

Lemma resolveModel_empty : resolveModel (Some "") = Ok DEFAULT_MODEL.
Proof. reflexivity. Qed.

Lemma resolveModel_unsupported m :
  Js.truthy m = true -> Js.includes SUPPORTED_MODELS m = false ->
  resolveModel (Some m) = Throw (UNSUPPORTED_MODEL m).
Proof. intros Ht Hi. unfold resolveModel. now rewrite Ht, Hi. Qed.

Lemma resolveModel_supported m :
  Js.truthy m = true -> Js.includes SUPPORTED_MODELS m = true ->
  resolveModel (Some m) = Ok m.
Proof. intros Ht Hi. unfold resolveModel. now rewrite Ht, Hi. Qed.

Section Entry.

Variable E : Env.


Lemma generateImage_unconfigured a w :
  configured w = false -> generateImage E a w = (Throw NOT_CONFIGURED, w).
Proof.
  intros H. unfold generateImage, ensureConfigured. unfold_monad. now rewrite H.
Qed.

Lemma generateImage_configured a w :
  configured w = true ->
  generateImage E a w =
  match resolveModel (gen_model a) with
  | Throw e => (Throw e, w)
  | Ok m => generateBody E m (gen_prompt a) w
  end.
Proof.
  intros H. unfold generateImage, generateBody, ensureConfigured. unfold_monad.
  rewrite H. cbv [negb]. destruct (resolveModel _); reflexivity.
Qed.

(** [generateImage] reads its [model] argument only through
    [resolveModel]. *)
Lemma generateImage_model_ext prompt m1 m2 w :
  resolveModel m1 = resolveModel m2 ->
  generateImage E (mkGenerateArgs prompt m1) w = generateImage E (mkGenerateArgs prompt m2) w.
Proof.
  intros H. destruct (configured w) eqn:Hc.
  - rewrite !generateImage_configured by assumption. cbn [gen_model gen_prompt].
    now rewrite H.
  - now rewrite !generateImage_unconfigured.
Qed.

Lemma editImage_unconfigured a w :
  configured w = false -> editImage E a w = (Throw NOT_CONFIGURED, w).
Proof.
  intros H. unfold editImage, ensureConfigured. unfold_monad. now rewrite H.
Qed.

Lemma editImage_bad_model a w e :
  configured w = true -> resolveModel (edit_model a) = Throw e ->
  editImage E a w = (Throw e, w).
Proof.
  intros H Hm. unfold editImage, ensureConfigured. unfold_monad.
  rewrite H. cbv [negb]. now rewrite Hm.
Qed.

Lemma editImage_model_ext p prompt refs m1 m2 w :
  resolveModel m1 = resolveModel m2 ->
  editImage E (mkEditArgs p prompt refs m1) w = editImage E (mkEditArgs p prompt refs m2) w.
Proof.
  intros H. unfold editImage. unfold_monad. cbn [edit_model]. now rewrite H.
Qed.

End Entry.

(** C9, as stated, fails twice.  The empty string is outside the
    supported set, yet [generateImage] accepts it and calls the provider
    with the default model.  And without a credential an unsupported
    model id is answered with the not-configured error, not with
    [InvalidParams]. *)
Lemma resolveModel_empty_string_accepted :
  let E := Demo.env (Some "env-key") (Demo.always (Ok Demo.textOnly)) in
  let w := Demo.ready Demo.disk in
  let r := generateImage E (mkGenerateArgs "a cat" (Some "")) w in
  Js.includes SUPPORTED_MODELS "" = false
  /\ (exists result, fst r = Ok result)
  /\ calls (snd r) = [(mkClient "env-key", mkParams DEFAULT_MODEL (Prompt "a cat"))]
  /\ generateImage E (mkGenerateArgs "a cat" (Some "gpt-5")) (fresh Demo.disk)
     = (Throw (McpError InvalidRequest
                 "Gemini API token not configured. Use configure_gemini_token first."),
        fresh Demo.disk).
Proof.
  cbv zeta. split; [reflexivity|]. split; [|split].
  - eexists. vm_compute. reflexivity.
  - vm_compute. reflexivity.
  - reflexivity.
Qed.

(** C9, amended.  Omitting the model id, passing the empty string and
    passing the default model id behave identically, for [generateImage]
    and for [editImage].  A non-empty model id outside the supported set
    makes both fail without any effect: the world, and so the log of
    remote calls, is unchanged; when a credential is active the error is
    the [InvalidParams] "Unsupported model" error (without one it is the
    not-configured error). *)
Theorem model_default_and_rejection (E : Env) (w : World) :
  (forall prompt,
      generateImage E (mkGenerateArgs prompt None) w
      = generateImage E (mkGenerateArgs prompt (Some DEFAULT_MODEL)) w
      /\ generateImage E (mkGenerateArgs prompt (Some "")) w
         = generateImage E (mkGenerateArgs prompt (Some DEFAULT_MODEL)) w)
  /\ (forall p prompt refs,
      editImage E (mkEditArgs p prompt refs None) w
      = editImage E (mkEditArgs p prompt refs (Some DEFAULT_MODEL)) w
      /\ editImage E (mkEditArgs p prompt refs (Some "")) w
         = editImage E (mkEditArgs p prompt refs (Some DEFAULT_MODEL)) w)
  /\ (forall m, Js.truthy m = true -> Js.includes SUPPORTED_MODELS m = false ->
      forall p prompt refs,
        let e := if configured w then UNSUPPORTED_MODEL m else NOT_CONFIGURED in
        generateImage E (mkGenerateArgs prompt (Some m)) w = (Throw e, w)
        /\ editImage E (mkEditArgs p prompt refs (Some m)) w = (Throw e, w)
        /\ calls (snd (generateImage E (mkGenerateArgs prompt (Some m)) w)) = calls w
        /\ calls (snd (editImage E (mkEditArgs p prompt refs (Some m)) w)) = calls w).
Proof.
  split; [|split].
  - intros prompt. split; now apply generateImage_model_ext.
  - intros p prompt refs. split; now apply editImage_model_ext.
  - intros m Ht Hi p prompt refs. cbv zeta.
    pose proof (resolveModel_unsupported m Ht Hi) as Hm.
    assert (Hg : generateImage E (mkGenerateArgs prompt (Some m)) w
                 = (Throw (if configured w then UNSUPPORTED_MODEL m else NOT_CONFIGURED), w)).
    { destruct (configured w) eqn:Hc.
      - rewrite generateImage_configured by assumption. cbn [gen_model]. now rewrite Hm.
      - now apply generateImage_unconfigured. }
    assert (He : editImage E (mkEditArgs p prompt refs (Some m)) w
                 = (Throw (if configured w then UNSUPPORTED_MODEL m else NOT_CONFIGURED), w)).
    { destruct (configured w) eqn:Hc.
      - now apply editImage_bad_model.
      - now apply editImage_unconfigured. }
    rewrite Hg, He. repeat split.
Qed.

(** With the credential ["env-key"]: ["gpt-5"] is rejected with
    [InvalidParams] by both tools, and nothing is sent. *)
Lemma model_default_and_rejection_witness :
  let E := Demo.env (Some "env-key") (Demo.always (Ok Demo.textOnly)) in
  let w := Demo.ready Demo.disk in
  generateImage E (mkGenerateArgs "a cat" (Some "gpt-5")) w
  = (Throw (UNSUPPORTED_MODEL "gpt-5"), w)
  /\ editImage E (mkEditArgs "cat.png" "a hat" None (Some "gpt-5")) w
     = (Throw (UNSUPPORTED_MODEL "gpt-5"), w)
  /\ calls (snd (generateImage E (mkGenerateArgs "a cat" (Some "gpt-5")) w)) = [].
Proof.
  cbv zeta.
  pose proof (proj2 (proj2 (model_default_and_rejection
                              (Demo.env (Some "env-key") (Demo.always (Ok Demo.textOnly)))
                              (Demo.ready Demo.disk)))
                    "gpt-5" eq_refl eq_refl "cat.png" "a hat" None) as H.
  cbv zeta in H. destruct H as [_ [He _]].
  pose proof (proj2 (proj2 (model_default_and_rejection
                              (Demo.env (Some "env-key") (Demo.always (Ok Demo.textOnly)))
                              (Demo.ready Demo.disk)))
                    "gpt-5" eq_refl eq_refl "cat.png" "a cat" None) as H.
  cbv zeta in H. destruct H as [Hg [_ [Hc _]]].
  split; [exact Hg|]. split; [exact He|exact Hc].
Defined.

(** * Credential resolution at startup *)

Lemma truthy_nonempty s : Js.truthy s = true <-> s <> "".
Proof.
  unfold Js.truthy. destruct (String.eqb_spec s ""); simpl; split; congruence.
Qed.

Lemma schema_accepts_nonempty k :
  Js.truthy k = true ->
  ConfigSchema_parse (JObject [("geminiApiKey", JString k)]) = Ok (mkConfig k).
Proof.
  intros H. destruct k as [|c k]; [discriminate|]. reflexivity.
Qed.

Lemma schema_rejects_empty :
  ConfigSchema_parse (JObject [("geminiApiKey", JString "")])
  = Throw (ZodError ["Gemini API key is required"]).
Proof. reflexivity. Qed.

Section Startup.

Variable E : Env.

Lemma loadConfigFile_spec w :
  loadConfigFile E w =
  match configRecord E (fs w) with
  | Some c => (Ok tt, activate c config_file w)
  | None => (Ok tt, set_configSource not_configured w)
  end.
Proof.
  unfold loadConfigFile, configRecord, fs_readFile. unfold_monad.
  destruct (Fs.readFile _ _ _) as [text|e]; [|reflexivity].
  destruct (JSON_parse E text) as [j|]; [|reflexivity].
  destruct (ConfigSchema_parse j) as [c|e]; reflexivity.
Qed.

Lemma loadConfig_env w k :
  GEMINI_API_KEY E = Some k -> Js.truthy k = true ->
  loadConfig E w = (Ok tt, activate (mkConfig k) environment w).
Proof.
  intros Hk Ht. unfold loadConfig. rewrite Hk, Ht. unfold_monad.
  now rewrite (schema_accepts_nonempty k Ht).
Qed.

Lemma loadConfig_no_env w :
  GEMINI_API_KEY E = None \/ GEMINI_API_KEY E = Some "" ->
  loadConfig E w = loadConfigFile E w.
Proof. intros [H|H]; unfold loadConfig; now rewrite H. Qed.

End Startup.

(** C3.  At startup, on any files [m]: a non-empty environment key is
    always the one selected, with the source label [environment], and
    the outcome is the same on every other set of files [m'] (the config
    file, whatever its content or age, has no say); when the variable is
    absent or empty the config file decides: its key with the label
    [config_file] when it can be read, parsed and passes the schema, and
    otherwise no credential with the label [not_configured].  So
    [not_configured] is reported exactly when the variable is absent or
    empty and the config record is absent, unreadable or invalid. *)
Theorem credential_resolution_order (E : Env) (m : FsMap) :
  let w := run E m in
  (forall k, GEMINI_API_KEY E = Some k -> k <> "" ->
     credential w = (Some (mkConfig k), Some (mkClient k), environment)
     /\ forall m', credential (run E m') = credential w)
  /\ (GEMINI_API_KEY E = None \/ GEMINI_API_KEY E = Some "" ->
      match configRecord E m with
      | Some c => credential w = (Some c, Some (mkClient (geminiApiKey c)), config_file)
      | None => credential w = (None, None, not_configured)
      end)
  /\ (configSource w = not_configured <->
      (GEMINI_API_KEY E = None \/ GEMINI_API_KEY E = Some "") /\ configRecord E m = None)
  /\ (configRecord E m = None <->
      (exists e, Fs.readFile m (cwd E) (getConfigPath E) = Fail e)
      \/ (exists text, Fs.readFile m (cwd E) (getConfigPath E) = Done text
                       /\ JSON_parse E text = None)
      \/ (exists text j e, Fs.readFile m (cwd E) (getConfigPath E) = Done text
                           /\ JSON_parse E text = Some j
                           /\ ConfigSchema_parse j = Throw e)).
Proof.
  cbv zeta. unfold run.
  assert (Henv : forall k m0, GEMINI_API_KEY E = Some k -> k <> "" ->
                 credential (snd (loadConfig E (fresh m0)))
                 = (Some (mkConfig k), Some (mkClient k), environment)).
  { intros k m0 Hk Hne. apply truthy_nonempty in Hne.
    now rewrite (loadConfig_env E (fresh m0) k Hk Hne). }
  assert (Hfile : GEMINI_API_KEY E = None \/ GEMINI_API_KEY E = Some "" ->
                  match configRecord E m with
                  | Some c => credential (snd (loadConfig E (fresh m)))
                              = (Some c, Some (mkClient (geminiApiKey c)), config_file)
                  | None => credential (snd (loadConfig E (fresh m)))
                            = (None, None, not_configured)
                  end).
  { intros H. rewrite (loadConfig_no_env E (fresh m) H), loadConfigFile_spec.
    change (fs (fresh m)) with m. destruct (configRecord E m); reflexivity. }
  split; [|split; [|split]].
  - intros k Hk Hne. split; [now apply Henv|].
    intros m'. now rewrite !(Henv k _ Hk Hne).
  - exact Hfile.
  - split.
    + intros Hs.
      destruct (GEMINI_API_KEY E) as [k|] eqn:Hk.
      * destruct (String.eqb_spec k "") as [->|Hne].
        -- specialize (Hfile (or_intror eq_refl)).
           destruct (configRecord E m); [|split; [now right|reflexivity]].
           unfold credential in Hfile. congruence.
        -- specialize (Henv k m eq_refl Hne). unfold credential in Henv. congruence.
      * specialize (Hfile (or_introl eq_refl)).
        destruct (configRecord E m); [|split; [now left|reflexivity]].
        unfold credential in Hfile. congruence.
    + intros [Hk Hr]. specialize (Hfile Hk). rewrite Hr in Hfile.
      unfold credential in Hfile. congruence.
  - unfold configRecord.
    destruct (Fs.readFile _ _ _) as [text|e].
    + destruct (JSON_parse E text) as [j|] eqn:Hj.
      * destruct (ConfigSchema_parse j) as [c|e] eqn:Hc.
        -- split; [discriminate|].
           intros [[e He]|[[t [Ht Hn]]|[t [j' [e [Ht [Hj' He]]]]]]]; congruence.
        -- split; [|reflexivity]. intros _. right; right. now exists text, j, e.
      * split; [|reflexivity]. intros _. right; left. now exists text.
    + split; [|reflexivity]. intros _. left. now exists e.
Qed.

(** On the demo disk, whose config file holds ["file-key"]: with the
    variable set to ["env-key"] the environment wins; with the variable
    unset the file wins; with neither, nothing is configured. *)
Lemma credential_resolution_order_witness :
  let provider := Demo.always (Ok Demo.textOnly) in
  credential (run (Demo.env (Some "env-key") provider) Demo.disk)
  = (Some (mkConfig "env-key"), Some (mkClient "env-key"), environment)
  /\ credential (run (Demo.env None provider) Demo.disk)
     = (Some (mkConfig "file-key"), Some (mkClient "file-key"), config_file)
  /\ credential (run (Demo.env (Some "") provider) Demo.noConfigSlot)
     = (None, None, not_configured).
Proof.
  cbv zeta. split; [|split].
  - apply (proj1 (credential_resolution_order
                    (Demo.env (Some "env-key") (Demo.always (Ok Demo.textOnly))) Demo.disk)
                 "env-key" eq_refl).
    discriminate.
  - exact (proj1 (proj2 (credential_resolution_order
                           (Demo.env None (Demo.always (Ok Demo.textOnly))) Demo.disk))
                 (or_introl eq_refl)).
  - exact (proj1 (proj2 (credential_resolution_order
                           (Demo.env (Some "") (Demo.always (Ok Demo.textOnly)))
                           Demo.noConfigSlot))
                 (or_intror eq_refl)).
Defined.

(** * What each method leaves alone *)

Ltac keeps_step :=
  match goal with
  | |- keeps _ (bind _ _) => apply keeps_bind; [|intros ?]
  | |- keeps _ (try_catch _ _) => apply keeps_try_catch; [|intros ?]
  | |- keeps _ (ret _) => apply keeps_ret
  | |- keeps _ (throw _) => apply keeps_throw
  | |- keeps _ (lift _) => apply keeps_lift
  | |- keeps _ (gets _) => apply keeps_gets
  | |- keeps _ (modify _) => apply keeps_modify; intros; auto
  | |- keeps _ (fs_stat _ _) => apply readonly_keeps, readonly_fs_stat
  | |- keeps _ (fs_access _ _) => apply readonly_keeps, readonly_fs_access
  | |- keeps _ (fs_readFile _ _) => apply readonly_keeps, readonly_fs_readFile
  | |- keeps _ (validateImagePath _ _) => apply readonly_keeps, readonly_validateImagePath
  | |- keeps _ (loadReferences _ _ _ _) => apply readonly_keeps, readonly_loadReferences
  | |- keeps _ (if ?b then _ else _) => destruct b
  | |- keeps _ (match ?x with _ => _ end) => destruct x
  end.

Ltac keeps_auto := unfold mbind, M_bind, mret, M_ret, ensureConfigured; repeat keeps_step.


Section OperationFrames.

Context {B : Type} (f : World -> B).
Variable E : Env.

Hypothesis f_fs : forall m w, f (set_fs m w) = f w.
Hypothesis f_tick : forall w, f (tick w) = f w.

Lemma keeps_fs_writeFile p c : keeps f (fs_writeFile E p c).
Proof.
  intros w. unfold fs_writeFile. destruct (Fs.writeFile _ _ _ _ _); simpl; auto.
Qed.

Lemma keeps_fs_mkdir p : keeps f (fs_mkdir E p).
Proof.
  intros w. unfold fs_mkdir. destruct (Fs.mkdir_recursive _ _ _ _); simpl; auto.
Qed.

Lemma keeps_saveImage dir prefix d : keeps f (saveImage E dir prefix d).
Proof.
  unfold saveImage. keeps_auto. apply keeps_fs_writeFile.
Qed.

(** A part without image data touches neither the disk nor the session. *)
Lemma readonly_processPart_text dir prefix l part :
  imageData part = None -> readonly (processPart E dir prefix l part).
Proof. intros H w. unfold processPart. now rewrite H. Qed.

Lemma keeps_saveConfig : keeps f (saveConfig E).
Proof. unfold saveConfig. keeps_auto. apply keeps_fs_writeFile. Qed.

Hypothesis f_last : forall p w, f (set_lastImagePath p w) = f w.

Lemma keeps_processPart dir prefix l part : keeps f (processPart E dir prefix l part).
Proof.
  unfold processPart. keeps_auto. apply keeps_saveImage.
Qed.

Lemma keeps_forParts dir prefix ps : forall l, keeps f (forParts E dir prefix ps l).
Proof.
  induction ps as [|p ps IH]; intros l; simpl.
  - apply keeps_ret.
  - keeps_auto; [apply keeps_processPart | apply IH].
Qed.

Lemma keeps_reassemble response prefix : keeps f (reassemble E response prefix).
Proof.
  unfold reassemble. keeps_auto; [apply keeps_fs_mkdir | apply keeps_forParts].
Qed.

Lemma keeps_buildImageResponse response prefix prompt warnings :
  keeps f (buildImageResponse E response prefix prompt warnings).
Proof.
  unfold buildImageResponse. keeps_auto. apply keeps_reassemble.
Qed.

Hypothesis f_log : forall c w, f (log_call c w) = f w.

Lemma keeps_models_generateContent params : keeps f (models_generateContent E params).
Proof.
  intros w. unfold models_generateContent. destruct (genAI w); simpl; auto.
Qed.

Lemma keeps_generateImage a : keeps f (generateImage E a).
Proof.
  unfold generateImage. keeps_auto;
    [apply keeps_models_generateContent | apply keeps_buildImageResponse].
Qed.

Lemma keeps_editImage a : keeps f (editImage E a).
Proof.
  unfold editImage. keeps_auto;
    try apply keeps_models_generateContent; apply keeps_buildImageResponse.
Qed.

Lemma keeps_continueEditing a : keeps f (continueEditing E a).
Proof.
  unfold continueEditing. keeps_auto. apply keeps_editImage.
Qed.

Lemma keeps_getLastImageInfo : keeps f (getLastImageInfo E).
Proof. unfold getLastImageInfo. keeps_auto. Qed.

Lemma keeps_getConfigurationStatus : keeps f getConfigurationStatus.
Proof. unfold getConfigurationStatus. keeps_auto. Qed.

End OperationFrames.

(** * The configure tool *)

Section Configure.

Variable E : Env.

Lemma configureGeminiToken_empty w :
  configureGeminiToken E "" w
  = (Throw (McpError InvalidParams "Invalid API key: Gemini API key is required"), w).
Proof. reflexivity. Qed.

(** With a non-empty key the credential is activated in memory first,
    and the file is written after. *)
Lemma configureGeminiToken_nonempty key w :
  Js.truthy key = true ->
  let w1 := activate (mkConfig key) config_file w in
  configureGeminiToken E key w =
  match Fs.writeFile (fs w) (cwd E) (getConfigPath E)
                     (JSON_stringify E (config_json (mkConfig key)))
                     (localeTime E (ticks w)) with
  | Done m => (Ok (mkResult [TextItem CONFIGURED_TEXT]), set_fs m w1)
  | Fail e => (Throw (Error (Fs.error_message e "open" (getConfigPath E))), w1)
  end.
Proof.
  intros Ht. cbv zeta. unfold configureGeminiToken. unfold_monad.
  rewrite (schema_accepts_nonempty key Ht). unfold saveConfig, fs_writeFile. unfold_monad.
  cbn [config set_config set_genAI set_configSource fs ticks].
  destruct (Fs.writeFile _ _ _ _ _); reflexivity.
Qed.

Lemma callTool_world r w : snd (callTool E r w) = snd (dispatch E r w).
Proof.
  unfold callTool, try_catch. destruct (dispatch E r w) as [[a|e] w']; [reflexivity|].
  destruct (isMcpError e); reflexivity.
Qed.

End Configure.

(** C6, as stated, fails: the configure tool replaces the credential
    and its label after startup.  The process starts with the
    environment key ["env-key"]; one call of [configure_gemini_token]
    later the active key is ["other-key"] and the label reads
    [config_file]. *)
Lemma configure_replaces_startup_credential :
  let E := Demo.env (Some "env-key") (Demo.always (Ok Demo.textOnly)) in
  let w0 := run E Demo.disk in
  let r := callTool E (configure_gemini_token "other-key") w0 in
  credential w0 = (Some (mkConfig "env-key"), Some (mkClient "env-key"), environment)
  /\ fst r = Ok (mkResult [TextItem CONFIGURED_TEXT])
  /\ credential (snd r)
     = (Some (mkConfig "other-key"), Some (mkClient "other-key"), config_file).
Proof. cbv zeta. split; [|split]; vm_compute; reflexivity. Qed.

(** C6, amended.  Whatever the request, the handler changes the
    credential state in one case only: [configure_gemini_token] with a
    non-empty key, after which that key is active with the label
    [config_file] (whether or not the config file could be written).
    Every other request, and [configure_gemini_token] with an empty key,
    leaves the active credential and its label as they were. *)
Theorem credential_changed_only_by_configure (E : Env) (r : ToolRequest) (w : World) :
  let w' := snd (callTool E r w) in
  match r with
  | configure_gemini_token key =>
      if Js.truthy key
      then credential w' = (Some (mkConfig key), Some (mkClient key), config_file)
      else credential w' = credential w
  | _ => credential w' = credential w
  end.
Proof.
  cbv zeta. rewrite callTool_world.
  destruct r as [key|a|a| |a| |name]; cbn [dispatch].
  - destruct (Js.truthy key) eqn:Ht.
    + rewrite (configureGeminiToken_nonempty E key w Ht).
      destruct (Fs.writeFile _ _ _ _ _); reflexivity.
    + destruct key; [reflexivity | discriminate].
  - now apply (keeps_generateImage credential).
  - now apply (keeps_editImage credential).
  - now apply (keeps_getConfigurationStatus credential).
  - now apply (keeps_continueEditing credential).
  - now apply (keeps_getLastImageInfo credential).
  - reflexivity.
Qed.

(** * Files: a written file can be read back *)

Section WriteThenRead.

Variable m : FsMap.
Variable target : list string.
Variable f : Inode.

(** Nothing that was a directory is replaced. *)
Hypothesis target_free : forall i, m !! target = Some i -> isDirectory i = false.

Lemma as_dir_insert at_ :
  Fs.as_dir m at_ = Done tt -> Fs.as_dir (<[target := f]> m) at_ = Done tt.
Proof.
  unfold Fs.as_dir, Fs.inode_at. destruct at_ as [|s r]; [trivial|].
  destruct (m !! (s :: r)) as [i|] eqn:Hi; [|discriminate].
  destruct (isDirectory i) eqn:Hd; [|discriminate]. intros _.
  rewrite lookup_insert_ne, Hi, Hd; [reflexivity|].
  intros ->. specialize (target_free i Hi). congruence.
Qed.

Lemma walk_insert segs : forall at_ dir,
  Fs.walk m at_ segs = Done dir -> Fs.walk (<[target := f]> m) at_ segs = Done dir.
Proof.
  induction segs as [|s segs IH]; intros at_ dir H; [exact H|].
  cbn [Fs.walk] in *. destruct (Fs.as_dir m at_) as [[]|e] eqn:Ha; [|discriminate].
  rewrite (as_dir_insert at_ Ha). now apply IH.
Qed.

End WriteThenRead.

Lemma walk_app m segs1 segs2 : forall at_,
  Fs.walk m at_ (segs1 ++ segs2) =
  match Fs.walk m at_ segs1 with
  | Done d => Fs.walk m d segs2
  | Fail e => Fail e
  end.
Proof.
  induction segs1 as [|s segs1 IH]; intros at_; [reflexivity|].
  cbn [app Fs.walk]. destruct (Fs.as_dir m at_); [apply IH | reflexivity].
Qed.

Lemma split_go_nonempty cur s : Path.split_go cur s <> [].
Proof.
  revert cur. induction s as [|c s IH]; intros cur; cbn [Path.split_go]; [discriminate|].
  destruct (Ascii.eqb c "/"); [discriminate | apply IH].
Qed.

Lemma enter_proper dir name :
  Fs.proper_name name = true -> Fs.enter dir name = (dir ++ [name])%list.
Proof.
  unfold Fs.proper_name, Fs.enter. intros H. apply negb_true_iff in H.
  apply orb_false_iff in H as [H1 H3]. now rewrite H1, H3.
Qed.

Lemma writeFile_readFile m cwd0 p content stamp m' :
  Fs.writeFile m cwd0 p content stamp = Done m' ->
  Fs.readFile m' cwd0 p = Done content.
Proof.
  unfold Fs.writeFile, Fs.readFile, Fs.lookup.
  destruct (String.eqb p ""); [discriminate|].
  destruct (Fs.walk m (Fs.start cwd0 p) (removelast (Path.split p))) as [dir|e] eqn:Hw;
    [|discriminate].
  destruct (Fs.as_dir m dir) as [[]|e] eqn:Ha; [|discriminate].
  destruct (Fs.proper_name (List.last (Path.split p) "")) eqn:Hn; [|discriminate].
  set (name := List.last (Path.split p) "") in *.
  set (file := mkInode false (Z.of_nat (String.length content)) content stamp).
  intros H.
  assert (Hm : m' = <[(dir ++ [name])%list := file]> m
               /\ forall i, m !! (dir ++ [name])%list = Some i -> isDirectory i = false).
  { destruct (m !! (dir ++ [name])%list) as [i|] eqn:Hi.
    - destruct (isDirectory i) eqn:Hd; [discriminate|].
      injection H as <-. split; [reflexivity|]. intros j Hj. congruence.
    - injection H as <-. split; [reflexivity|]. intros j Hj. discriminate. }
  destruct Hm as [-> Hnd].
  assert (Hs : Path.split p = (removelast (Path.split p) ++ [name])%list).
  { apply app_removelast_last. apply split_go_nonempty. }
  rewrite Hs at 1. rewrite walk_app.
  rewrite (walk_insert m _ file Hnd _ _ _ Hw).
  cbn [Fs.walk]. rewrite (as_dir_insert m _ file Hnd dir Ha).
  rewrite (enter_proper dir name Hn).
  assert (Hl : Fs.inode_at (<[(dir ++ [name])%list := file]> m) (dir ++ [name])%list
               = Some file).
  { unfold Fs.inode_at. destruct dir; cbn [app]; apply lookup_insert_eq. }
  now rewrite Hl.
Qed.

(** * Response reassembly *)

Lemma append_assoc (a b c : string) : (a +:+ b) +:+ c = a +:+ (b +:+ c).
Proof.
  induction a as [|x a IH]; [reflexivity|].
  change (String x ((a +:+ b) +:+ c) = String x (a +:+ (b +:+ c))). now rewrite IH.
Qed.

Lemma append_empty_r (a : string) : a +:+ "" = a.
Proof.
  induction a as [|x a IH]; [reflexivity|].
  change (String x (a +:+ "") = String x a). now rewrite IH.
Qed.

Lemma latest_cons old p paths : latest (Some p) paths = latest old (p :: paths).
Proof. unfold latest. rewrite last_cons. now destruct (last paths). Qed.

(** A part's own text is what the loop appends, also when the part has
    no text or an empty one. *)
Lemma text_step (l : Locals) (p : Part) :
  textContent (if Js.truthy_opt (part_text p)
               then mkLocals (loc_content l) (savedFiles l) (textContent l +:+ partText p)
               else l)
  = textContent l +:+ partText p.
Proof.
  unfold partText, Js.truthy_opt. destruct (part_text p) as [t|]; simpl.
  - destruct t; simpl; [now rewrite append_empty_r | reflexivity].
  - now rewrite append_empty_r.
Qed.

Lemma text_step_content (l : Locals) (p : Part) :
  loc_content (if Js.truthy_opt (part_text p)
               then mkLocals (loc_content l) (savedFiles l) (textContent l +:+ partText p)
               else l)
  = loc_content l.
Proof. now destruct (Js.truthy_opt _). Qed.

Lemma text_step_saved (l : Locals) (p : Part) :
  savedFiles (if Js.truthy_opt (part_text p)
              then mkLocals (loc_content l) (savedFiles l) (textContent l +:+ partText p)
              else l)
  = savedFiles l.
Proof. now destruct (Js.truthy_opt _). Qed.

Lemma imageDatas_cons p ps :
  imageDatas (p :: ps) =
  match imageData p with Some d => d :: imageDatas ps | None => imageDatas ps end.
Proof. unfold imageDatas. cbn [omap list_omap]. now destruct (imageData p). Qed.

Lemma imageItems_cons p ps :
  imageItems (p :: ps) =
  match imageData p with
  | Some d => ImageItem d (imageMime p) :: imageItems ps
  | None => imageItems ps
  end.
Proof. unfold imageItems. cbn [omap list_omap]. now destruct (imageData p). Qed.

Lemma imageItems_length ps : length (imageItems ps) = length (imageDatas ps).
Proof.
  induction ps as [|p ps IH]; [reflexivity|].
  rewrite imageItems_cons, imageDatas_cons. destruct (imageData p); cbn [length]; now rewrite IH.
Qed.

Lemma imageItems_none ps : imageDatas ps = [] -> imageItems ps = [].
Proof.
  intros H. apply length_zero_iff_nil. now rewrite imageItems_length, H.
Qed.

Section Reassembly.

Variable E : Env.
Variable prefix : string.

Lemma saveImage_spec d w :
  saveImage E (getImagesDirectory E) prefix d w =
  match Fs.writeFile (fs w) (cwd E) (imagePathAt E prefix (ticks w)) (from_base64 E d)
                     (localeTime E (S (ticks w))) with
  | Done m => (Ok (mkSaved (imagePathAt E prefix (ticks w)) d "image/png"),
               set_fs m (tick w))
  | Fail e => (Throw (Error (Fs.error_message e "open" (imagePathAt E prefix (ticks w)))),
               tick w)
  end.
Proof.
  unfold saveImage, fs_writeFile. unfold_monad.
  cbn [fs ticks tick]. fold (imagePathAt E prefix (ticks w)).
  destruct (Fs.writeFile _ _ _ _ _); reflexivity.
Qed.

Lemma processPart_text l p w :
  imageData p = None ->
  processPart E (getImagesDirectory E) prefix l p w =
  (Ok (mkLocals (loc_content l) (savedFiles l) (textContent l +:+ partText p)), w).
Proof.
  intros H. unfold processPart. rewrite H. unfold ret. f_equal. f_equal.
  pose proof (text_step l p) as Ht. pose proof (text_step_content l p) as Hc.
  pose proof (text_step_saved l p) as Hs.
  destruct (if Js.truthy_opt (part_text p) then _ else l) as [c s t].
  simpl in *. now subst.
Qed.

Lemma processPart_image l p d w :
  imageData p = Some d ->
  processPart E (getImagesDirectory E) prefix l p w =
  match Fs.writeFile (fs w) (cwd E) (imagePathAt E prefix (ticks w)) (from_base64 E d)
                     (localeTime E (S (ticks w))) with
  | Done m =>
      (Ok (mkLocals (loc_content l ++ [ImageItem d (imageMime p)])%list
                    (savedFiles l ++ [imagePathAt E prefix (ticks w)])%list
                    (textContent l +:+ partText p)),
       set_lastImagePath (Some (imagePathAt E prefix (ticks w))) (set_fs m (tick w)))
  | Fail e => (Throw (Error (Fs.error_message e "open" (imagePathAt E prefix (ticks w)))),
               tick w)
  end.
Proof.
  intros H. unfold processPart. rewrite H. unfold_monad. rewrite saveImage_spec.
  destruct (Fs.writeFile _ _ _ _ _); [|reflexivity].
  cbn [filePath]. now rewrite text_step, text_step_content, text_step_saved.
Qed.

(** The loop, when every write goes through. *)
Lemma forParts_written ps : forall l w m',
  writeImages E prefix (ticks w) (imageDatas ps) (fs w) = Done m' ->
  forParts E (getImagesDirectory E) prefix ps l w =
  (Ok (mkLocals (loc_content l ++ imageItems ps)%list
                (savedFiles l ++ imagePaths E prefix (ticks w) (length (imageDatas ps)))%list
                (textContent l +:+ textOf ps)),
   afterImages E prefix (length (imageDatas ps)) m' w).
Proof.
  induction ps as [|p ps IH]; intros l w m' Hw.
  - simpl in *. injection Hw as <-. unfold ret, afterImages, imagePaths, latest. simpl.
    rewrite !app_nil_r, append_empty_r, Nat.add_0_r. destruct l; destruct w; reflexivity.
  - cbn [forParts textOf]. unfold mbind, M_bind, bind.
    rewrite imageDatas_cons, imageItems_cons in *.
    destruct (imageData p) as [d|] eqn:Hd.
    + rewrite (processPart_image l p d w Hd).
      cbn [writeImages] in Hw.
      destruct (Fs.writeFile _ _ _ _ _) as [m1|e]; [|discriminate].
      rewrite (IH _ (set_lastImagePath (Some (imagePathAt E prefix (ticks w)))
                                       (set_fs m1 (tick w))) m' Hw).
      cbn [loc_content savedFiles textContent].
      unfold afterImages, imagePaths. cbn [length seq map].
      cbn [config genAI lastImagePath configSource calls ticks
           set_lastImagePath set_fs tick fs].
      rewrite <- !app_assoc, append_assoc. cbn [app].
      rewrite (latest_cons (lastImagePath w)).
      now rewrite Nat.add_succ_r.
    + rewrite (processPart_text l p w Hd).
      rewrite (IH _ _ m' Hw). cbn [loc_content savedFiles textContent].
      now rewrite append_assoc.
Qed.

(** The loop, when a write fails: the call throws. *)
Lemma forParts_write_fails ps : forall l w e,
  writeImages E prefix (ticks w) (imageDatas ps) (fs w) = Fail e ->
  exists x w', forParts E (getImagesDirectory E) prefix ps l w = (Throw x, w').
Proof.
  induction ps as [|p ps IH]; intros l w e Hw.
  - discriminate.
  - cbn [forParts]. unfold mbind, M_bind, bind.
    rewrite imageDatas_cons in Hw.
    destruct (imageData p) as [d|] eqn:Hd.
    + rewrite (processPart_image l p d w Hd). cbn [writeImages] in Hw.
      destruct (Fs.writeFile _ _ _ _ _) as [m1|e1]; [|eauto].
      apply (IH _ (set_lastImagePath (Some (imagePathAt E prefix (ticks w)))
                                     (set_fs m1 (tick w))) e Hw).
    + rewrite (processPart_text l p w Hd). eapply IH. exact Hw.
Qed.

End Reassembly.

(** The last image written can be read back, and holds the last payload
    decoded. *)
Lemma writeImages_last_readable (E : Env) (prefix : string) ds : forall n m m2 p d,
  writeImages E prefix n ds m = Done m2 ->
  last (imagePaths E prefix n (length ds)) = Some p ->
  last ds = Some d ->
  Fs.readFile m2 (cwd E) p = Done (from_base64 E d).
Proof.
  induction ds as [|d1 ds IH]; intros n m m2 p d Hw Hp Hd; [discriminate|].
  cbn [writeImages] in Hw.
  destruct (Fs.writeFile _ _ _ _ _) as [m1|e] eqn:Hw1; [|discriminate].
  destruct ds as [|d2 ds].
  - cbn in Hw, Hp, Hd. injection Hw as <-. injection Hp as <-. injection Hd as <-.
    exact (writeFile_readFile _ _ _ _ _ _ Hw1).
  - apply (IH (S n) m1 m2 p d Hw).
    + unfold imagePaths in *. cbn [length seq map] in *.
      now rewrite last_cons_cons in Hp.
    + now rewrite last_cons_cons in Hd.
Qed.

(** * Reference images *)

Section References.

Variable E : Env.

Lemma validateImagePath_world p w :
  validateImagePath E p w = (fst (validateImagePath E p w), w).
Proof.
  pose proof (readonly_validateImagePath E p w) as H.
  destruct (validateImagePath E p w) as [r w']. simpl in *. now subst.
Qed.

Lemma loadReference_outcome p w :
  loadReference E p w = (Ok (referenceOutcome E w p), w).
Proof.
  unfold loadReference, referenceOutcome. unfold_monad.
  rewrite (validateImagePath_world p w).
  destruct (fst (validateImagePath E p w)) as [[]|e]; [|reflexivity].
  unfold fs_readFile, io. destruct (Fs.readFile _ _ _); reflexivity.
Qed.

Lemma loadedParts_cons r refs w :
  loadedParts E w (r :: refs) =
  match referenceOutcome E w r with
  | inl p => p :: loadedParts E w refs
  | inr _ => loadedParts E w refs
  end.
Proof.
  unfold loadedParts. cbn [omap list_omap]. now destruct (referenceOutcome E w r).
Qed.

Lemma referenceWarnings_cons r refs w :
  referenceWarnings E w (r :: refs) =
  match referenceOutcome E w r with
  | inl _ => referenceWarnings E w refs
  | inr s => s :: referenceWarnings E w refs
  end.
Proof.
  unfold referenceWarnings. cbn [omap list_omap]. now destruct (referenceOutcome E w r).
Qed.

Lemma loadReferences_outcome refs w : forall ps ws,
  loadReferences E refs ps ws w =
  (Ok ((ps ++ loadedParts E w refs)%list, (ws ++ referenceWarnings E w refs)%list), w).
Proof.
  induction refs as [|r refs IH]; intros ps ws.
  - cbn. now rewrite !app_nil_r.
  - cbn [loadReferences]. unfold mbind, M_bind, bind.
    rewrite loadReference_outcome, loadedParts_cons, referenceWarnings_cons.
    destruct (referenceOutcome E w r) as [part|warning];
      rewrite IH, <- ?app_assoc; reflexivity.
Qed.

Lemma loadedParts_app w r1 r2 :
  loadedParts E w (r1 ++ r2) = (loadedParts E w r1 ++ loadedParts E w r2)%list.
Proof.
  induction r1 as [|r r1 IH]; [reflexivity|].
  cbn [app]. rewrite !loadedParts_cons, IH. now destruct (referenceOutcome E w r).
Qed.

Lemma referenceWarnings_app w r1 r2 :
  referenceWarnings E w (r1 ++ r2)
  = (referenceWarnings E w r1 ++ referenceWarnings E w r2)%list.
Proof.
  induction r1 as [|r r1 IH]; [reflexivity|].
  cbn [app]. rewrite !referenceWarnings_cons, IH. now destruct (referenceOutcome E w r).
Qed.

(** [editImage] from the point where its three checks have passed. *)
Lemma editImage_checked a w g m :
  configured w = true -> genAI w = Some g ->
  resolveModel (edit_model a) = Ok m ->
  fst (validateImagePath E (imagePath a) w) = Ok tt ->
  editImage E a w =
  match Fs.readFile (fs w) (cwd E) (imagePath a) with
  | Fail e =>
      (Throw (McpError InternalError
                ("Failed to edit image: " +:+ Fs.read_error_message e (imagePath a))), w)
  | Done buf =>
      let params := editRequest E a w m buf in
      let w1 := log_call (g, params) w in
      match generateContent E g params (length (calls w)) with
      | Throw e => (Throw (editCatch e), w1)
      | Ok response =>
          caught editCatch
            (buildImageResponse E response "edited" (edit_prompt a)
                                (referenceWarnings E w (referencesOf a)) w1)
      end
  end.
Proof.
  intros Hc Hg Hm Hv. unfold editImage, ensureConfigured. unfold_monad.
  rewrite Hc. cbv [negb]. rewrite Hm.
  rewrite (validateImagePath_world (imagePath a) w), Hv.
  unfold fs_readFile, io. destruct (Fs.readFile _ _ _) as [buf|e]; [|reflexivity].
  unfold ret. cbv zeta. unfold editRequest, referencesOf.
  destruct (referenceImages a) as [[|r rs]|];
    rewrite ?loadReferences_outcome;
    unfold models_generateContent; rewrite Hg;
    change (loadedParts E w []) with (@nil ContentPart);
    change (referenceWarnings E w []) with (@nil string);
    cbn [app];
    (destruct (generateContent E g _ _) as [response|e];
     [ unfold caught;
       destruct (buildImageResponse E response "edited" _ _ _) as [[res|e] w2];
       [reflexivity | unfold editCatch; destruct (isMcpError e); reflexivity]
     | unfold editCatch; destruct (isMcpError e); reflexivity ]).
Qed.

End References.

Lemma caught_world {A} (h : Exn -> Exn) (r : Res A * World) : snd (caught h r) = snd r.
Proof. now destruct r as [[a|e] w]. Qed.

Lemma calls_after_build (E : Env) response prefix prompt warnings w :
  calls (snd (buildImageResponse E response prefix prompt warnings w)) = calls w.
Proof. now apply (keeps_buildImageResponse calls). Qed.

(** C2, as stated, fails for a primary image that passes validation
    and cannot be read.  A directory named [folder.gif] has an allowed
    extension and a size under the cap; [sub/../cat.png] resolves to a
    file that is there while the path as given leads through a
    directory that is not.  Both pass validation.  Reading either one
    fails, the edit fails, and nothing is sent, though the one
    reference of the call could have been loaded. *)
Lemma editImage_unreadable_primary :
  let E := Demo.env (Some "env-key") (Demo.always (Ok Demo.textOnly)) in
  let w := Demo.ready Demo.disk in
  let a := mkEditArgs "folder.gif" "add a hat" (Some ["edge.PNG"]) None in
  let b := mkEditArgs "sub/../cat.png" "add a hat" (Some ["edge.PNG"]) None in
  loadedParts E w ["edge.PNG"] = [ImagePart "b64:EDGE" "image/png"]
  /\ (fst (validateImagePath E "folder.gif" w) = Ok tt
      /\ fst (editImage E a w)
         = Throw (McpError InternalError
                    "Failed to edit image: EISDIR: illegal operation on a directory, read")
      /\ calls (snd (editImage E a w)) = [])
  /\ (fst (validateImagePath E "sub/../cat.png" w) = Ok tt
      /\ fst (editImage E b w)
         = Throw (McpError InternalError
                    "Failed to edit image: ENOENT: no such file or directory, open 'sub/../cat.png'")
      /\ calls (snd (editImage E b w)) = []).
Proof. cbv zeta. repeat split; vm_compute; reflexivity. Qed.

(** C2, amended.  Take an [editImage] call that is configured, names a
    supported model and whose primary image passes validation.  Each
    reference is judged on its own: it yields exactly one image part
    (its base64 content and the mime type of its extension) when it
    passes validation and can be read, and exactly one warning
    [Skipped reference image "<path>": <reason>] and no part
    otherwise; the parts and the warnings of a list of references are
    those of its members, in input order, and that is what the loop of
    the method computes, without throwing.  If the primary image can be
    read, exactly one request is sent, whatever happened to the
    references, and its parts are: the primary image, then the loaded
    references in input order, then the prompt text; the response is
    reassembled with exactly those warnings.  If the primary image
    cannot be read after all, nothing is sent. *)
Theorem editImage_request_parts (E : Env) (a : EditArgs) (w : World)
        (g : GoogleGenAI) (m : string) :
  configured w = true -> genAI w = Some g ->
  resolveModel (edit_model a) = Ok m ->
  fst (validateImagePath E (imagePath a) w) = Ok tt ->
  let refs := referencesOf a in
  (forall r,
      match fst (validateImagePath E r w), Fs.readFile (fs w) (cwd E) r with
      | Ok _, Done buf =>
          loadedParts E w [r] = [ImagePart (to_base64 E buf) (getMimeType r)]
          /\ referenceWarnings E w [r] = []
      | Ok _, Fail e =>
          loadedParts E w [r] = []
          /\ referenceWarnings E w [r]
             = ["Skipped reference image " +:+ dq +:+ r +:+ dq +:+ ": "
                +:+ Fs.read_error_message e r]
      | Throw e, _ =>
          loadedParts E w [r] = []
          /\ referenceWarnings E w [r]
             = ["Skipped reference image " +:+ dq +:+ r +:+ dq +:+ ": " +:+ message e]
      end)
  /\ (forall r1 r2,
         loadedParts E w (r1 ++ r2) = (loadedParts E w r1 ++ loadedParts E w r2)%list
         /\ referenceWarnings E w (r1 ++ r2)
            = (referenceWarnings E w r1 ++ referenceWarnings E w r2)%list)
  /\ (forall ps ws,
         loadReferences E refs ps ws w
         = (Ok ((ps ++ loadedParts E w refs)%list,
                (ws ++ referenceWarnings E w refs)%list), w))
  /\ match Fs.readFile (fs w) (cwd E) (imagePath a) with
     | Done buf =>
         let request :=
           mkParams m (Parts (ImagePart (to_base64 E buf) (getMimeType (imagePath a))
                              :: loadedParts E w refs ++ [TextPart (edit_prompt a)])%list) in
         calls (snd (editImage E a w)) = (calls w ++ [(g, request)])%list
         /\ forall response,
             generateContent E g request (length (calls w)) = Ok response ->
             editImage E a w
             = caught editCatch
                 (buildImageResponse E response "edited" (edit_prompt a)
                                     (referenceWarnings E w refs) (log_call (g, request) w))
     | Fail e =>
         editImage E a w
         = (Throw (McpError InternalError
                     ("Failed to edit image: " +:+ Fs.read_error_message e (imagePath a))),
            w)
     end.
Proof.
  intros Hc Hg Hm Hv. cbv zeta. split; [|split; [|split]].
  - intros r. unfold loadedParts, referenceWarnings. cbn [omap list_omap].
    unfold referenceOutcome.
    destruct (fst (validateImagePath E r w)) as [u|e].
    + destruct (Fs.readFile _ _ _); split; reflexivity.
    + split; reflexivity.
  - intros r1 r2. split; [apply loadedParts_app | apply referenceWarnings_app].
  - intros ps ws. apply loadReferences_outcome.
  - rewrite (editImage_checked E a w g m Hc Hg Hm Hv).
    destruct (Fs.readFile _ _ _) as [buf|e]; [|reflexivity].
    cbv zeta. fold (editRequest E a w m buf). split.
    + destruct (generateContent E g _ _) as [response|e]; [|reflexivity].
      now rewrite caught_world, calls_after_build.
    + intros response Hr. now rewrite Hr.
Qed.

(** On the demo disk, editing [cat.png] with four references: one
    missing, one a byte too large, one fine, and one a directory that
    passes validation but cannot be read.  One request goes out, with
    the primary image, the one good reference and the prompt; the three
    others are the three warnings. *)
Lemma editImage_request_parts_witness :
  let E := Demo.env (Some "env-key") (Demo.always (Ok Demo.textOnly)) in
  let w := Demo.ready Demo.disk in
  let refs := ["nowhere.png"; "over.png"; "edge.PNG"; "folder.gif"] in
  let a := mkEditArgs "cat.png" "add a hat" (Some refs) None in
  calls (snd (editImage E a w))
  = [(mkClient "env-key",
      mkParams "gemini-2.5-flash-image"
               (Parts [ImagePart "b64:CAT" "image/png";
                       ImagePart "b64:EDGE" "image/png";
                       TextPart "add a hat"]))]
  /\ referenceWarnings E w refs
     = [ "Skipped reference image " +:+ dq +:+ "nowhere.png" +:+ dq
         +:+ ": MCP error -32602: Image file not found: nowhere.png";
         "Skipped reference image " +:+ dq +:+ "over.png" +:+ dq
         +:+ ": MCP error -32602: Image file too large (20MB). Maximum: 20MB";
         "Skipped reference image " +:+ dq +:+ "folder.gif" +:+ dq
         +:+ ": EISDIR: illegal operation on a directory, read" ].
Proof.
  cbv zeta.
  set (E := Demo.env (Some "env-key") (Demo.always (Ok Demo.textOnly))).
  set (w := Demo.ready Demo.disk).
  set (a := mkEditArgs "cat.png" "add a hat"
                       (Some ["nowhere.png"; "over.png"; "edge.PNG"; "folder.gif"]) None).
  assert (Hv : fst (validateImagePath E (imagePath a) w) = Ok tt)
    by (vm_compute; reflexivity).
  assert (Hr : Fs.readFile (fs w) (cwd E) (imagePath a) = Done "CAT")
    by (vm_compute; reflexivity).
  assert (Hw : referenceWarnings E w ["nowhere.png"; "over.png"; "edge.PNG"; "folder.gif"]
               = [ "Skipped reference image " +:+ dq +:+ "nowhere.png" +:+ dq
                   +:+ ": MCP error -32602: Image file not found: nowhere.png";
                   "Skipped reference image " +:+ dq +:+ "over.png" +:+ dq
                   +:+ ": MCP error -32602: Image file too large (20MB). Maximum: 20MB";
                   "Skipped reference image " +:+ dq +:+ "folder.gif" +:+ dq
                   +:+ ": EISDIR: illegal operation on a directory, read" ])
    by (vm_compute; reflexivity).
  assert (Hp : loadedParts E w ["nowhere.png"; "over.png"; "edge.PNG"; "folder.gif"]
               = [ImagePart "b64:EDGE" "image/png"])
    by (vm_compute; reflexivity).
  pose proof (editImage_request_parts E a w (mkClient "env-key") "gemini-2.5-flash-image"
                eq_refl eq_refl eq_refl Hv) as H.
  cbv zeta in H. destruct H as (_ & _ & _ & H).
  rewrite Hr in H. destruct H as [H _].
  change (referencesOf a) with ["nowhere.png"; "over.png"; "edge.PNG"; "folder.gif"] in H.
  rewrite Hp in H.
  split; [exact H | exact Hw].
Defined.

(** * The shared response builder *)

Section Builder.

Variable E : Env.

Lemma reassemble_unfold response prefix w :
  reassemble E response prefix w =
  match Fs.mkdir_recursive (fs w) (cwd E) (getImagesDirectory E)
                           (localeTime E (ticks w)) with
  | Fail e => (Throw (Error (Fs.error_message e "mkdir" (getImagesDirectory E))), w)
  | Done m1 =>
      forParts E (getImagesDirectory E) prefix (firstParts response)
               (mkLocals [] [] "") (set_fs m1 w)
  end.
Proof.
  unfold reassemble, fs_mkdir, firstParts. unfold_monad.
  destruct (Fs.mkdir_recursive _ _ _ _); [|reflexivity].
  destruct (firstCandidateParts response); reflexivity.
Qed.

(** Only [firstParts] of the response is looked at. *)
Lemma reassemble_first_parts r1 r2 prefix w :
  firstParts r1 = firstParts r2 -> reassemble E r1 prefix w = reassemble E r2 prefix w.
Proof. intros H. rewrite !reassemble_unfold. now rewrite H. Qed.

Lemma buildImageResponse_first_parts r1 r2 prefix prompt warnings w :
  firstParts r1 = firstParts r2 ->
  buildImageResponse E r1 prefix prompt warnings w
  = buildImageResponse E r2 prefix prompt warnings w.
Proof.
  intros H. unfold buildImageResponse. unfold_monad.
  now rewrite (reassemble_first_parts r1 r2 prefix w H).
Qed.

Lemma reassemble_written response prefix w m1 m2 :
  Fs.mkdir_recursive (fs w) (cwd E) (getImagesDirectory E) (localeTime E (ticks w))
  = Done m1 ->
  writeImages E prefix (ticks w) (imageDatas (firstParts response)) m1 = Done m2 ->
  reassemble E response prefix w =
  (Ok (mkLocals (imageItems (firstParts response))
                (imagePaths E prefix (ticks w) (length (imageDatas (firstParts response))))
                (textOf (firstParts response))),
   afterImages E prefix (length (imageDatas (firstParts response))) m2 w).
Proof.
  intros Hd Hw. rewrite reassemble_unfold, Hd.
  now rewrite (forParts_written E prefix (firstParts response) (mkLocals [] [] "")
                 (set_fs m1 w) m2 Hw).
Qed.

Lemma buildImageResponse_unfold response prefix prompt warnings w :
  buildImageResponse E response prefix prompt warnings w =
  match reassemble E response prefix w with
  | (Ok l, w') =>
      (Ok (mkResult (TextItem (statusText prefix prompt warnings l) :: loc_content l)), w')
  | (Throw e, w') => (Throw e, w')
  end.
Proof. reflexivity. Qed.

(** [generateImage] from the point where its two checks have passed. *)
Lemma generateImage_checked a w g m :
  configured w = true -> genAI w = Some g ->
  resolveModel (gen_model a) = Ok m ->
  generateImage E a w =
  let params := mkParams m (Prompt (gen_prompt a)) in
  let w1 := log_call (g, params) w in
  match generateContent E g params (length (calls w)) with
  | Throw e => (Throw (generateCatch e), w1)
  | Ok response =>
      caught generateCatch
        (buildImageResponse E response "generated" (gen_prompt a) [] w1)
  end.
Proof.
  intros Hc Hg Hm. rewrite (generateImage_configured E a w Hc), Hm.
  unfold generateBody, models_generateContent. unfold_monad. rewrite Hg. cbv zeta.
  destruct (generateContent E g _ _) as [response|e]; [|reflexivity].
  unfold caught.
  destruct (buildImageResponse E response "generated" _ _ _) as [[r|e] w2]; reflexivity.
Qed.

End Builder.

(** ** Writes that stop half way *)

Lemma writeProgress_done E prefix ds : forall n m m2,
  writeImages E prefix n ds m = Done m2 ->
  writeProgress E prefix n ds m = mkProgress (length ds) m2 None.
Proof.
  induction ds as [|d ds IH]; intros n m m2 H; cbn [writeImages writeProgress] in *.
  - now injection H as <-.
  - destruct (Fs.writeFile _ _ _ _ _) as [m1|e]; [|discriminate].
    now rewrite (IH _ _ _ H).
Qed.

Lemma writeProgress_fail E prefix ds : forall n m e,
  writeImages E prefix n ds m = Fail e ->
  stopped (writeProgress E prefix n ds m) = Some e
  /\ (written (writeProgress E prefix n ds m) < length ds)%nat.
Proof.
  induction ds as [|d ds IH]; intros n m e H; cbn [writeImages writeProgress] in *;
    [discriminate|].
  destruct (Fs.writeFile _ _ _ _ _) as [m1|e1].
  - destruct (IH _ _ _ H) as [H1 H2]. cbn [stopped written length]. split; [exact H1 | lia].
  - injection H as <-. cbn [stopped written length]. split; [reflexivity | lia].
Qed.

Lemma writeProgress_complete E prefix ds : forall n m,
  stopped (writeProgress E prefix n ds m) = None ->
  written (writeProgress E prefix n ds m) = length ds
  /\ writeImages E prefix n ds m = Done (disk_after (writeProgress E prefix n ds m)).
Proof.
  induction ds as [|d ds IH]; intros n m H; cbn [writeImages writeProgress] in *;
    [now split|].
  destruct (Fs.writeFile _ _ _ _ _) as [m1|e1]; [|discriminate].
  cbn [stopped written disk_after length] in *. destruct (IH _ _ H) as [H1 H2].
  split; [now rewrite H1 | exact H2].
Qed.

(** The images counted as written are the first ones, and the disk is
    the one their writes leave. *)
Lemma writeProgress_prefix E prefix ds : forall n m,
  writeImages E prefix n (firstn (written (writeProgress E prefix n ds m)) ds) m
  = Done (disk_after (writeProgress E prefix n ds m)).
Proof.
  induction ds as [|d ds IH]; intros n m; cbn [writeProgress]; [reflexivity|].
  destruct (Fs.writeFile _ _ _ _ _) as [m1|e1] eqn:Hw; cbn [written disk_after firstn];
    [|reflexivity].
  cbn [writeImages]. rewrite Hw. apply IH.
Qed.

Lemma afterImages_files E prefix k m m1 w :
  afterImages E prefix k m (set_fs m1 w) = afterImages E prefix k m w.
Proof. reflexivity. Qed.

Lemma forParts_stopped E prefix ps : forall l w e,
  stopped (writeProgress E prefix (ticks w) (imageDatas ps) (fs w)) = Some e ->
  forParts E (getImagesDirectory E) prefix ps l w
  = (Throw (Error (Fs.error_message e "open"
                     (imagePathAt E prefix
                        (ticks w + written (writeProgress E prefix (ticks w)
                                                          (imageDatas ps) (fs w)))))),
     tick (afterImages E prefix
             (written (writeProgress E prefix (ticks w) (imageDatas ps) (fs w)))
             (disk_after (writeProgress E prefix (ticks w) (imageDatas ps) (fs w))) w)).
Proof.
  induction ps as [|p ps IH]; intros l w e H; [discriminate|].
  cbn [forParts]. unfold mbind, M_bind, bind.
  rewrite imageDatas_cons in *.
  destruct (imageData p) as [d|] eqn:Hd.
  - rewrite (processPart_image E prefix l p d w Hd). cbn [writeProgress] in *.
    destruct (Fs.writeFile _ _ _ _ _) as [m1|e1].
    + cbn [stopped written disk_after] in *.
      set (w1 := set_lastImagePath (Some (imagePathAt E prefix (ticks w)))
                                   (set_fs m1 (tick w))).
      change (S (ticks w)) with (ticks w1) in *. change m1 with (fs w1) in H at 1.
      change m1 with (fs w1).
      rewrite (IH _ w1 e H). f_equal.
      * now rewrite Nat.add_succ_r.
      * unfold afterImages, imagePaths, tick. cbn [length seq map].
        cbn [config genAI lastImagePath configSource calls ticks fs w1
             set_lastImagePath set_fs tick].
        rewrite (latest_cons (lastImagePath w)). now rewrite Nat.add_succ_r.
    + cbn [stopped written disk_after] in *. injection H as <-.
      unfold afterImages, imagePaths, latest. cbn [seq map last].
      rewrite !Nat.add_0_r. now destruct w.
  - rewrite (processPart_text E prefix l p w Hd). apply IH. exact H.
Qed.

Section Progress.

Variable E : Env.
Variables (response : GenerateContentResponse) (prefix prompt : string).
Variable warnings : list string.
Variable w : World.

Lemma buildImageResponse_no_directory e :
  Fs.mkdir_recursive (fs w) (cwd E) (getImagesDirectory E) (localeTime E (ticks w))
  = Fail e ->
  buildImageResponse E response prefix prompt warnings w
  = (Throw (Error (Fs.error_message e "mkdir" (getImagesDirectory E))), w).
Proof. intros H. now rewrite buildImageResponse_unfold, reassemble_unfold, H. Qed.

Variable m1 : FsMap.
Hypothesis made :
  Fs.mkdir_recursive (fs w) (cwd E) (getImagesDirectory E) (localeTime E (ticks w))
  = Done m1.

(** Whether the walk ends or stops at a failed write, the world it
    leaves is the one after the images written so far. *)
Lemma buildImageResponse_progress :
  let p := writeProgress E prefix (ticks w) (imageDatas (firstParts response)) m1 in
  let r := buildImageResponse E response prefix prompt warnings w in
  fs (snd r) = disk_after p
  /\ lastImagePath (snd r)
     = latest (lastImagePath w) (imagePaths E prefix (ticks w) (written p))
  /\ match stopped p with
     | None =>
         written p = length (imageDatas (firstParts response))
         /\ fst r = Ok (mkResult
                          (TextItem
                             (statusText prefix prompt warnings
                                (mkLocals (imageItems (firstParts response))
                                          (imagePaths E prefix (ticks w) (written p))
                                          (textOf (firstParts response))))
                           :: imageItems (firstParts response)))
     | Some e =>
         (written p < length (imageDatas (firstParts response)))%nat
         /\ fst r = Throw (Error (Fs.error_message e "open"
                                    (imagePathAt E prefix (ticks w + written p))))
     end.
Proof.
  cbv zeta. rewrite buildImageResponse_unfold.
  destruct (stopped (writeProgress E prefix (ticks w) (imageDatas (firstParts response)) m1))
    as [e|] eqn:Hs.
  - rewrite reassemble_unfold, made.
    rewrite (forParts_stopped E prefix (firstParts response) (mkLocals [] [] "")
               (set_fs m1 w) e Hs).
    cbn [fst snd]. rewrite afterImages_files. cbn [fs ticks set_fs].
    repeat split.
    destruct (writeImages E prefix (ticks w) (imageDatas (firstParts response)) m1)
      as [m2|e'] eqn:Hw.
    + rewrite (writeProgress_done _ _ _ _ _ _ Hw) in Hs. discriminate.
    + exact (proj2 (writeProgress_fail _ _ _ _ _ _ Hw)).
  - destruct (writeProgress_complete _ _ _ _ _ Hs) as [Hk Hw].
    rewrite (reassemble_written E response prefix w m1 _ made Hw), Hk.
    cbn [fst snd loc_content]. repeat split.
Qed.

End Progress.

(** Reassembly throws nothing but the errors of its file operations. *)
Lemma buildImageResponse_throws E response prefix prompt warnings w x w' :
  buildImageResponse E response prefix prompt warnings w = (Throw x, w') ->
  exists errno syscall p, x = Error (Fs.error_message errno syscall p).
Proof.
  intros H.
  destruct (Fs.mkdir_recursive (fs w) (cwd E) (getImagesDirectory E)
                               (localeTime E (ticks w))) as [m1|e] eqn:Hd.
  - pose proof (buildImageResponse_progress E response prefix prompt warnings w m1 Hd)
      as (_ & _ & Hp).
    cbv zeta in Hp. rewrite H in Hp. cbn [fst] in Hp.
    destruct (stopped _) as [e|]; destruct Hp as [_ Hp]; [|discriminate].
    injection Hp as ->. eauto.
  - rewrite (buildImageResponse_no_directory E response prefix prompt warnings w e Hd) in H.
    injection H as <- _. eauto.
Qed.

Lemma firstParts_first c later : firstParts (mkResponse (Some (c :: later))) = partsOf c.
Proof.
  unfold firstParts, firstCandidateParts, partsOf. cbn [candidates].
  destruct (cand_content c) as [ct|]; [|reflexivity]. now destruct (parts ct).
Qed.

(** C1, as stated, fails where a write fails, and the files are not
    always new.  On a disk where a directory sits at the name of the
    second image, the first image is written and recorded, the second
    write fails, and the routine throws: no path is returned, and the
    session's last image path is the first image's, not the path of the
    last image part.  With a clock and a random source that stand still
    the two images get one name: both writes succeed, the same path is
    listed twice, and the one file holds the second image. *)
Lemma reassembly_stops_at_failed_write :
  let E := Demo.env (Some "env-key") (Demo.always (Ok Demo.twoImages)) in
  let w := Demo.ready Demo.secondTaken in
  let r := buildImageResponse E Demo.twoImages "generated" "a cat" [] w in
  let E' := steadyEnv (Some "env-key") (Demo.always (Ok Demo.twoImages)) in
  let p := "/work/generated_imgs/generated-2025-01-31T12-00-00-000Z-k3x9q2.png" in
  let r' := reassemble E' Demo.twoImages "generated" (Demo.ready Demo.disk) in
  (imageDatas (firstParts Demo.twoImages) = ["AAAA"; "BBBB"]
   /\ fst r = Throw (Error "EISDIR: illegal operation on a directory, open '/work/generated_imgs/generated-2025-01-31T12-00-00-1Z-k3x9q2.png'")
   /\ lastImagePath w = None
   /\ lastImagePath (snd r) = Some Demo.firstImage
   /\ Fs.readFile (fs (snd r)) "/work" Demo.firstImage = Done "raw:AAAA")
  /\ (fst r' = Ok (mkLocals [ImageItem "AAAA" "image/png"; ImageItem "BBBB" "image/png"]
                            [p; p] "Here you go")
      /\ Fs.readFile (fs (snd r')) "/work" p = Done "raw:BBBB").
Proof. cbv zeta. repeat split; vm_compute; reflexivity. Qed.

(** C1, amended.  Let the provider response start with candidate [c].
    (1) Reassembly gives the same result and the same world whatever
    candidates follow [c].  (2) When the images directory can be made
    and every image can be written, walking the parts of [c] in order
    returns: the text of the parts concatenated in order; one image item
    per image-bearing part; and, in [savedFiles], the path of each file
    written, in part order, the i-th image-bearing part being written
    with its payload decoded from base64 (to a file that is created, or
    overwritten when one is there).  Afterwards the session's last image
    path is the last of those paths (the old one if there is no image),
    the disk is the one those writes leave, and the file at the last
    path reads back as the last payload decoded.  (3) This is what
    [generateImage] and [editImage] return for a provider response:
    both hand it to this routine and pass its result on.  (4) When the
    directory cannot be made the routine throws the error of [mkdir]
    and changes nothing.  When a write fails the routine throws the
    error of that write and returns no path; the images before it have
    been written, the disk is the one their writes leave, and the last
    image path is the last of theirs (the old one if the first write
    failed). *)
Theorem reassembly_first_candidate_in_order (E : Env) (c : Candidate)
        (later : list Candidate) :
  let response := mkResponse (Some (c :: later)) in
  let ps := partsOf c in
  (forall later' prefix prompt warnings w,
      buildImageResponse E (mkResponse (Some (c :: later'))) prefix prompt warnings w
      = buildImageResponse E response prefix prompt warnings w)
  /\ (forall prefix prompt warnings w m1 m2,
         Fs.mkdir_recursive (fs w) (cwd E) (getImagesDirectory E) (localeTime E (ticks w))
         = Done m1 ->
         writeImages E prefix (ticks w) (imageDatas ps) m1 = Done m2 ->
         let paths := imagePaths E prefix (ticks w) (length (imageDatas ps)) in
         let l := mkLocals (imageItems ps) paths (textOf ps) in
         let r := buildImageResponse E response prefix prompt warnings w in
         reassemble E response prefix w = (Ok l, snd r)
         /\ fst r = Ok (mkResult (TextItem (statusText prefix prompt warnings l)
                                  :: imageItems ps))
         /\ fs (snd r) = m2
         /\ lastImagePath (snd r)
            = match last paths with Some p => Some p | None => lastImagePath w end
         /\ length paths = length (imageItems ps)
         /\ (forall p d, last paths = Some p -> last (imageDatas ps) = Some d ->
             Fs.readFile (fs (snd r)) (cwd E) p = Done (from_base64 E d)))
  /\ (forall a w g m,
         configured w = true -> genAI w = Some g ->
         resolveModel (gen_model a) = Ok m ->
         generateContent E g (mkParams m (Prompt (gen_prompt a))) (length (calls w))
         = Ok response ->
         generateImage E a w
         = caught generateCatch
             (buildImageResponse E response "generated" (gen_prompt a) []
                (log_call (g, mkParams m (Prompt (gen_prompt a))) w)))
  /\ (forall a w g m buf,
         configured w = true -> genAI w = Some g ->
         resolveModel (edit_model a) = Ok m ->
         fst (validateImagePath E (imagePath a) w) = Ok tt ->
         Fs.readFile (fs w) (cwd E) (imagePath a) = Done buf ->
         generateContent E g (editRequest E a w m buf) (length (calls w)) = Ok response ->
         editImage E a w
         = caught editCatch
             (buildImageResponse E response "edited" (edit_prompt a)
                (referenceWarnings E w (referencesOf a))
                (log_call (g, editRequest E a w m buf) w)))
  /\ (forall prefix prompt warnings w,
         let r := buildImageResponse E response prefix prompt warnings w in
         match Fs.mkdir_recursive (fs w) (cwd E) (getImagesDirectory E)
                                  (localeTime E (ticks w)) with
         | Fail e =>
             r = (Throw (Error (Fs.error_message e "mkdir" (getImagesDirectory E))), w)
         | Done m1 =>
             forall e, writeImages E prefix (ticks w) (imageDatas ps) m1 = Fail e ->
             let k := written (writeProgress E prefix (ticks w) (imageDatas ps) m1) in
             (k < length (imageDatas ps))%nat
             /\ fst r = Throw (Error (Fs.error_message e "open"
                                        (imagePathAt E prefix (ticks w + k))))
             /\ writeImages E prefix (ticks w) (firstn k (imageDatas ps)) m1
                = Done (fs (snd r))
             /\ lastImagePath (snd r)
                = match last (imagePaths E prefix (ticks w) k) with
                  | Some p => Some p
                  | None => lastImagePath w
                  end
         end).
Proof.
  cbv zeta. split; [|split; [|split; [|split]]]; cycle 4.
  - intros prefix prompt warnings w.
    destruct (Fs.mkdir_recursive _ _ _ _) as [m1|e0] eqn:Hd;
      [|now apply buildImageResponse_no_directory].
    intros e He. rewrite <- (firstParts_first c later) in *.
    destruct (writeProgress_fail _ _ _ _ _ _ He) as [Hs Hk].
    pose proof (buildImageResponse_progress E (mkResponse (Some (c :: later)))
                  prefix prompt warnings w m1 Hd) as (Hfs & Hlast & Hr).
    cbv zeta in Hfs, Hlast, Hr. rewrite Hs in Hr.
    split; [exact Hk|]. split; [exact (proj2 Hr)|].
    split; [rewrite Hfs; apply writeProgress_prefix | exact Hlast].
  - intros later' prefix prompt warnings w.
    apply buildImageResponse_first_parts. now rewrite !firstParts_first.
  - intros prefix prompt warnings w m1 m2 Hd Hw.
    rewrite <- (firstParts_first c later) in *.
    rewrite buildImageResponse_unfold.
    rewrite (reassemble_written E _ prefix w m1 m2 Hd Hw).
    cbn [fst snd loc_content]. repeat apply conj; try reflexivity.
    + unfold imagePaths. now rewrite length_map, length_seq, imageItems_length.
    + intros p d Hp Hl.
      exact (writeImages_last_readable E prefix _ _ _ _ p d Hw Hp Hl).
  - intros a w g m Hc Hg Hm Hr.
    rewrite (generateImage_checked E a w g m Hc Hg Hm). cbv zeta. now rewrite Hr.
  - intros a w g m buf Hc Hg Hm Hv Hb Hr.
    rewrite (editImage_checked E a w g m Hc Hg Hm Hv), Hb. cbv zeta. now rewrite Hr.
Qed.

(** A response of two candidates on the demo disk: the first has text,
    an image, text, an image; the second is never looked at.  The text
    is joined, both files are written with the decoded payloads, both
    paths are returned in order and the session keeps the second. *)
Lemma reassembly_first_candidate_in_order_witness :
  let E := Demo.env (Some "env-key") (Demo.always (Ok Demo.twoImages)) in
  let w := Demo.ready Demo.disk in
  let c := Demo.oneCandidate [Demo.textPart "Here "; Demo.imagePart "AAAA";
                              Demo.textPart "you go"; Demo.imagePart "BBBB"] in
  let response := mkResponse (Some [c; Demo.oneCandidate [Demo.imagePart "ZZZZ"]]) in
  let r := buildImageResponse E response "generated" "a cat" [] w in
  reassemble E response "generated" w
  = (Ok (mkLocals [ImageItem "AAAA" "image/png"; ImageItem "BBBB" "image/png"]
                  [Demo.firstImage; Demo.secondImage]
                  "Here you go"), snd r)
  /\ fs (snd r) = Demo.withTwoImages
  /\ lastImagePath (snd r) = Some Demo.secondImage.
Proof.
  cbv zeta.
  set (E := Demo.env (Some "env-key") (Demo.always (Ok Demo.twoImages))).
  set (w := Demo.ready Demo.disk).
  set (c := Demo.oneCandidate [Demo.textPart "Here "; Demo.imagePart "AAAA";
                               Demo.textPart "you go"; Demo.imagePart "BBBB"]).
  assert (Hd : Fs.mkdir_recursive (fs w) (cwd E) (getImagesDirectory E)
                                  (localeTime E (ticks w)) = Done Demo.withImagesDir)
    by reflexivity.
  assert (Hw : writeImages E "generated" (ticks w) (imageDatas (partsOf c))
                           Demo.withImagesDir = Done Demo.withTwoImages)
    by reflexivity.
  pose proof (proj1 (proj2 (reassembly_first_candidate_in_order
                              E c [Demo.oneCandidate [Demo.imagePart "ZZZZ"]]))
                    "generated" "a cat" [] w _ _ Hd Hw) as H.
  cbv zeta in H. destruct H as (H1 & _ & H3 & H4 & _).
  assert (Hp : imagePaths E "generated" (ticks w) (length (imageDatas (partsOf c))) = [Demo.firstImage; Demo.secondImage]) by (vm_compute; reflexivity).
  rewrite Hp in H1, H4.
  split; [exact H1|]. split; [exact H3 | exact H4].
Defined.

(** * Responses without an image *)

Lemma afterImages_zero E prefix m w : afterImages E prefix 0 m w = set_fs m w.
Proof.
  unfold afterImages, imagePaths, latest, set_fs. cbn [seq map last].
  now rewrite Nat.add_0_r.
Qed.

Lemma statusText_no_image prefix prompt warnings text :
  exists s, statusText prefix prompt warnings (mkLocals [] [] text) = s +:+ NO_IMAGE_NOTE.
Proof. unfold statusText. cbn [savedFiles length Nat.ltb Nat.leb]. eexists. reflexivity. Qed.

Section TextOnly.

Variable E : Env.
Variable response : GenerateContentResponse.
Hypothesis no_image : imageDatas (firstParts response) = [].

Lemma reassemble_text_only prefix w :
  reassemble E response prefix w =
  match Fs.mkdir_recursive (fs w) (cwd E) (getImagesDirectory E)
                           (localeTime E (ticks w)) with
  | Fail e => (Throw (Error (Fs.error_message e "mkdir" (getImagesDirectory E))), w)
  | Done m1 => (Ok (mkLocals [] [] (textOf (firstParts response))), set_fs m1 w)
  end.
Proof.
  destruct (Fs.mkdir_recursive _ _ _ _) as [m1|e] eqn:Hd.
  - assert (Hw : writeImages E prefix (ticks w) (imageDatas (firstParts response)) m1
                 = Done m1) by now rewrite no_image.
    rewrite (reassemble_written E response prefix w m1 m1 Hd Hw).
    rewrite (imageItems_none _ no_image), no_image. cbn [length].
    now rewrite afterImages_zero.
  - now rewrite reassemble_unfold, Hd.
Qed.

Lemma buildImageResponse_text_only_last prefix prompt warnings w :
  lastImagePath (snd (buildImageResponse E response prefix prompt warnings w))
  = lastImagePath w.
Proof.
  rewrite buildImageResponse_unfold, reassemble_text_only.
  destruct (Fs.mkdir_recursive _ _ _ _); reflexivity.
Qed.

Lemma buildImageResponse_text_only prefix prompt warnings w m1 :
  Fs.mkdir_recursive (fs w) (cwd E) (getImagesDirectory E) (localeTime E (ticks w))
  = Done m1 ->
  exists s,
    buildImageResponse E response prefix prompt warnings w
    = (Ok (mkResult [TextItem (s +:+ NO_IMAGE_NOTE)]), set_fs m1 w).
Proof.
  intros Hd. rewrite buildImageResponse_unfold, reassemble_text_only, Hd.
  destruct (statusText_no_image prefix prompt warnings (textOf (firstParts response)))
    as [s Hs].
  exists s. cbn [loc_content]. now rewrite Hs.
Qed.

End TextOnly.

(** C7, as stated, fails: a text-only response does not always end in
    success.  The images directory is made before the parts are looked
    at; on a disk where a regular file sits at its place, [generateImage]
    throws although the provider answered and the answer has no image. *)
Lemma text_only_fails_without_images_dir :
  let E := Demo.env (Some "env-key") (Demo.always (Ok Demo.textOnly)) in
  let w := Demo.ready Demo.blocked in
  imageDatas (firstParts Demo.textOnly) = []
  /\ fst (generateImage E (mkGenerateArgs "a cat" None) w)
     = Throw (McpError InternalError
                "Failed to generate image: EEXIST: file already exists, mkdir '/work/generated_imgs'").
Proof. cbv zeta. split; [reflexivity|]. vm_compute. reflexivity. Qed.

(** C7, amended.  When the first candidate of the provider response has
    no image-bearing part, the session's last image path is unchanged,
    whatever else happens; and if the images directory exists or can be
    made, the call succeeds: no file path is recorded, the result is a
    single text item, and that text ends with the note that no image was
    generated.  This holds for the shared routine and, through it, for
    [generateImage] and [editImage]. *)
Theorem text_only_response (E : Env) (response : GenerateContentResponse) :
  imageDatas (firstParts response) = [] ->
  (forall prefix prompt warnings w,
      lastImagePath (snd (buildImageResponse E response prefix prompt warnings w))
      = lastImagePath w
      /\ forall m1,
          Fs.mkdir_recursive (fs w) (cwd E) (getImagesDirectory E) (localeTime E (ticks w))
          = Done m1 ->
          reassemble E response prefix w
          = (Ok (mkLocals [] [] (textOf (firstParts response))), set_fs m1 w)
          /\ exists s,
              buildImageResponse E response prefix prompt warnings w
              = (Ok (mkResult [TextItem (s +:+ NO_IMAGE_NOTE)]), set_fs m1 w))
  /\ (forall a w g m,
         configured w = true -> genAI w = Some g ->
         resolveModel (gen_model a) = Ok m ->
         generateContent E g (mkParams m (Prompt (gen_prompt a))) (length (calls w))
         = Ok response ->
         lastImagePath (snd (generateImage E a w)) = lastImagePath w
         /\ forall m1,
             Fs.mkdir_recursive (fs w) (cwd E) (getImagesDirectory E)
                                (localeTime E (ticks w)) = Done m1 ->
             exists s, fst (generateImage E a w)
                       = Ok (mkResult [TextItem (s +:+ NO_IMAGE_NOTE)]))
  /\ (forall a w g m buf,
         configured w = true -> genAI w = Some g ->
         resolveModel (edit_model a) = Ok m ->
         fst (validateImagePath E (imagePath a) w) = Ok tt ->
         Fs.readFile (fs w) (cwd E) (imagePath a) = Done buf ->
         generateContent E g (editRequest E a w m buf) (length (calls w)) = Ok response ->
         lastImagePath (snd (editImage E a w)) = lastImagePath w
         /\ forall m1,
             Fs.mkdir_recursive (fs w) (cwd E) (getImagesDirectory E)
                                (localeTime E (ticks w)) = Done m1 ->
             exists s, fst (editImage E a w)
                       = Ok (mkResult [TextItem (s +:+ NO_IMAGE_NOTE)])).
Proof.
  intros Hno. split; [|split].
  - intros prefix prompt warnings w. split.
    + now apply buildImageResponse_text_only_last.
    + intros m1 Hd. split.
      * now rewrite (reassemble_text_only E response Hno), Hd.
      * now apply buildImageResponse_text_only.
  - intros a w g m Hc Hg Hm Hr.
    rewrite (generateImage_checked E a w g m Hc Hg Hm). cbv zeta. rewrite Hr. split.
    + now rewrite caught_world, (buildImageResponse_text_only_last E response Hno).
    + intros m1 Hd.
      destruct (buildImageResponse_text_only E response Hno "generated" (gen_prompt a) []
                  (log_call (g, mkParams m (Prompt (gen_prompt a))) w) m1 Hd) as [s Hs].
      exists s. now rewrite Hs.
  - intros a w g m buf Hc Hg Hm Hv Hb Hr.
    rewrite (editImage_checked E a w g m Hc Hg Hm Hv), Hb. cbv zeta. rewrite Hr. split.
    + now rewrite caught_world, (buildImageResponse_text_only_last E response Hno).
    + intros m1 Hd.
      destruct (buildImageResponse_text_only E response Hno "edited" (edit_prompt a)
                  (referenceWarnings E w (referencesOf a))
                  (log_call (g, editRequest E a w m buf) w) m1 Hd) as [s Hs].
      exists s. now rewrite Hs.
Qed.

(** A text-only answer on the demo disk, where the images directory can
    be made: [generateImage] returns one text item ending with the note,
    and the session still holds no image. *)
Lemma text_only_response_witness :
  let E := Demo.env (Some "env-key") (Demo.always (Ok Demo.textOnly)) in
  let w := Demo.ready Demo.disk in
  let r := generateImage E (mkGenerateArgs "a cat" None) w in
  lastImagePath (snd r) = None
  /\ exists s, fst r = Ok (mkResult [TextItem (s +:+ NO_IMAGE_NOTE)]).
Proof.
  cbv zeta.
  set (E := Demo.env (Some "env-key") (Demo.always (Ok Demo.textOnly))).
  set (w := Demo.ready Demo.disk).
  pose proof (proj1 (proj2 (text_only_response E Demo.textOnly eq_refl))
                    (mkGenerateArgs "a cat" None) w (mkClient "env-key")
                    "gemini-2.5-flash-image" eq_refl eq_refl eq_refl eq_refl) as [H1 H2].
  split; [exact H1|].
  apply (H2 Demo.withImagesDir). reflexivity.
Defined.

(** * Effects and failures *)


Section Effects.

Variable E : Env.

Lemma processPart_follows prefix l p w0 w :
  lastFollowsWrite E w0 w ->
  lastFollowsWrite E w0 (snd (processPart E (getImagesDirectory E) prefix l p w)).
Proof.
  intros H. destruct (imageData p) as [d|] eqn:Hd.
  - rewrite (processPart_image E prefix l p d w Hd).
    destruct (Fs.writeFile _ _ _ _ _) as [m1|e] eqn:Hw.
    + right. exists (imagePathAt E prefix (ticks w)), (from_base64 E d).
      split; [reflexivity|]. cbn [snd fs set_lastImagePath set_fs].
      exact (writeFile_readFile _ _ _ _ _ _ Hw).
    + exact H.
  - now rewrite (processPart_text E prefix l p w Hd).
Qed.

Lemma forParts_follows prefix ps : forall l w0 w,
  lastFollowsWrite E w0 w ->
  lastFollowsWrite E w0 (snd (forParts E (getImagesDirectory E) prefix ps l w)).
Proof.
  induction ps as [|p ps IH]; intros l w0 w H; [exact H|].
  cbn [forParts]. unfold mbind, M_bind, bind.
  pose proof (processPart_follows prefix l p w0 w H) as Hp.
  destruct (processPart E (getImagesDirectory E) prefix l p w) as [[l'|e] w1];
    cbn [snd] in *; [now apply IH | exact Hp].
Qed.

Lemma buildImageResponse_follows response prefix prompt warnings w :
  lastFollowsWrite E w (snd (buildImageResponse E response prefix prompt warnings w)).
Proof.
  assert (H : lastFollowsWrite E w (snd (reassemble E response prefix w))).
  { rewrite reassemble_unfold.
    destruct (Fs.mkdir_recursive _ _ _ _) as [m1|e]; [|now left].
    apply forParts_follows. now left. }
  rewrite buildImageResponse_unfold.
  destruct (reassemble E response prefix w) as [[l|e] w1]; exact H.
Qed.

Lemma follows_from w0 w0' w :
  lastImagePath w0 = lastImagePath w0' ->
  lastFollowsWrite E w0 w -> lastFollowsWrite E w0' w.
Proof. unfold lastFollowsWrite. intros <-. trivial. Qed.

Lemma configured_client w : configured w = true -> exists g, genAI w = Some g.
Proof.
  unfold configured. destruct (config w); [|discriminate].
  destruct (genAI w) as [g|]; [eauto | discriminate].
Qed.

Lemma editImage_invalid a w m e :
  configured w = true -> resolveModel (edit_model a) = Ok m ->
  fst (validateImagePath E (imagePath a) w) = Throw e ->
  editImage E a w = (Throw e, w).
Proof.
  intros Hc Hm Hv. unfold editImage, ensureConfigured. unfold_monad.
  rewrite Hc. cbv [negb]. rewrite Hm.
  now rewrite (validateImagePath_world E (imagePath a) w), Hv.
Qed.

Lemma generateImage_follows a w : lastFollowsWrite E w (snd (generateImage E a w)).
Proof.
  destruct (configured w) eqn:Hc; [|rewrite generateImage_unconfigured by assumption; now left].
  destruct (resolveModel (gen_model a)) as [m|e] eqn:Hm.
  - destruct (configured_client w Hc) as [g Hg].
    rewrite (generateImage_checked E a w g m Hc Hg Hm). cbv zeta.
    destruct (generateContent E g _ _) as [response|e]; [|now left].
    rewrite caught_world.
    eapply follows_from; [|apply buildImageResponse_follows]. reflexivity.
  - rewrite (generateImage_configured E a w Hc), Hm. now left.
Qed.

Lemma editImage_follows a w : lastFollowsWrite E w (snd (editImage E a w)).
Proof.
  destruct (configured w) eqn:Hc; [|rewrite editImage_unconfigured by assumption; now left].
  destruct (resolveModel (edit_model a)) as [m|e] eqn:Hm;
    [|rewrite (editImage_bad_model E a w e Hc Hm); now left].
  destruct (fst (validateImagePath E (imagePath a) w)) as [[]|e] eqn:Hv;
    [|rewrite (editImage_invalid a w m e Hc Hm Hv); now left].
  destruct (configured_client w Hc) as [g Hg].
  rewrite (editImage_checked E a w g m Hc Hg Hm Hv).
  destruct (Fs.readFile _ _ _) as [buf|e]; [|now left]. cbv zeta.
  destruct (generateContent E g _ _) as [response|e]; [|now left].
  rewrite caught_world.
  eapply follows_from; [|apply buildImageResponse_follows]. reflexivity.
Qed.

End Effects.

(** C5, as stated, fails on both of its promises about failed calls.
    A configure call whose file write fails (a directory sits at the
    config file's place) ends in an error and yet leaves the new key
    active in memory, with the label [config_file].  A generate call
    whose second image cannot be written ends in an error and yet leaves
    the session's last image path set to the first image. *)
Lemma effects_precede_failure :
  let E1 := Demo.env None (Demo.always (Ok Demo.textOnly)) in
  let w1 := fresh Demo.noConfigSlot in
  let r1 := callTool E1 (configure_gemini_token "new-key") w1 in
  let E2 := Demo.env (Some "env-key") (Demo.always (Ok Demo.twoImages)) in
  let w2 := Demo.ready Demo.secondTaken in
  let r2 := generateImage E2 (mkGenerateArgs "a cat" None) w2 in
  (fst r1 = Throw (McpError InternalError
                     "Tool execution failed: EISDIR: illegal operation on a directory, open '/home/u/.nano-banana-config.json'")
   /\ credential w1 = (None, None, not_configured)
   /\ credential (snd r1)
      = (Some (mkConfig "new-key"), Some (mkClient "new-key"), config_file))
  /\ (fst r2 = Throw (McpError InternalError
                        "Failed to generate image: EISDIR: illegal operation on a directory, open '/work/generated_imgs/generated-2025-01-31T12-00-00-1Z-k3x9q2.png'")
      /\ lastImagePath w2 = None
      /\ lastImagePath (snd r2) = Some Demo.firstImage).
Proof. cbv zeta. repeat split; vm_compute; reflexivity. Qed.

(** What a generate or edit call leaves once the provider has
    answered: the world after the images written so far. *)
Lemma reassembly_outcome E (h : Exn -> Exn) response prefix prompt warnings w m1 :
  Fs.mkdir_recursive (fs w) (cwd E) (getImagesDirectory E) (localeTime E (ticks w))
  = Done m1 ->
  let p := writeProgress E prefix (ticks w) (imageDatas (firstParts response)) m1 in
  let r := caught h (buildImageResponse E response prefix prompt warnings w) in
  writeImages E prefix (ticks w) (firstn (written p) (imageDatas (firstParts response))) m1
  = Done (fs (snd r))
  /\ lastImagePath (snd r)
     = latest (lastImagePath w) (imagePaths E prefix (ticks w) (written p))
  /\ match stopped p with
     | None =>
         written p = length (imageDatas (firstParts response))
         /\ exists result, fst r = Ok result
     | Some e =>
         (written p < length (imageDatas (firstParts response)))%nat
         /\ fst r = Throw (h (Error (Fs.error_message e "open"
                                       (imagePathAt E prefix (ticks w + written p)))))
     end.
Proof.
  intros Hd. cbv zeta.
  pose proof (buildImageResponse_progress E response prefix prompt warnings w m1 Hd)
    as (Hfs & Hlast & Hr).
  cbv zeta in Hfs, Hlast, Hr. rewrite caught_world, Hfs.
  split; [apply writeProgress_prefix|]. split; [exact Hlast|].
  destruct (buildImageResponse E response prefix prompt warnings w) as [[result|x] w1].
  - cbn [caught fst] in *. destruct (stopped _) as [e|]; destruct Hr as [Hk Hr];
      [discriminate|]. split; [exact Hk | now exists result].
  - cbn [caught fst] in *. destruct (stopped _) as [e|]; destruct Hr as [Hk Hr];
      [|discriminate]. injection Hr as ->. now split.
Qed.

(** C5, amended.  Validation comes first and fails without any effect:
    a generate or edit call that is not configured, names an unsupported
    model, or (edit) has an invalid primary image, and a configure call
    with an empty key, throw and leave the world exactly as it was, so
    nothing is sent and nothing is written.  A generate or edit call whose
    remote call fails adds that call to the log and changes nothing else.
    Once the provider has answered, the images directory is made; if
    that fails the call fails and only the log has grown.  Otherwise
    the images are written one after the other and the session's last
    image path is set right after each write: when the call ends, with
    a result or with the error of a write that failed, the images
    before that point are on disk and the last image path is the path
    of the last one written (it is as before when none was); a failed
    write ends the call with the generation-failed error, nothing
    written before is undone.  So the last image path is always either
    left as it was or set to a file that has been written and can be
    read.  A configure call with a non-empty key activates the key in
    memory and then writes the config file: when the file cannot be
    opened for writing the call throws with the new key active and the
    files untouched. *)
Theorem effects_and_failures (E : Env) (w : World) :
  (forall a,
      configured w = false \/ (exists e, resolveModel (gen_model a) = Throw e) ->
      exists e, generateImage E a w = (Throw e, w))
  /\ (forall a,
         configured w = false \/ (exists e, resolveModel (edit_model a) = Throw e)
         \/ (exists e, fst (validateImagePath E (imagePath a) w) = Throw e) ->
         exists e, editImage E a w = (Throw e, w))
  /\ configureGeminiToken E "" w
     = (Throw (McpError InvalidParams "Invalid API key: Gemini API key is required"), w)
  /\ (forall a g m e,
         configured w = true -> genAI w = Some g ->
         resolveModel (gen_model a) = Ok m ->
         generateContent E g (mkParams m (Prompt (gen_prompt a))) (length (calls w))
         = Throw e ->
         generateImage E a w
         = (Throw (generateCatch e), log_call (g, mkParams m (Prompt (gen_prompt a))) w))
  /\ (forall a g m buf e,
         configured w = true -> genAI w = Some g ->
         resolveModel (edit_model a) = Ok m ->
         fst (validateImagePath E (imagePath a) w) = Ok tt ->
         Fs.readFile (fs w) (cwd E) (imagePath a) = Done buf ->
         generateContent E g (editRequest E a w m buf) (length (calls w)) = Throw e ->
         editImage E a w
         = (Throw (editCatch e), log_call (g, editRequest E a w m buf) w))
  /\ (forall a, lastFollowsWrite E w (snd (generateImage E a w)))
  /\ (forall a, lastFollowsWrite E w (snd (editImage E a w)))
  /\ (forall key, key <> "" ->
      match Fs.writeFile (fs w) (cwd E) (getConfigPath E)
                         (JSON_stringify E (config_json (mkConfig key)))
                         (localeTime E (ticks w)) with
      | Done m =>
          configureGeminiToken E key w
          = (Ok (mkResult [TextItem CONFIGURED_TEXT]),
             set_fs m (activate (mkConfig key) config_file w))
      | Fail e =>
          configureGeminiToken E key w
          = (Throw (Error (Fs.error_message e "open" (getConfigPath E))),
             activate (mkConfig key) config_file w)
      end)
  /\ (forall a g m response,
         configured w = true -> genAI w = Some g ->
         resolveModel (gen_model a) = Ok m ->
         generateContent E g (mkParams m (Prompt (gen_prompt a))) (length (calls w))
         = Ok response ->
         let r := generateImage E a w in
         let ds := imageDatas (firstParts response) in
         match Fs.mkdir_recursive (fs w) (cwd E) (getImagesDirectory E)
                                  (localeTime E (ticks w)) with
         | Fail e =>
             r = (Throw (McpError InternalError
                           ("Failed to generate image: "
                            +:+ Fs.error_message e "mkdir" (getImagesDirectory E))),
                  log_call (g, mkParams m (Prompt (gen_prompt a))) w)
         | Done m1 =>
             let p := writeProgress E "generated" (ticks w) ds m1 in
             writeImages E "generated" (ticks w) (firstn (written p) ds) m1
             = Done (fs (snd r))
             /\ lastImagePath (snd r)
                = latest (lastImagePath w) (imagePaths E "generated" (ticks w) (written p))
             /\ match stopped p with
                | None => written p = length ds /\ exists result, fst r = Ok result
                | Some e =>
                    (written p < length ds)%nat
                    /\ fst r
                       = Throw (McpError InternalError
                                  ("Failed to generate image: "
                                   +:+ Fs.error_message e "open"
                                         (imagePathAt E "generated"
                                                      (ticks w + written p))))
                end
         end)
  /\ (forall a g m buf response,
         configured w = true -> genAI w = Some g ->
         resolveModel (edit_model a) = Ok m ->
         fst (validateImagePath E (imagePath a) w) = Ok tt ->
         Fs.readFile (fs w) (cwd E) (imagePath a) = Done buf ->
         generateContent E g (editRequest E a w m buf) (length (calls w)) = Ok response ->
         let r := editImage E a w in
         let ds := imageDatas (firstParts response) in
         match Fs.mkdir_recursive (fs w) (cwd E) (getImagesDirectory E)
                                  (localeTime E (ticks w)) with
         | Fail e =>
             r = (Throw (McpError InternalError
                           ("Failed to edit image: "
                            +:+ Fs.error_message e "mkdir" (getImagesDirectory E))),
                  log_call (g, editRequest E a w m buf) w)
         | Done m1 =>
             let p := writeProgress E "edited" (ticks w) ds m1 in
             writeImages E "edited" (ticks w) (firstn (written p) ds) m1
             = Done (fs (snd r))
             /\ lastImagePath (snd r)
                = latest (lastImagePath w) (imagePaths E "edited" (ticks w) (written p))
             /\ match stopped p with
                | None => written p = length ds /\ exists result, fst r = Ok result
                | Some e =>
                    (written p < length ds)%nat
                    /\ fst r
                       = Throw (McpError InternalError
                                  ("Failed to edit image: "
                                   +:+ Fs.error_message e "open"
                                         (imagePathAt E "edited" (ticks w + written p))))
                end
         end).
Proof.
  repeat apply conj.
  - intros a H. destruct (configured w) eqn:Hc.
    + destruct H as [H|[e He]]; [discriminate|].
      exists e. now rewrite (generateImage_configured E a w Hc), He.
    + eexists. now apply generateImage_unconfigured.
  - intros a H. destruct (configured w) eqn:Hc;
      [|eexists; now apply editImage_unconfigured].
    destruct (resolveModel (edit_model a)) as [m|e] eqn:Hm;
      [|exists e; now apply editImage_bad_model].
    destruct H as [H|[[e He]|[e He]]]; [discriminate..|].
    exists e. now apply (editImage_invalid E a w m e).
  - reflexivity.
  - intros a g m e Hc Hg Hm Hr.
    rewrite (generateImage_checked E a w g m Hc Hg Hm). cbv zeta. now rewrite Hr.
  - intros a g m buf e Hc Hg Hm Hv Hb Hr.
    rewrite (editImage_checked E a w g m Hc Hg Hm Hv), Hb. cbv zeta. now rewrite Hr.
  - intros a. apply generateImage_follows.
  - intros a. apply editImage_follows.
  - intros key Hk. apply truthy_nonempty in Hk.
    rewrite (configureGeminiToken_nonempty E key w Hk).
    destruct (Fs.writeFile _ _ _ _ _); reflexivity.
  - intros a g m response Hc Hg Hm Hr. cbv zeta.
    rewrite (generateImage_checked E a w g m Hc Hg Hm). cbv zeta. rewrite Hr.
    set (w1 := log_call (g, mkParams m (Prompt (gen_prompt a))) w).
    change (fs w) with (fs w1). change (ticks w) with (ticks w1).
    change (lastImagePath w) with (lastImagePath w1).
    destruct (Fs.mkdir_recursive _ _ _ _) as [m1|e] eqn:Hd.
    + exact (reassembly_outcome E generateCatch response "generated" (gen_prompt a) []
                                w1 m1 Hd).
    + now rewrite (buildImageResponse_no_directory E response "generated" (gen_prompt a)
                     [] w1 e Hd).
  - intros a g m buf response Hc Hg Hm Hv Hb Hr. cbv zeta.
    rewrite (editImage_checked E a w g m Hc Hg Hm Hv), Hb. cbv zeta. rewrite Hr.
    set (w1 := log_call (g, editRequest E a w m buf) w).
    change (fs w) with (fs w1). change (ticks w) with (ticks w1).
    change (lastImagePath w) with (lastImagePath w1).
    destruct (Fs.mkdir_recursive _ _ _ _) as [m1|e] eqn:Hd.
    + exact (reassembly_outcome E editCatch response "edited" (edit_prompt a) _ w1 m1 Hd).
    + now rewrite (buildImageResponse_no_directory E response "edited" (edit_prompt a)
                     _ w1 e Hd).
Qed.

(** On the demo disk: without a credential [generateImage] throws and
    changes nothing; with one, and a provider that is out of quota, it
    throws and only the log has grown. *)
Lemma effects_and_failures_witness :
  let quota := Demo.always (Throw (Error "quota exceeded")) in
  let a := mkGenerateArgs "a cat" None in
  (exists e, generateImage (Demo.env None quota) a (fresh Demo.disk)
             = (Throw e, fresh Demo.disk))
  /\ generateImage (Demo.env (Some "env-key") quota) a (Demo.ready Demo.disk)
     = (Throw (McpError InternalError "Failed to generate image: quota exceeded"),
        log_call (mkClient "env-key", mkParams DEFAULT_MODEL (Prompt "a cat"))
                 (Demo.ready Demo.disk)).
Proof.
  cbv zeta. split.
  - apply (proj1 (effects_and_failures
                    (Demo.env None (Demo.always (Throw (Error "quota exceeded"))))
                    (fresh Demo.disk))).
    left. reflexivity.
  - exact (proj1 (proj2 (proj2 (proj2
             (effects_and_failures
                (Demo.env (Some "env-key") (Demo.always (Throw (Error "quota exceeded"))))
                (Demo.ready Demo.disk)))))
             (mkGenerateArgs "a cat" None) (mkClient "env-key") DEFAULT_MODEL
             (Error "quota exceeded") eq_refl eq_refl eq_refl eq_refl).
Defined.

(** * Runs on the demo disk

    Whole calls, evaluated, to be read next to the source. *)

Example run_generate_two_images :
  fst (generateImage (Demo.env (Some "env-key") (Demo.always (Ok Demo.twoImages)))
                     (mkGenerateArgs "a cat" None) (Demo.ready Demo.disk))
  = Ok (mkResult
          [TextItem (Js.join nl
                       ["Image generated with nano-banana!";
                        "";
                        "Prompt: " +:+ dq +:+ "a cat" +:+ dq;
                        "";
                        "Description: Here you go";
                        "";
                        "Image saved to:";
                        "- " +:+ Demo.firstImage;
                        "- " +:+ Demo.secondImage;
                        "";
                        "To modify this image, use: continue_editing";
                        "To check current image info, use: get_last_image_info"]);
           ImageItem "AAAA" "image/png";
           ImageItem "BBBB" "image/png"]).
Proof. vm_compute. reflexivity. Qed.

Example run_edit_with_references :
  fst (editImage (Demo.env (Some "env-key") (Demo.always (Ok Demo.textOnly)))
                 (mkEditArgs "cat.png" "add a hat" (Some ["nowhere.png"; "edge.PNG"])
                             (Some "gemini-3-pro-image-preview"))
                 (Demo.ready Demo.disk))
  = Ok (mkResult
          [TextItem (Js.join nl
                       ["Image edited with nano-banana!";
                        "";
                        "Prompt: " +:+ dq +:+ "add a hat" +:+ dq;
                        "";
                        "Description: Sorry, text only.";
                        "";
                        "Warnings:";
                        "- Skipped reference image " +:+ dq +:+ "nowhere.png" +:+ dq
                        +:+ ": MCP error -32602: Image file not found: nowhere.png";
                        "";
                        "Note: No image was generated. The model may have returned only text."])]).
Proof. vm_compute. reflexivity. Qed.

Example run_continue_after_generate :
  let E := Demo.env (Some "env-key") (Demo.always (Ok Demo.twoImages)) in
  let w1 := snd (generateImage E (mkGenerateArgs "a cat" None) (Demo.ready Demo.disk)) in
  let w2 := snd (continueEditing E (mkContinueArgs "now with a hat" None None) w1) in
  map (fun c => contents (snd c)) (calls w2)
  = [Prompt "a cat";
     Parts [ImagePart "b64:raw:BBBB" "image/png"; TextPart "now with a hat"]]
  /\ lastImagePath w2
     = Some "/work/generated_imgs/edited-2025-01-31T12-00-00-3Z-k3x9q2.png".
Proof. cbv zeta. split; vm_compute; reflexivity. Qed.

Example run_last_image_info :
  let E := Demo.env (Some "env-key") (Demo.always (Ok Demo.twoImages)) in
  let w1 := snd (generateImage E (mkGenerateArgs "a cat" None) (Demo.ready Demo.disk)) in
  fst (getLastImageInfo E w1)
  = Ok (mkResult
          [TextItem (Js.join nl
                       ["Last Image Information:";
                        "";
                        "Path: " +:+ Demo.secondImage;
                        "File Size: 0 KB";
                        "Last Modified: today";
                        "";
                        "Use continue_editing to make further changes."])]).
Proof. cbv zeta. vm_compute. reflexivity. Qed.

Example run_status_after_startup :
  fst (getConfigurationStatus
         (run (Demo.env None (Demo.always (Ok Demo.textOnly))) Demo.disk))
  = Ok (mkResult
          [TextItem (Js.join nl
                       ["Gemini API token is configured and ready to use";
                        "Source: Local configuration file (.nano-banana-config.json)";
                        "Consider using environment variables for better security."])]).
Proof. vm_compute. reflexivity. Qed.

Example run_unknown_tool :
  fst (callTool (Demo.env None (Demo.always (Ok Demo.textOnly)))
                (unknown_tool "resize_image") (fresh Demo.disk))
  = Throw (McpError MethodNotFound "Unknown tool: resize_image").
Proof. reflexivity. Qed.

(** * Further properties: the request handler *)

Section McpOnly.

Lemma mcp_ret {A} (a : A) : throwsMcpOnly (ret a).
Proof. intros w e w' H. discriminate. Qed.

Lemma mcp_gets {A} (f : World -> A) : throwsMcpOnly (gets f).
Proof. intros w e w' H. discriminate. Qed.

Lemma mcp_modify (f : World -> World) : throwsMcpOnly (modify f).
Proof. intros w e w' H. discriminate. Qed.

Lemma mcp_throw {A} (e : Exn) : isMcpError e = true -> throwsMcpOnly (@throw A e).
Proof. intros He w e' w' H. injection H as <- _. exact He. Qed.

Lemma mcp_lift {A} (r : Res A) :
  (forall e, r = Throw e -> isMcpError e = true) -> throwsMcpOnly (lift r).
Proof. intros Hr w e w' H. injection H as H _. now apply Hr. Qed.

Lemma mcp_bind {A B} (m : M A) (k : A -> M B) :
  throwsMcpOnly m -> (forall a, throwsMcpOnly (k a)) -> throwsMcpOnly (bind m k).
Proof.
  intros Hm Hk w e w' H. unfold bind in H.
  destruct (m w) as [[a|e0] w1] eqn:Hw.
  - exact (Hk a w1 e w' H).
  - injection H as <- _. exact (Hm w e0 w1 Hw).
Qed.

(** Whatever the body throws, the handler decides what gets out. *)
Lemma mcp_try_catch {A} (m : M A) (h : Exn -> M A) :
  (forall e, throwsMcpOnly (h e)) -> throwsMcpOnly (try_catch m h).
Proof.
  intros Hh w e w' H. unfold try_catch in H.
  destruct (m w) as [[a|e0] w1]; [discriminate|]. exact (Hh e0 w1 e w' H).
Qed.

End McpOnly.

Lemma resolveModel_throws m0 e :
  resolveModel m0 = Throw e -> exists m, m0 = Some m /\ e = UNSUPPORTED_MODEL m.
Proof.
  unfold resolveModel. destruct m0 as [m|]; [|discriminate].
  destruct (negb (Js.truthy m)); [discriminate|].
  destruct (Js.includes SUPPORTED_MODELS m); [discriminate|].
  intros H. injection H as <-. now exists m.
Qed.

Lemma resolveModel_ok_supported m0 m :
  resolveModel m0 = Ok m -> Js.includes SUPPORTED_MODELS m = true.
Proof.
  unfold resolveModel. destruct m0 as [s|].
  - destruct (negb (Js.truthy s)); [intros H; injection H as <-; reflexivity|].
    destruct (Js.includes SUPPORTED_MODELS s) eqn:Hi; [|discriminate].
    intros H. now injection H as <-.
  - intros H. injection H as <-. reflexivity.
Qed.

Section HandlerErrors.

Variable E : Env.

Lemma mcp_validateImagePath p : throwsMcpOnly (validateImagePath E p).
Proof.
  unfold validateImagePath. destruct (negb _); [now apply mcp_throw|].
  apply mcp_bind.
  - apply mcp_try_catch. intros e. now apply mcp_throw.
  - intros st. destruct (_ >? _)%Z; [now apply mcp_throw | apply mcp_ret].
Qed.

Lemma mcp_resolveModel m0 : throwsMcpOnly (lift (resolveModel m0)).
Proof.
  apply mcp_lift. intros e H. now destruct (resolveModel_throws m0 e H) as (m & _ & ->).
Qed.

Lemma mcp_generateImage a : throwsMcpOnly (generateImage E a).
Proof.
  unfold generateImage. apply mcp_bind; [apply mcp_gets|]. intros ok.
  destruct (negb ok); [now apply mcp_throw|].
  apply mcp_bind; [apply mcp_resolveModel|]. intros m.
  apply mcp_try_catch. intros e. now apply mcp_throw.
Qed.

Lemma mcp_editImage a : throwsMcpOnly (editImage E a).
Proof.
  unfold editImage. apply mcp_bind; [apply mcp_gets|]. intros ok.
  destruct (negb ok); [now apply mcp_throw|].
  apply mcp_bind; [apply mcp_resolveModel|]. intros m.
  apply mcp_bind; [apply mcp_validateImagePath|]. intros _.
  apply mcp_try_catch. intros e.
  destruct (isMcpError e) eqn:He; now apply mcp_throw.
Qed.

Lemma mcp_continueEditing a : throwsMcpOnly (continueEditing E a).
Proof.
  unfold continueEditing. apply mcp_bind; [apply mcp_gets|]. intros ok.
  destruct (negb ok); [now apply mcp_throw|].
  apply mcp_bind; [apply mcp_gets|]. intros [p|]; [|now apply mcp_throw].
  destruct (negb (Js.truthy p)); [now apply mcp_throw|].
  apply mcp_bind; [|intros _; apply mcp_editImage].
  apply mcp_try_catch. intros e. now apply mcp_throw.
Qed.

Lemma mcp_getLastImageInfo : throwsMcpOnly (getLastImageInfo E).
Proof.
  intros w e w' H. destruct (getLastImageInfo_total E w) as [r Hr]. congruence.
Qed.

Lemma mcp_getConfigurationStatus : throwsMcpOnly getConfigurationStatus.
Proof.
  unfold getConfigurationStatus.
  apply mcp_bind; [apply mcp_gets|]. intros ok.
  apply mcp_bind; [apply mcp_gets|]. intros src. apply mcp_ret.
Qed.

(** Every tool but the configure tool classifies its own errors. *)
Lemma mcp_dispatch r :
  (forall key, r <> configure_gemini_token key) -> throwsMcpOnly (dispatch E r).
Proof.
  intros Hr. destruct r as [key|a|a| |a| |name]; cbn [dispatch].
  - now contradiction (Hr key).
  - apply mcp_generateImage.
  - apply mcp_editImage.
  - apply mcp_getConfigurationStatus.
  - apply mcp_continueEditing.
  - apply mcp_getLastImageInfo.
  - now apply mcp_throw.
Qed.

Lemma callTool_unfold r w :
  callTool E r w =
  match dispatch E r w with
  | (Ok a, w') => (Ok a, w')
  | (Throw e, w') =>
      (Throw (if isMcpError e then e
              else McpError InternalError ("Tool execution failed: " +:+ message e)), w')
  end.
Proof.
  unfold callTool, try_catch. destruct (dispatch E r w) as [[a|e] w']; [reflexivity|].
  destruct (isMcpError e); reflexivity.
Qed.

End HandlerErrors.

Section RequestsAsTyped.

Variable E : Env.

Lemma generateImage_request_typed a : generateImage_request E (Some a) = generateImage E a.
Proof. reflexivity. Qed.

Lemma editImage_request_typed a : editImage_request E (Some a) = editImage E a.
Proof. reflexivity. Qed.

Lemma continueEditing_request_typed a :
  continueEditing_request E (Some a) = continueEditing E a.
Proof. reflexivity. Qed.

Lemma configureGeminiToken_request_string fields key w :
  field "apiKey" fields = Some (JString key) ->
  configureGeminiToken_request E (Some fields) w = configureGeminiToken E key w.
Proof.
  intros H. unfold configureGeminiToken_request, configureGeminiToken. rewrite H.
  unfold_monad. destruct key as [|c key]; reflexivity.
Qed.

Lemma configureGeminiToken_request_other fields w :
  match field "apiKey" fields with
  | Some (JString _) => True
  | Some v =>
      configureGeminiToken_request E (Some fields) w
      = (Throw (McpError InvalidParams
                  ("Invalid API key: Expected string, received " +:+ typeName v)), w)
  | None =>
      configureGeminiToken_request E (Some fields) w
      = (Throw (McpError InvalidParams "Invalid API key: Required"), w)
  end.
Proof.
  unfold configureGeminiToken_request.
  destruct (field "apiKey" fields) as [[| | | | |]|]; try exact I; reflexivity.
Qed.

(** The handler's [catch] has nothing to do for a method that throws
    [McpError]s only. *)
Lemma handler_passes (m : M CallToolResult) w :
  throwsMcpOnly m ->
  try_catch m
    (fun error =>
       if isMcpError error then throw error
       else throw (McpError InternalError ("Tool execution failed: " +:+ message error))) w
  = m w.
Proof.
  intros Hm. unfold try_catch. destruct (m w) as [[a|e] w1] eqn:Hw; [reflexivity|].
  now rewrite (Hm w e w1 Hw).
Qed.

Lemma handler_unfold (m : M CallToolResult) w :
  try_catch m
    (fun error =>
       if isMcpError error then throw error
       else throw (McpError InternalError ("Tool execution failed: " +:+ message error))) w
  = match m w with
    | (Ok a, w') => (Ok a, w')
    | (Throw e, w') =>
        (Throw (if isMcpError e then e
                else McpError InternalError ("Tool execution failed: " +:+ message e)), w')
    end.
Proof.
  unfold try_catch. destruct (m w) as [[a|e] w']; [reflexivity|].
  destruct (isMcpError e); reflexivity.
Qed.

Lemma hasCase_false name :
  hasCase name = false ->
  String.eqb name "configure_gemini_token" = false
  /\ String.eqb name "generate_image" = false
  /\ String.eqb name "edit_image" = false
  /\ String.eqb name "get_configuration_status" = false
  /\ String.eqb name "continue_editing" = false
  /\ String.eqb name "get_last_image_info" = false.
Proof.
  unfold hasCase.
  destruct (String.eqb name "configure_gemini_token"); [discriminate|].
  destruct (String.eqb name "generate_image"); [discriminate|].
  destruct (String.eqb name "edit_image"); [discriminate|].
  destruct (String.eqb name "get_configuration_status"); [discriminate|].
  destruct (String.eqb name "continue_editing"); [discriminate|].
  destruct (String.eqb name "get_last_image_info"); [discriminate|].
  repeat split.
Qed.

End RequestsAsTyped.

(** X1.  Nothing but an [McpError] leaves the request handler, and the
    handler's own [catch] has work in three cases only.  The requests
    covered are those whose arguments are absent, or present with
    fields of the types the casts name for the three generation tools;
    for [configure_gemini_token] any value of [apiKey] is covered.
    An unknown tool name is answered with [MethodNotFound] and no
    effect.  A request without arguments for a tool that reads them
    ends, once the checks the method makes before reading them have
    passed, in the [TypeError] of the destructuring, which the handler
    wraps as [InternalError] "Tool execution failed: ...", with no
    effect.  The configure tool answers [InvalidParams] with zod's
    message for a missing key, a key that is not a string and an empty
    key, with no effect; for a non-empty key it activates the key and
    returns, or fails with the wrapped [InternalError] when the config
    file cannot be written.  In every other case the answer is the
    method's own. *)
Theorem handler_errors_classified (E : Env) (request : CallToolRequest)
        (handler : M CallToolResult) (w : World) :
  handleCallTool E request = Some handler ->
  let name := params_name request in
  let arguments := params_arguments request in
  let wrapped first :=
    McpError InternalError
      ("Tool execution failed: Cannot destructure property '" +:+ first
       +:+ "' of 'request.params.arguments' as it is undefined.") in
  (forall e w', handler w = (Throw e, w') -> isMcpError e = true)
  /\ (hasCase name = false ->
      handler w = (Throw (McpError MethodNotFound ("Unknown tool: " +:+ name)), w))
  /\ (name = "configure_gemini_token" ->
      match arguments with
      | None => handler w = (Throw (wrapped "apiKey"), w)
      | Some fields =>
          match field "apiKey" fields with
          | None =>
              handler w = (Throw (McpError InvalidParams "Invalid API key: Required"), w)
          | Some (JString key) =>
              if Js.truthy key then
                match Fs.writeFile (fs w) (cwd E) (getConfigPath E)
                                   (JSON_stringify E (config_json (mkConfig key)))
                                   (localeTime E (ticks w)) with
                | Done m =>
                    handler w = (Ok (mkResult [TextItem CONFIGURED_TEXT]),
                                 set_fs m (activate (mkConfig key) config_file w))
                | Fail errno =>
                    handler w
                    = (Throw (McpError InternalError
                                ("Tool execution failed: "
                                 +:+ Fs.error_message errno "open" (getConfigPath E))),
                       activate (mkConfig key) config_file w)
                end
              else
                handler w
                = (Throw (McpError InvalidParams
                            "Invalid API key: Gemini API key is required"), w)
          | Some v =>
              handler w
              = (Throw (McpError InvalidParams
                          ("Invalid API key: Expected string, received "
                           +:+ typeName v)), w)
          end
      end)
  /\ (arguments = None ->
      (name = "generate_image" ->
       handler w = (Throw (if configured w then wrapped "prompt" else NOT_CONFIGURED), w))
      /\ (name = "edit_image" ->
          handler w
          = (Throw (if configured w then wrapped "imagePath" else NOT_CONFIGURED), w))
      /\ (name = "continue_editing" ->
          handler w
          = (Throw (if configured w then
                      match lastImagePath w with
                      | None => NO_PREVIOUS_IMAGE
                      | Some p =>
                          if Js.truthy p then
                            match Fs.access (fs w) (cwd E) p with
                            | Done _ => wrapped "prompt"
                            | Fail _ => LAST_IMAGE_MISSING p
                            end
                          else NO_PREVIOUS_IMAGE
                      end
                    else NOT_CONFIGURED), w)))
  /\ (forall fields, arguments = Some fields ->
      (forall a, name = "generate_image" -> generateArgs fields = Some a ->
                 handler w = generateImage E a w)
      /\ (forall a, name = "edit_image" -> editArgs fields = Some a ->
                    handler w = editImage E a w)
      /\ (forall a, name = "continue_editing" -> continueArgs fields = Some a ->
                    handler w = continueEditing E a w))
  /\ (name = "get_configuration_status" -> handler w = getConfigurationStatus w)
  /\ (name = "get_last_image_info" -> handler w = getLastImageInfo E w).
Proof.
  intros H. cbv zeta. unfold handleCallTool in H.
  destruct (dispatch_request E request) as [method|] eqn:Hd; [|discriminate].
  cbn [option_map] in H. injection H as <-.
  destruct request as [name arguments]. cbn [params_name params_arguments] in *.
  unfold dispatch_request in Hd. cbn [params_name params_arguments] in Hd.
  split; [|split; [|split; [|split; [|split; [|split]]]]].
  - apply mcp_try_catch. intros e. destruct (isMcpError e) eqn:He; now apply mcp_throw.
  - intros Hn. destruct (hasCase_false name Hn) as (H1 & H2 & H3 & H4 & H5 & H6).
    rewrite H1, H2, H3, H4, H5, H6 in Hd. now injection Hd as <-.
  - intros ->. cbn in Hd. injection Hd as <-.
    destruct arguments as [fields|]; [|reflexivity].
    pose proof (configureGeminiToken_request_other E fields w) as Ho.
    rewrite handler_unfold.
    destruct (field "apiKey" fields) as [[| | |key| |]|] eqn:Hf;
      try (rewrite Ho; reflexivity).
    rewrite (configureGeminiToken_request_string E fields key w Hf).
    destruct (Js.truthy key) eqn:Ht.
    + rewrite (configureGeminiToken_nonempty E key w Ht).
      destruct (Fs.writeFile _ _ _ _ _); reflexivity.
    + destruct key; [reflexivity | discriminate].
  - intros ->. cbn [castArguments option_map] in Hd. repeat split; intros ->; cbn in Hd;
      injection Hd as <-.
    + unfold try_catch, generateImage_request, ensureConfigured. unfold_monad.
      destruct (configured w); reflexivity.
    + unfold try_catch, editImage_request, ensureConfigured. unfold_monad.
      destruct (configured w); reflexivity.
    + unfold try_catch at 1. unfold continueEditing_request, ensureConfigured.
      unfold_monad. destruct (configured w); [|reflexivity]. cbn [negb].
      destruct (lastImagePath w) as [p|]; [|reflexivity].
      destruct (Js.truthy p); [|reflexivity]. cbn [negb].
      unfold fs_access, io. destruct (Fs.access _ _ _); reflexivity.
  - intros fields ->. cbn [castArguments] in Hd. repeat split; intros a -> Ha;
      cbn in Hd; rewrite Ha in Hd; cbn [option_map] in Hd; injection Hd as <-.
    + rewrite generateImage_request_typed. apply handler_passes, mcp_generateImage.
    + rewrite editImage_request_typed. apply handler_passes, mcp_editImage.
    + rewrite continueEditing_request_typed. apply handler_passes, mcp_continueEditing.
  - intros ->. cbn in Hd. injection Hd as <-.
    apply handler_passes, mcp_getConfigurationStatus.
  - intros ->. cbn in Hd. injection Hd as <-.
    apply handler_passes, mcp_getLastImageInfo.
Qed.

(** A request whose [apiKey] is a number, one without the key and one
    without arguments, on the demo disk. *)
Lemma handler_errors_classified_witness :
  let E := Demo.env None (Demo.always (Ok Demo.textOnly)) in
  let w := fresh Demo.disk in
  let handle request :=
    match handleCallTool E request with
    | Some handler => Some (fst (handler w))
    | None => None
    end in
  handle (mkRequest "configure_gemini_token" (Some [("apiKey", JNumber "123")]))
  = Some (Throw (McpError InvalidParams "Invalid API key: Expected string, received number"))
  /\ handle (mkRequest "configure_gemini_token" (Some []))
     = Some (Throw (McpError InvalidParams "Invalid API key: Required"))
  /\ handle (mkRequest "configure_gemini_token" None)
     = Some (Throw (McpError InternalError
                      "Tool execution failed: Cannot destructure property 'apiKey' of 'request.params.arguments' as it is undefined."))
  /\ handle (mkRequest "generate_image" (Some [("prompt", JNumber "1")])) = None.
Proof.
  cbv zeta.
  set (E := Demo.env None (Demo.always (Ok Demo.textOnly))). set (w := fresh Demo.disk).
  split; [|split; [|split]].
  - destruct (handleCallTool E (mkRequest "configure_gemini_token"
                                          (Some [("apiKey", JNumber "123")])))
      as [handler|] eqn:Hh; [|discriminate].
    pose proof (handler_errors_classified E _ handler w Hh) as (_ & _ & H & _).
    cbv zeta in H. now rewrite (H eq_refl).
  - destruct (handleCallTool E (mkRequest "configure_gemini_token" (Some [])))
      as [handler|] eqn:Hh; [|discriminate].
    pose proof (handler_errors_classified E _ handler w Hh) as (_ & _ & H & _).
    cbv zeta in H. now rewrite (H eq_refl).
  - destruct (handleCallTool E (mkRequest "configure_gemini_token" None))
      as [handler|] eqn:Hh; [|discriminate].
    pose proof (handler_errors_classified E _ handler w Hh) as (_ & _ & H & _).
    cbv zeta in H. now rewrite (H eq_refl).
  - reflexivity.
Defined.

(** X15.  The tools advertised are the tools handled.  A name has a
    [case] of its own in the [CallTool] switch exactly when the
    [ListTools] handler lists it. *)
Theorem listed_tools_are_handled (name : string) :
  hasCase name = true <-> In name listedTools.
Proof.
  unfold hasCase, listedTools. split.
  - intros H.
    repeat match type of H with
           | context [String.eqb name ?x] =>
               destruct (String.eqb_spec name x) as [Heq|Hne];
               [rewrite Heq; cbn [In]; auto 10 | cbv beta iota in H; clear Hne]
           end.
    discriminate.
  - cbn [In]. intros H.
    repeat (destruct H as [<-|H]; [reflexivity|]). contradiction.
Qed.

(** * Further properties: what the two generation tools throw and send *)

Section GenerateAndEdit.

Variable E : Env.

Lemma generateBody_throws m prompt w e w' :
  generateBody E m prompt w = (Throw e, w') -> exists cause, e = generateCatch cause.
Proof.
  unfold generateBody, try_catch, throw.
  match goal with |- context [match ?x with (_, _) => _ end] => destruct x as [[r|c] w1] end;
    [discriminate|].
  intros H. injection H as <- _. now exists c.
Qed.

Lemma generateImage_calls a w :
  calls (snd (generateImage E a w)) = calls w
  \/ exists g params,
      genAI w = Some g
      /\ calls (snd (generateImage E a w)) = (calls w ++ [(g, params)])%list
      /\ Js.includes SUPPORTED_MODELS (model params) = true
      /\ contents params = Prompt (gen_prompt a).
Proof.
  destruct (configured w) eqn:Hc;
    [|left; now rewrite generateImage_unconfigured].
  destruct (resolveModel (gen_model a)) as [m|e] eqn:Hm;
    [|left; now rewrite (generateImage_configured E a w Hc), Hm].
  destruct (configured_client w Hc) as [g Hg].
  right. exists g, (mkParams m (Prompt (gen_prompt a))).
  split; [exact Hg|]. split; [|split; [exact (resolveModel_ok_supported _ _ Hm)|reflexivity]].
  rewrite (generateImage_checked E a w g m Hc Hg Hm). cbv zeta.
  destruct (generateContent E g _ _) as [response|e]; [|reflexivity].
  now rewrite caught_world, calls_after_build.
Qed.

Lemma editImage_calls a w :
  calls (snd (editImage E a w)) = calls w
  \/ exists g params,
      genAI w = Some g
      /\ calls (snd (editImage E a w)) = (calls w ++ [(g, params)])%list
      /\ Js.includes SUPPORTED_MODELS (model params) = true.
Proof.
  destruct (configured w) eqn:Hc;
    [|left; now rewrite editImage_unconfigured].
  destruct (resolveModel (edit_model a)) as [m|e] eqn:Hm;
    [|left; now rewrite (editImage_bad_model E a w e Hc Hm)].
  destruct (fst (validateImagePath E (imagePath a) w)) as [[]|e] eqn:Hv;
    [|left; now rewrite (editImage_invalid E a w m e Hc Hm Hv)].
  destruct (configured_client w Hc) as [g Hg].
  rewrite (editImage_checked E a w g m Hc Hg Hm Hv).
  destruct (Fs.readFile _ _ _) as [buf|e]; [|now left].
  right. exists g, (editRequest E a w m buf).
  split; [exact Hg|]. split; [|exact (resolveModel_ok_supported _ _ Hm)].
  cbv zeta. destruct (generateContent E g _ _) as [response|e]; [|reflexivity].
  now rewrite caught_world, calls_after_build.
Qed.

Lemma continueEditing_cases a w :
  continueEditing E a w = (Throw NOT_CONFIGURED, w)
  \/ continueEditing E a w = (Throw NO_PREVIOUS_IMAGE, w)
  \/ (exists p, lastImagePath w = Some p
                /\ continueEditing E a w = (Throw (LAST_IMAGE_MISSING p), w))
  \/ (exists p, lastImagePath w = Some p
                /\ Fs.access (fs w) (cwd E) p = Done tt
                /\ continueEditing E a w
                   = editImage E (mkEditArgs p (cont_prompt a) (cont_referenceImages a)
                                             (cont_model a)) w).
Proof.
  destruct (configured w) eqn:Hc;
    [|left; now apply continueEditing_unconfigured].
  destruct (holdsLastImage w) eqn:Hl;
    [|right; left; now apply continueEditing_no_image].
  unfold holdsLastImage, Js.truthy_opt in Hl.
  destruct (lastImagePath w) as [p|] eqn:Hp; [|discriminate].
  rewrite (continueEditing_with_image E a w p Hc Hp Hl).
  destruct (Fs.access (fs w) (cwd E) p) as [[]|e] eqn:Ha.
  - right; right; right. exists p. now rewrite Ha.
  - right; right; left. now exists p.
Qed.

End GenerateAndEdit.

(** X2.  What [generateImage] and [editImage] can throw, and what
    each failure leaves, for arguments that are absent or of the
    declared types.  A generate call fails in five ways: no credential;
    no arguments (the [TypeError] of the destructuring, which is not an
    [McpError]); an unsupported model; the provider's error, wrapped as
    "Failed to generate image: ..." (an [McpError] is wrapped too),
    with the call in the log and nothing else changed; and the error of
    [mkdir] or of a file write during reassembly, wrapped the same way.
    The first three leave the world as it was.  An edit call fails in
    the same ways and in two more: the validator's [InvalidParams] for
    the primary image, and a primary image that cannot be read
    ("Failed to edit image: ..."), both with no effect.  Its [catch]
    passes an [McpError] on unwrapped, and the only one that can reach
    it is one the provider threw. *)
Theorem generation_errors_classified (E : Env) (w : World) :
  (forall arguments e w',
      generateImage_request E arguments w = (Throw e, w') ->
      (configured w = false /\ e = NOT_CONFIGURED /\ w' = w)
      \/ (configured w = true /\ arguments = None
          /\ e = CANNOT_DESTRUCTURE "prompt" /\ w' = w)
      \/ (exists a m, arguments = Some a /\ configured w = true
                      /\ gen_model a = Some m /\ e = UNSUPPORTED_MODEL m /\ w' = w)
      \/ (exists a g m cause,
             arguments = Some a /\ genAI w = Some g /\ resolveModel (gen_model a) = Ok m
             /\ generateContent E g (mkParams m (Prompt (gen_prompt a))) (length (calls w))
                = Throw cause
             /\ e = McpError InternalError ("Failed to generate image: " +:+ message cause)
             /\ w' = log_call (g, mkParams m (Prompt (gen_prompt a))) w)
      \/ (exists a g m response errno syscall p,
             arguments = Some a /\ genAI w = Some g /\ resolveModel (gen_model a) = Ok m
             /\ generateContent E g (mkParams m (Prompt (gen_prompt a))) (length (calls w))
                = Ok response
             /\ e = McpError InternalError
                      ("Failed to generate image: " +:+ Fs.error_message errno syscall p)))
  /\ (forall arguments e w',
         editImage_request E arguments w = (Throw e, w') ->
         (configured w = false /\ e = NOT_CONFIGURED /\ w' = w)
         \/ (configured w = true /\ arguments = None
             /\ e = CANNOT_DESTRUCTURE "imagePath" /\ w' = w)
         \/ (exists a m, arguments = Some a /\ configured w = true
                         /\ edit_model a = Some m /\ e = UNSUPPORTED_MODEL m /\ w' = w)
         \/ (exists a msg, arguments = Some a
                           /\ fst (validateImagePath E (imagePath a) w) = Throw e
                           /\ e = McpError InvalidParams msg /\ w' = w)
         \/ (exists a errno,
                arguments = Some a
                /\ fst (validateImagePath E (imagePath a) w) = Ok tt
                /\ Fs.readFile (fs w) (cwd E) (imagePath a) = Fail errno
                /\ e = McpError InternalError
                         ("Failed to edit image: "
                          +:+ Fs.read_error_message errno (imagePath a))
                /\ w' = w)
         \/ (exists a g m buf cause,
                arguments = Some a /\ genAI w = Some g
                /\ resolveModel (edit_model a) = Ok m
                /\ Fs.readFile (fs w) (cwd E) (imagePath a) = Done buf
                /\ generateContent E g (editRequest E a w m buf) (length (calls w))
                   = Throw cause
                /\ e = (if isMcpError cause then cause
                        else McpError InternalError
                               ("Failed to edit image: " +:+ message cause))
                /\ w' = log_call (g, editRequest E a w m buf) w)
         \/ (exists a g m buf response errno syscall p,
                arguments = Some a /\ genAI w = Some g
                /\ resolveModel (edit_model a) = Ok m
                /\ Fs.readFile (fs w) (cwd E) (imagePath a) = Done buf
                /\ generateContent E g (editRequest E a w m buf) (length (calls w))
                   = Ok response
                /\ e = McpError InternalError
                         ("Failed to edit image: " +:+ Fs.error_message errno syscall p))).
Proof.
  split.
  - intros arguments e w' H. destruct (configured w) eqn:Hc.
    + destruct arguments as [a|].
      * rewrite generateImage_request_typed in H.
        destruct (resolveModel (gen_model a)) as [m|e0] eqn:Hm.
        -- destruct (configured_client w Hc) as [g Hg].
           rewrite (generateImage_checked E a w g m Hc Hg Hm) in H. cbv zeta in H.
           destruct (generateContent E g _ _) as [response|cause] eqn:Hr.
           ++ right; right; right; right.
              destruct (buildImageResponse E response "generated" (gen_prompt a) [] _)
                as [[result|x] w1] eqn:Hb; [discriminate|].
              destruct (buildImageResponse_throws _ _ _ _ _ _ _ _ Hb)
                as (errno & syscall & p & ->).
              injection H as <- _. exists a, g, m, response, errno, syscall, p.
              repeat split; assumption.
           ++ right; right; right; left. injection H as <- <-.
              exists a, g, m, cause. repeat split; assumption.
        -- rewrite (generateImage_configured E a w Hc), Hm in H. injection H as <- <-.
           destruct (resolveModel_throws _ _ Hm) as (m & Hm0 & ->).
           right; right; left. exists a, m. repeat split; assumption.
      * right; left. revert H. unfold generateImage_request, ensureConfigured.
        unfold_monad. rewrite Hc. intros H. injection H as <- <-. repeat split.
    + left. revert H. unfold generateImage_request, ensureConfigured.
      unfold_monad. rewrite Hc. intros H. injection H as <- <-. repeat split.
  - intros arguments e w' H. destruct (configured w) eqn:Hc.
    + destruct arguments as [a|].
      * rewrite editImage_request_typed in H.
        destruct (resolveModel (edit_model a)) as [m|e0] eqn:Hm.
        -- destruct (fst (validateImagePath E (imagePath a) w)) as [[]|e0] eqn:Hv.
           ++ destruct (configured_client w Hc) as [g Hg].
              rewrite (editImage_checked E a w g m Hc Hg Hm Hv) in H.
              destruct (Fs.readFile _ _ _) as [buf|errno] eqn:Hb.
              ** cbv zeta in H. fold (editRequest E a w m buf) in H.
                 destruct (generateContent E g _ _) as [response|cause] eqn:Hr.
                 --- do 6 right.
                     destruct (buildImageResponse E response "edited" (edit_prompt a) _ _)
                       as [[result|x] w1] eqn:Hx; [discriminate|].
                     destruct (buildImageResponse_throws _ _ _ _ _ _ _ _ Hx)
                       as (errno & syscall & p & ->).
                     injection H as <- _.
                     exists a, g, m, buf, response, errno, syscall, p.
                     repeat split; assumption.
                 --- do 5 right; left. injection H as <- <-.
                     exists a, g, m, buf, cause. repeat split; assumption.
              ** do 4 right; left. injection H as <- <-.
                 exists a, errno. repeat split; assumption.
           ++ rewrite (editImage_invalid E a w m e0 Hc Hm Hv) in H. injection H as <- <-.
              do 3 right; left.
              assert (Hmcp : isMcpError e0 = true).
              { apply (mcp_validateImagePath E (imagePath a) w e0 w).
                rewrite (validateImagePath_world E (imagePath a) w). now rewrite Hv. }
              destruct e0 as [code msg| |]; try discriminate.
              assert (code = InvalidParams) as ->.
              { revert Hv. unfold validateImagePath. destruct (negb _).
                - intros Hv. now injection Hv as ->.
                - unfold_monad. unfold fs_stat, io.
                  destruct (Fs.stat _ _ _) as [st|x]; cbn; [|intros Hv; now injection Hv].
                  destruct (_ >? _)%Z; cbn; [|discriminate].
                  intros Hv. now injection Hv as ->. }
              exists a, msg. repeat split. exact Hv.
        -- rewrite (editImage_bad_model E a w e0 Hc Hm) in H. injection H as <- <-.
           destruct (resolveModel_throws _ _ Hm) as (m & Hm0 & ->).
           right; right; left. exists a, m. repeat split; assumption.
      * right; left. revert H. unfold editImage_request, ensureConfigured.
        unfold_monad. rewrite Hc. intros H. injection H as <- <-. repeat split.
    + left. revert H. unfold editImage_request, ensureConfigured.
      unfold_monad. rewrite Hc. intros H. injection H as <- <-. repeat split.
Qed.

(** X3.  No request makes more than one remote call, and only the three
    generation tools make any.  When one is made it goes through the
    client that was active when the request came in, and the model it
    names is one of the supported two.  The log only grows. *)
Theorem at_most_one_remote_call (E : Env) (r : ToolRequest) (w : World) :
  let w' := snd (callTool E r w) in
  match r with
  | generate_image _ | edit_image _ | continue_editing _ =>
      calls w' = calls w
      \/ exists g params,
          genAI w = Some g
          /\ calls w' = (calls w ++ [(g, params)])%list
          /\ Js.includes SUPPORTED_MODELS (model params) = true
  | _ => calls w' = calls w
  end.
Proof.
  cbv zeta. rewrite callTool_world.
  destruct r as [key|a|a| |a| |name]; cbn [dispatch].
  - destruct (Js.truthy key) eqn:Ht.
    + rewrite (configureGeminiToken_nonempty E key w Ht).
      destruct (Fs.writeFile _ _ _ _ _); reflexivity.
    + destruct key; [reflexivity | discriminate].
  - destruct (generateImage_calls E a w) as [H|(g & params & Hg & Hc & Hm & _)];
      [now left | right; now exists g, params].
  - apply editImage_calls.
  - now apply (keeps_getConfigurationStatus calls).
  - destruct (continueEditing_cases E a w) as [H|[H|[(p & _ & H)|(p & _ & _ & H)]]];
      rewrite H; try (now left).
    apply editImage_calls.
  - now apply (keeps_getLastImageInfo calls).
  - reflexivity.
Qed.

(** * Further properties: the credential over the life of the server *)

Lemma schema_ok_nonempty j c :
  ConfigSchema_parse j = Ok c -> exists key, key <> "" /\ c = mkConfig key.
Proof.
  unfold ConfigSchema_parse. destruct j as [| | | | |fields]; try discriminate.
  destruct (field "geminiApiKey" fields) as [[| | |s| |]|]; try discriminate.
  destruct s as [|x s]; [discriminate|]. cbn. intros H. injection H as <-.
  now exists (String x s).
Qed.

Lemma configRecord_nonempty E m c :
  configRecord E m = Some c -> exists key, key <> "" /\ c = mkConfig key.
Proof.
  unfold configRecord. destruct (Fs.readFile _ _ _) as [text|e]; [|discriminate].
  destruct (JSON_parse E text) as [j|]; [|discriminate].
  destruct (ConfigSchema_parse j) as [c'|e] eqn:Hs; [|discriminate].
  intros H. injection H as <-. exact (schema_ok_nonempty j c' Hs).
Qed.

Section StartupOutcome.

Variable E : Env.

(** The three ways [loadConfig] ends on a fresh instance. *)
Lemma loadConfig_fresh m :
  loadConfig E (fresh m) = (Ok tt, run E m)
  /\ ((exists k, k <> "" /\ GEMINI_API_KEY E = Some k
                 /\ run E m = activate (mkConfig k) environment (fresh m))
      \/ (exists k, k <> "" /\ configRecord E m = Some (mkConfig k)
                    /\ run E m = activate (mkConfig k) config_file (fresh m))
      \/ (configRecord E m = None /\ run E m = fresh m)).
Proof.
  unfold run.
  assert (Hfile : loadConfigFile E (fresh m) = (Ok tt, snd (loadConfigFile E (fresh m)))
                  /\ ((exists k, k <> "" /\ configRecord E m = Some (mkConfig k)
                                 /\ snd (loadConfigFile E (fresh m))
                                    = activate (mkConfig k) config_file (fresh m))
                      \/ (configRecord E m = None
                          /\ snd (loadConfigFile E (fresh m)) = fresh m))).
  { rewrite loadConfigFile_spec. cbn [fs fresh].
    destruct (configRecord E m) as [c|] eqn:Hr.
    - destruct (configRecord_nonempty E m c Hr) as (k & Hk & ->).
      split; [reflexivity|]. left. now exists k.
    - split; [reflexivity|]. now right. }
  destruct (GEMINI_API_KEY E) as [k|] eqn:Hk.
  - destruct (Js.truthy k) eqn:Ht.
    + rewrite (loadConfig_env E (fresh m) k Hk Ht). split; [reflexivity|].
      left. exists k. split; [now apply truthy_nonempty|]. now split.
    + assert (Hn : loadConfig E (fresh m) = loadConfigFile E (fresh m)).
      { unfold loadConfig. now rewrite Hk, Ht. }
      rewrite Hn. destruct Hfile as [H1 H2]. split; [exact H1|]. right. exact H2.
  - rewrite (loadConfig_no_env E (fresh m) (or_introl Hk)).
    destruct Hfile as [H1 H2]. split; [exact H1|]. right. exact H2.
Qed.

Lemma run_coherent m : coherent (run E m).
Proof.
  destruct (loadConfig_fresh m) as [_ [(k & Hk & _ & ->)|[(k & Hk & _ & ->)|[_ ->]]]].
  - right. exists k, environment. repeat split; [exact Hk | discriminate].
  - right. exists k, config_file. repeat split; [exact Hk | discriminate].
  - now left.
Qed.

Lemma callTool_coherent r w : coherent w -> coherent (snd (callTool E r w)).
Proof.
  intros H. rewrite callTool_world.
  assert (Hsame : forall w', credential w' = credential w -> coherent w').
  { intros w' Hw. unfold coherent. now rewrite Hw. }
  destruct r as [key|a|a| |a| |name]; cbn [dispatch].
  - destruct (Js.truthy key) eqn:Ht.
    + rewrite (configureGeminiToken_nonempty E key w Ht).
      right. exists key, config_file.
      split; [now apply truthy_nonempty|]. split; [discriminate|].
      destruct (Fs.writeFile _ _ _ _ _); reflexivity.
    + destruct key; [exact H | discriminate].
  - apply Hsame. now apply (keeps_generateImage credential).
  - apply Hsame. now apply (keeps_editImage credential).
  - apply Hsame. now apply (keeps_getConfigurationStatus credential).
  - apply Hsame. now apply (keeps_continueEditing credential).
  - apply Hsame. now apply (keeps_getLastImageInfo credential).
  - exact H.
Qed.

Lemma serve_coherent rs : forall w, coherent w -> coherent (serve E rs w).
Proof.
  induction rs as [|r rs IH]; intros w H; [exact H|].
  cbn [serve]. apply IH. now apply callTool_coherent.
Qed.

End StartupOutcome.

Lemma coherent_configured w :
  coherent w -> (configured w = true <-> configSource w <> not_configured).
Proof.
  unfold coherent, credential, configured.
  intros [H|(key & s & _ & Hs & H)]; injection H as Hc Hg Hsrc;
    rewrite Hc, ?Hg, Hsrc; split; congruence.
Qed.

Lemma status_of_coherent w :
  coherent w ->
  getConfigurationStatus w
  = (Ok (mkResult [TextItem match configSource w with
                            | environment => STATUS_ENVIRONMENT
                            | config_file => STATUS_CONFIG_FILE
                            | not_configured => STATUS_NOT_CONFIGURED
                            end]), w).
Proof.
  unfold coherent, credential.
  intros [H|(key & s & _ & Hs & H)]; injection H as Hc Hg Hsrc;
    unfold getConfigurationStatus, ensureConfigured, configured; unfold_monad;
    rewrite Hc, ?Hg, ?Hsrc; [reflexivity|].
  destruct s; [reflexivity | reflexivity | congruence].
Qed.

(** X4.  Startup cannot fail and only resolves the credential.  On any
    files and in any environment [loadConfig] returns; the instance it
    leaves has the files untouched, no remote call made and no last
    image; and its credential is either absent with the label
    [not_configured], or one non-empty key, held by the configuration
    and by the client alike, with the label [environment] or
    [config_file] (so a config file holding an empty key, or anything
    that is not a string, never becomes the credential). *)
Theorem startup_never_fails (E : Env) (m : FsMap) :
  loadConfig E (fresh m) = (Ok tt, run E m)
  /\ fs (run E m) = m
  /\ calls (run E m) = []
  /\ lastImagePath (run E m) = None
  /\ coherent (run E m).
Proof.
  split; [apply loadConfig_fresh|].
  split; [|split; [|split; [|apply run_coherent]]];
    destruct (loadConfig_fresh E m) as [_ [(k & _ & _ & ->)|[(k & _ & _ & ->)|[_ ->]]]];
    reflexivity.
Qed.

(** X5.  A token set with [configure_gemini_token] is found again by
    the next process, unless the environment variable is set.  Let a
    configure call with a non-empty key succeed, and let the JSON text
    written for that key parse back to the same object.  A server
    started afterwards on the files the call left resolves that very
    key from the config file when [GEMINI_API_KEY] is absent or empty;
    when the variable holds a non-empty key the restarted server uses
    the variable, and the configured token is not in effect any more. *)
Theorem configured_token_survives_restart (E : Env) (key : string) (w : World)
        (result : CallToolResult) :
  fst (callTool E (configure_gemini_token key) w) = Ok result ->
  JSON_parse E (JSON_stringify E (config_json (mkConfig key)))
  = Some (config_json (mkConfig key)) ->
  let restarted := run E (fs (snd (callTool E (configure_gemini_token key) w))) in
  credential (snd (callTool E (configure_gemini_token key) w))
  = (Some (mkConfig key), Some (mkClient key), config_file)
  /\ match GEMINI_API_KEY E with
     | Some (String c k) =>
         credential restarted
         = (Some (mkConfig (String c k)), Some (mkClient (String c k)), environment)
     | _ =>
         credential restarted = (Some (mkConfig key), Some (mkClient key), config_file)
     end.
Proof.
  intros Hok Hjson. cbv zeta.
  assert (Ht : Js.truthy key = true).
  { destruct key; [|reflexivity]. discriminate Hok. }
  revert Hok. unfold callTool, try_catch. cbn [dispatch].
  rewrite (configureGeminiToken_nonempty E key w Ht).
  destruct (Fs.writeFile _ _ _ _ _) as [m'|e] eqn:Hw; [|discriminate].
  intros _. cbn [snd fs set_fs]. split; [reflexivity|].
  assert (Hrec : configRecord E m' = Some (mkConfig key)).
  { unfold configRecord. rewrite (writeFile_readFile _ _ _ _ _ _ Hw), Hjson.
    unfold config_json. cbn [geminiApiKey]. now rewrite (schema_accepts_nonempty key Ht). }
  assert (Hfile : credential (snd (loadConfigFile E (fresh m')))
                  = (Some (mkConfig key), Some (mkClient key), config_file)).
  { rewrite loadConfigFile_spec. cbn [fs fresh]. now rewrite Hrec. }
  unfold run. destruct (GEMINI_API_KEY E) as [[|c k]|] eqn:Hk.
  - now rewrite (loadConfig_no_env E (fresh m') (or_intror Hk)).
  - now rewrite (loadConfig_env E (fresh m') (String c k) Hk eq_refl).
  - now rewrite (loadConfig_no_env E (fresh m') (or_introl Hk)).
Qed.

Lemma configured_token_survives_restart_witness :
  let E := Demo.env None (Demo.always (Ok Demo.textOnly)) in
  credential (run E (fs (snd (callTool E (configure_gemini_token "file-key")
                                       (fresh Demo.disk)))))
  = (Some (mkConfig "file-key"), Some (mkClient "file-key"), config_file).
Proof.
  cbv zeta.
  exact (proj2 (configured_token_survives_restart
                  (Demo.env None (Demo.always (Ok Demo.textOnly))) "file-key"
                  (fresh Demo.disk) (mkResult [TextItem CONFIGURED_TEXT])
                  eq_refl eq_refl)).
Defined.

(** X6.  In every state the server can reach (startup, then any
    requests) the credential is coherent: either there is none and the
    label is [not_configured], or one non-empty key is held by the
    configuration and by the client alike and the label is
    [environment] or [config_file].  Hence a credential is in force
    exactly when the label is not [not_configured], and
    [get_configuration_status] answers with one of three fixed texts,
    chosen by the label alone, whatever the key; the source's fourth
    branch (configured, but no source line) never runs. *)
Theorem reachable_credential_coherent (E : Env) (m : FsMap) (rs : list ToolRequest) :
  let w := serve E rs (run E m) in
  coherent w
  /\ (configured w = true <-> configSource w <> not_configured)
  /\ callTool E get_configuration_status w
     = (Ok (mkResult [TextItem match configSource w with
                               | environment => STATUS_ENVIRONMENT
                               | config_file => STATUS_CONFIG_FILE
                               | not_configured => STATUS_NOT_CONFIGURED
                               end]), w).
Proof.
  cbv zeta.
  pose proof (serve_coherent E rs (run E m) (run_coherent E m)) as H.
  split; [exact H|]. split; [now apply coherent_configured|].
  unfold callTool, try_catch. cbn [dispatch]. now rewrite (status_of_coherent _ H).
Qed.

(** * Further properties: the files only grow *)

Lemma extends_refl m : extends m m.
Proof. intros k i H. destruct (isDirectory i) eqn:Hd; eauto. Qed.

Lemma extends_trans m1 m2 m3 : extends m1 m2 -> extends m2 m3 -> extends m1 m3.
Proof.
  intros H12 H23 k i H. specialize (H12 k i H).
  destruct (isDirectory i) eqn:Hd.
  - specialize (H23 k i H12). now rewrite Hd in H23.
  - destruct H12 as (i' & Hi' & Hd'). specialize (H23 k i' Hi'). now rewrite Hd' in H23.
Qed.

Lemma extends_insert_file m k f :
  (forall i, m !! k = Some i -> isDirectory i = false) -> isDirectory f = false ->
  extends m (<[k := f]> m).
Proof.
  intros Hfree Hf k' i H. destruct (decide (k = k')) as [<-|Hne].
  - rewrite (Hfree i H). exists f. split; [apply lookup_insert_eq | exact Hf].
  - rewrite lookup_insert_ne by exact Hne. destruct (isDirectory i) eqn:Hd; eauto.
Qed.

Lemma extends_insert_fresh m k x : m !! k = None -> extends m (<[k := x]> m).
Proof.
  intros Hnone k' i H. destruct (decide (k = k')) as [<-|Hne]; [congruence|].
  rewrite lookup_insert_ne by exact Hne. destruct (isDirectory i) eqn:Hd; eauto.
Qed.

Lemma writeFile_extends m cwd0 p content stamp m' :
  Fs.writeFile m cwd0 p content stamp = Done m' -> extends m m'.
Proof.
  unfold Fs.writeFile. destruct (String.eqb p ""); [discriminate|].
  destruct (Fs.walk _ _ _) as [dir|e]; [|discriminate].
  destruct (Fs.as_dir m dir) as [[]|e]; [|discriminate].
  destruct (Fs.proper_name _); [|discriminate].
  destruct (m !! _) as [i|] eqn:Hi.
  - destruct (isDirectory i) eqn:Hd; [discriminate|]. intros H. injection H as <-.
    apply extends_insert_file; [|reflexivity]. intros j Hj. congruence.
  - intros H. injection H as <-. now apply extends_insert_fresh.
Qed.

Lemma mkdir_go_extends stamp segs : forall m at_ m',
  Fs.mkdir_go m at_ segs stamp = Done m' -> extends m m'.
Proof.
  induction segs as [|s segs IH]; intros m at_ m' H; cbn [Fs.mkdir_go] in H.
  - injection H as <-. apply extends_refl.
  - destruct (Fs.proper_name s); [|exact (IH _ _ _ H)].
    destruct (m !! _) as [i|] eqn:Hi.
    + destruct (isDirectory i); [exact (IH _ _ _ H) | discriminate].
    + eapply extends_trans; [|exact (IH _ _ _ H)]. now apply extends_insert_fresh.
Qed.

Lemma mkdir_recursive_extends m cwd0 p stamp m' :
  Fs.mkdir_recursive m cwd0 p stamp = Done m' -> extends m m'.
Proof.
  unfold Fs.mkdir_recursive. destruct (String.eqb p ""); [discriminate|].
  destruct (Fs.as_dir _ _); [|discriminate]. apply mkdir_go_extends.
Qed.

Section Extended.

Variables m m' : FsMap.
Hypothesis grown : extends m m'.

Lemma inode_at_extends at_ i :
  Fs.inode_at m at_ = Some i ->
  exists i', Fs.inode_at m' at_ = Some i' /\ isDirectory i' = isDirectory i.
Proof.
  unfold Fs.inode_at. destruct at_ as [|s r]; [eauto|].
  intros H. specialize (grown _ _ H). destruct (isDirectory i) eqn:Hd.
  - exists i. now split.
  - exact grown.
Qed.

Lemma as_dir_extends at_ : Fs.as_dir m at_ = Done tt -> Fs.as_dir m' at_ = Done tt.
Proof.
  unfold Fs.as_dir. destruct (Fs.inode_at m at_) as [i|] eqn:Hi; [|discriminate].
  destruct (inode_at_extends at_ i Hi) as (i' & -> & ->). trivial.
Qed.

Lemma walk_extends segs : forall at_ dir,
  Fs.walk m at_ segs = Done dir -> Fs.walk m' at_ segs = Done dir.
Proof.
  induction segs as [|s segs IH]; intros at_ dir H; [exact H|].
  cbn [Fs.walk] in *. destruct (Fs.as_dir m at_) as [[]|e] eqn:Ha; [|discriminate].
  rewrite (as_dir_extends at_ Ha). now apply IH.
Qed.

Lemma lookup_extends cwd0 p i :
  Fs.lookup m cwd0 p = Done i ->
  exists i', Fs.lookup m' cwd0 p = Done i' /\ isDirectory i' = isDirectory i.
Proof.
  unfold Fs.lookup. destruct (String.eqb p ""); [discriminate|].
  destruct (Fs.walk m _ _) as [at_|e] eqn:Hw; [|discriminate].
  rewrite (walk_extends _ _ _ Hw).
  destruct (Fs.inode_at m at_) as [j|] eqn:Hj; [|discriminate].
  intros H. injection H as <-.
  destruct (inode_at_extends at_ j Hj) as (i' & -> & Hd). eauto.
Qed.

Lemma readFile_extends cwd0 p content :
  Fs.readFile m cwd0 p = Done content ->
  exists content', Fs.readFile m' cwd0 p = Done content'.
Proof.
  unfold Fs.readFile. destruct (Fs.lookup m cwd0 p) as [i|e] eqn:Hl; [|discriminate].
  destruct (lookup_extends cwd0 p i Hl) as (i' & -> & ->).
  destruct (isDirectory i); [discriminate | eauto].
Qed.

End Extended.

Section StepsThrough.

Variable R : World -> World -> Prop.
Hypothesis R_refl : forall w, R w w.
Hypothesis R_trans : forall w1 w2 w3, R w1 w2 -> R w2 w3 -> R w1 w3.

Lemma steps_ret {A} (a : A) : steps R (ret a).
Proof. intros w. apply R_refl. Qed.

Lemma steps_throw {A} (e : Exn) : steps R (@throw A e).
Proof. intros w. apply R_refl. Qed.

Lemma steps_lift {A} (r : Res A) : steps R (lift r).
Proof. intros w. unfold lift. destruct r; apply R_refl. Qed.

Lemma steps_gets {A} (g : World -> A) : steps R (gets g).
Proof. intros w. apply R_refl. Qed.

Lemma steps_modify (g : World -> World) : (forall w, R w (g w)) -> steps R (modify g).
Proof. intros H w. apply H. Qed.

Lemma steps_readonly {A} (m : M A) : readonly m -> steps R m.
Proof. intros H w. rewrite H. apply R_refl. Qed.

Lemma steps_bind {A C} (m : M A) (k : A -> M C) :
  steps R m -> (forall a, steps R (k a)) -> steps R (bind m k).
Proof.
  intros Hm Hk w. unfold bind. specialize (Hm w).
  destruct (m w) as [[a|e] w1]; cbn [snd] in *; [|exact Hm].
  exact (R_trans _ _ _ Hm (Hk a w1)).
Qed.

Lemma steps_try_catch {A} (m : M A) (h : Exn -> M A) :
  steps R m -> (forall e, steps R (h e)) -> steps R (try_catch m h).
Proof.
  intros Hm Hh w. unfold try_catch. specialize (Hm w).
  destruct (m w) as [[a|e] w1]; cbn [snd] in *; [exact Hm|].
  exact (R_trans _ _ _ Hm (Hh e w1)).
Qed.

End StepsThrough.

(** Whatever holds from one disk to the next across a successful
    [writeFile] and a successful [mkdir], reflexively and transitively,
    holds across every method. *)
Section OnFiles.

Variable Q : FsMap -> FsMap -> Prop.
Hypothesis Q_refl : forall m, Q m m.
Hypothesis Q_trans : forall m1 m2 m3, Q m1 m2 -> Q m2 m3 -> Q m1 m3.
Hypothesis Q_write : forall m cwd0 p content stamp m',
  Fs.writeFile m cwd0 p content stamp = Done m' -> Q m m'.
Hypothesis Q_mkdir : forall m cwd0 p stamp m',
  Fs.mkdir_recursive m cwd0 p stamp = Done m' -> Q m m'.

Variable E : Env.

Lemma onFiles_refl w : onFiles Q w w.
Proof. apply Q_refl. Qed.

Lemma onFiles_trans w1 w2 w3 : onFiles Q w1 w2 -> onFiles Q w2 w3 -> onFiles Q w1 w3.
Proof. apply Q_trans. Qed.

Local Ltac files_step :=
  match goal with
  | |- steps _ (bind _ _) => apply (steps_bind _ onFiles_trans); [|intros ?]
  | |- steps _ (try_catch _ _) => apply (steps_try_catch _ onFiles_trans); [|intros ?]
  | |- steps _ (ret _) => apply (steps_ret _ onFiles_refl)
  | |- steps _ (throw _) => apply (steps_throw _ onFiles_refl)
  | |- steps _ (lift _) => apply (steps_lift _ onFiles_refl)
  | |- steps _ (gets _) => apply (steps_gets _ onFiles_refl)
  | |- steps _ (modify _) => apply steps_modify; intros ?; exact (Q_refl _)
  | |- steps _ (fs_access _ _) =>
      apply (steps_readonly _ onFiles_refl), readonly_fs_access
  | |- steps _ (fs_readFile _ _) =>
      apply (steps_readonly _ onFiles_refl), readonly_fs_readFile
  | |- steps _ (validateImagePath _ _) =>
      apply (steps_readonly _ onFiles_refl), readonly_validateImagePath
  | |- steps _ (loadReferences _ _ _ _) =>
      apply (steps_readonly _ onFiles_refl), readonly_loadReferences
  | |- steps _ (if ?b then _ else _) => destruct b
  | |- steps _ (match ?x with _ => _ end) => destruct x
  end.

Local Ltac files_auto :=
  unfold mbind, M_bind, mret, M_ret, ensureConfigured; repeat files_step.

Lemma files_fs_writeFile p c : steps (onFiles Q) (fs_writeFile E p c).
Proof.
  intros w. unfold fs_writeFile.
  destruct (Fs.writeFile _ _ _ _ _) eqn:Hw; [|apply onFiles_refl].
  exact (Q_write _ _ _ _ _ _ Hw).
Qed.

Lemma files_fs_mkdir p : steps (onFiles Q) (fs_mkdir E p).
Proof.
  intros w. unfold fs_mkdir.
  destruct (Fs.mkdir_recursive _ _ _ _) eqn:Hw; [|apply onFiles_refl].
  exact (Q_mkdir _ _ _ _ _ Hw).
Qed.

Lemma files_models_generateContent params :
  steps (onFiles Q) (models_generateContent E params).
Proof.
  intros w. unfold models_generateContent. destruct (genAI w); exact (Q_refl _).
Qed.

Lemma files_saveImage dir prefix d : steps (onFiles Q) (saveImage E dir prefix d).
Proof. unfold saveImage. files_auto. apply files_fs_writeFile. Qed.

Lemma files_processPart dir prefix l part :
  steps (onFiles Q) (processPart E dir prefix l part).
Proof. unfold processPart. files_auto. apply files_saveImage. Qed.

Lemma files_forParts dir prefix ps : forall l, steps (onFiles Q) (forParts E dir prefix ps l).
Proof.
  induction ps as [|p ps IH]; intros l; cbn [forParts].
  - apply (steps_ret _ onFiles_refl).
  - files_auto; [apply files_processPart | apply IH].
Qed.

Lemma files_buildImageResponse response prefix prompt warnings :
  steps (onFiles Q) (buildImageResponse E response prefix prompt warnings).
Proof.
  unfold buildImageResponse, reassemble. files_auto;
    [apply files_fs_mkdir | apply files_forParts].
Qed.

Lemma files_generateImage a : steps (onFiles Q) (generateImage E a).
Proof.
  unfold generateImage. files_auto;
    [apply files_models_generateContent | apply files_buildImageResponse].
Qed.

Lemma files_editImage a : steps (onFiles Q) (editImage E a).
Proof.
  unfold editImage. files_auto;
    try apply files_models_generateContent; apply files_buildImageResponse.
Qed.

Lemma files_continueEditing a : steps (onFiles Q) (continueEditing E a).
Proof. unfold continueEditing. files_auto. apply files_editImage. Qed.

Lemma files_configureGeminiToken key : steps (onFiles Q) (configureGeminiToken E key).
Proof.
  unfold configureGeminiToken, saveConfig. files_auto. apply files_fs_writeFile.
Qed.

Lemma files_callTool r w : onFiles Q w (snd (callTool E r w)).
Proof.
  rewrite callTool_world. destruct r as [key|a|a| |a| |name]; cbn [dispatch].
  - apply files_configureGeminiToken.
  - apply files_generateImage.
  - apply files_editImage.
  - assert (H : fs (snd (getConfigurationStatus w)) = fs w)
      by now apply (keeps_getConfigurationStatus fs).
    unfold onFiles. rewrite H. apply Q_refl.
  - apply files_continueEditing.
  - assert (H : fs (snd (getLastImageInfo E w)) = fs w)
      by now apply (keeps_getLastImageInfo fs).
    unfold onFiles. rewrite H. apply Q_refl.
  - apply onFiles_refl.
Qed.

Lemma files_serve rs : forall w, onFiles Q w (serve E rs w).
Proof.
  induction rs as [|r rs IH]; intros w; [apply onFiles_refl|].
  cbn [serve]. exact (onFiles_trans _ _ _ (files_callTool r w) (IH _)).
Qed.

End OnFiles.

Lemma grows_callTool E r w : extends (fs w) (fs (snd (callTool E r w))).
Proof.
  exact (files_callTool extends extends_refl extends_trans writeFile_extends
                        mkdir_recursive_extends E r w).
Qed.

Lemma grows_serve E rs w : extends (fs w) (fs (serve E rs w)).
Proof.
  exact (files_serve extends extends_refl extends_trans writeFile_extends
                     mkdir_recursive_extends E rs w).
Qed.

(** X7.  The server adds files and directories and never takes one
    away.  Over any sequence of requests, from any state: a directory
    that existed is still there, unchanged; a file that existed is
    still a file (it may have been overwritten).  So whatever
    [fs.stat] found before, it finds after, of the same kind, and
    whatever could be read can still be read. *)
Theorem server_never_removes (E : Env) (rs : list ToolRequest) (w : World) :
  let w' := serve E rs w in
  extends (fs w) (fs w')
  /\ (forall p i, Fs.stat (fs w) (cwd E) p = Done i ->
        exists i', Fs.stat (fs w') (cwd E) p = Done i' /\ isDirectory i' = isDirectory i)
  /\ (forall p content, Fs.readFile (fs w) (cwd E) p = Done content ->
        exists content', Fs.readFile (fs w') (cwd E) p = Done content').
Proof.
  cbv zeta. pose proof (grows_serve E rs w) as H.
  split; [exact H|]. split.
  - intros p i. apply (lookup_extends _ _ H).
  - intros p content. apply (readFile_extends _ _ H).
Qed.

(** * Further properties: the last image of the session *)

Lemma readFile_done m cwd0 p content :
  Fs.readFile m cwd0 p = Done content ->
  p <> "" /\ exists i, Fs.lookup m cwd0 p = Done i /\ isDirectory i = false
                       /\ data i = content.
Proof.
  unfold Fs.readFile. destruct (Fs.lookup m cwd0 p) as [i|e] eqn:Hl; [|discriminate].
  destruct (isDirectory i) eqn:Hd; [discriminate|]. intros H. injection H as <-.
  split; [|now exists i]. intros ->. discriminate Hl.
Qed.

Section LastImage.

Variable E : Env.

Lemma callTool_follows r w : lastFollowsWrite E w (snd (callTool E r w)).
Proof.
  rewrite callTool_world. destruct r as [key|a|a| |a| |name]; cbn [dispatch].
  - left. destruct (Js.truthy key) eqn:Ht.
    + rewrite (configureGeminiToken_nonempty E key w Ht).
      destruct (Fs.writeFile _ _ _ _ _); reflexivity.
    + destruct key; [reflexivity | discriminate].
  - apply generateImage_follows.
  - apply editImage_follows.
  - left. now apply (keeps_getConfigurationStatus lastImagePath).
  - destruct (continueEditing_cases E a w) as [H|[H|[(p & _ & H)|(p & _ & _ & H)]]];
      rewrite H; try (now left).
    apply editImage_follows.
  - left. now apply (keeps_getLastImageInfo lastImagePath).
  - now left.
Qed.

Lemma tracked_callTool r w : tracked E w -> tracked E (snd (callTool E r w)).
Proof.
  intros Hw. destruct (callTool_follows r w) as [Hsame|Hnew]; [|now right].
  destruct Hw as [Hnone|(p & content & Hp & Hr)].
  - left. congruence.
  - right. destruct (readFile_extends _ _ (grows_callTool E r w) _ _ _ Hr) as [c' Hc'].
    exists p, c'. split; [congruence | exact Hc'].
Qed.

Lemma tracked_serve rs : forall w, tracked E w -> tracked E (serve E rs w).
Proof.
  induction rs as [|r rs IH]; intros w H; [exact H|].
  cbn [serve]. apply IH. now apply tracked_callTool.
Qed.

Lemma tracked_run m : tracked E (run E m).
Proof.
  left. destruct (loadConfig_fresh E m) as [_ [(k & _ & _ & ->)|[(k & _ & _ & ->)|[_ ->]]]];
    reflexivity.
Qed.

Lemma tracked_continueEditing a w :
  tracked E w ->
  continueEditing E a w = (Throw NOT_CONFIGURED, w)
  \/ continueEditing E a w = (Throw NO_PREVIOUS_IMAGE, w)
  \/ exists p, lastImagePath w = Some p
               /\ continueEditing E a w
                  = editImage E (mkEditArgs p (cont_prompt a) (cont_referenceImages a)
                                            (cont_model a)) w.
Proof.
  intros Hw.
  destruct (continueEditing_cases E a w) as [H|[H|[(p & Hp & H)|(p & Hp & _ & H)]]];
    [now left | now right; left | | right; right; now exists p].
  destruct (configured w) eqn:Hc; [|left; now apply continueEditing_unconfigured].
  destruct Hw as [Hnone|(q & content & Hq & Hr)]; [congruence|].
  assert (q = p) as -> by congruence.
  destruct (readFile_done _ _ _ _ Hr) as (Hne & i & Hl & _).
  right; right. exists p. split; [exact Hp|].
  rewrite (continueEditing_with_image E a w p Hc Hp (proj2 (truthy_nonempty p) Hne)).
  unfold Fs.access. now rewrite Hl.
Qed.

Lemma tracked_getLastImageInfo w :
  tracked E w ->
  match lastImagePath w with
  | None => getLastImageInfo E w = (Ok (mkResult [TextItem NO_IMAGE_YET_TEXT]), w)
  | Some p =>
      exists stats,
        Fs.stat (fs w) (cwd E) p = Done stats /\ isDirectory stats = false
        /\ getLastImageInfo E w = (Ok (mkResult [TextItem (LAST_IMAGE_TEXT p stats)]), w)
  end.
Proof.
  intros [Hnone|(p & content & Hp & Hr)].
  - rewrite Hnone. apply getLastImageInfo_none. unfold holdsLastImage. now rewrite Hnone.
  - rewrite Hp. destruct (readFile_done _ _ _ _ Hr) as (Hne & i & Hl & Hd & _).
    exists i. split; [exact Hl|]. split; [exact Hd|].
    rewrite (getLastImageInfo_some E w p Hp (proj2 (truthy_nonempty p) Hne)).
    unfold Fs.access, Fs.stat. now rewrite Hl.
Qed.

End LastImage.

(** X8.  The server never loses track of its last image by its own
    doing.  In every state reached from startup by any requests, the
    session holds no last image, or the path it holds can be read.
    Hence [continue_editing] then has three outcomes only: the
    not-configured error, the no-previous-image error, or [editImage]
    on the recorded path; and [get_last_image_info] answers
    "No previous image found" exactly when nothing is recorded, and
    with the size and date of a regular file otherwise.  The
    missing-file branches of both tools are not reached through the
    server's own requests. *)
Theorem last_image_stays_readable (E : Env) (m : FsMap) (rs : list ToolRequest) :
  let w := serve E rs (run E m) in
  tracked E w
  /\ (forall a,
        continueEditing E a w = (Throw NOT_CONFIGURED, w)
        \/ continueEditing E a w = (Throw NO_PREVIOUS_IMAGE, w)
        \/ exists p, lastImagePath w = Some p
                     /\ continueEditing E a w
                        = editImage E (mkEditArgs p (cont_prompt a) (cont_referenceImages a)
                                                  (cont_model a)) w)
  /\ match lastImagePath w with
     | None => getLastImageInfo E w = (Ok (mkResult [TextItem NO_IMAGE_YET_TEXT]), w)
     | Some p =>
         exists stats,
           Fs.stat (fs w) (cwd E) p = Done stats /\ isDirectory stats = false
           /\ getLastImageInfo E w
              = (Ok (mkResult [TextItem (LAST_IMAGE_TEXT p stats)]), w)
     end.
Proof.
  cbv zeta. pose proof (tracked_serve E rs _ (tracked_run E m)) as H.
  split; [exact H|]. split.
  - intros a. now apply tracked_continueEditing.
  - now apply tracked_getLastImageInfo.
Qed.

(** * Further properties: paths and extensions *)

Lemma slashFree_app a b : slashFree (a +:+ b) = (slashFree a && slashFree b)%bool.
Proof.
  induction a as [|c a IH]; [reflexivity|].
  change (slashFree (String c (a +:+ b)) = (slashFree (String c a) && slashFree b)%bool).
  cbn [slashFree]. now rewrite IH, andb_assoc.
Qed.

Lemma slashFree_rev_app a : forall b,
  slashFree (String.rev_app a b) = (slashFree a && slashFree b)%bool.
Proof.
  induction a as [|c a IH]; intros b; [reflexivity|].
  cbn [String.rev_app slashFree]. rewrite IH. cbn [slashFree].
  destruct (Ascii.eqb c "/"), (slashFree a), (slashFree b); reflexivity.
Qed.

Lemma split_go_free s : forall cur,
  slashFree s = true -> Path.split_go cur s = [String.rev_app cur s].
Proof.
  induction s as [|c s IH]; intros cur H; [reflexivity|].
  cbn [slashFree] in H. apply andb_true_iff in H as [Hc Hs].
  apply negb_true_iff in Hc. cbn [Path.split_go]. rewrite Hc. exact (IH _ Hs).
Qed.

Lemma split_free s : slashFree s = true -> Path.split s = [s].
Proof. intros H. unfold Path.split. now rewrite (split_go_free s "" H). Qed.

Lemma split_go_slash a b : forall cur,
  Path.split_go cur (a +:+ "/" +:+ b)
  = (Path.split_go cur a ++ Path.split_go "" b)%list.
Proof.
  induction a as [|c a IH]; intros cur; [reflexivity|].
  change (String c a +:+ "/" +:+ b) with (String c (a +:+ "/" +:+ b)).
  cbn [Path.split_go]. destruct (Ascii.eqb c "/"); [now rewrite IH | apply IH].
Qed.

Lemma split_slash a b : Path.split (a +:+ "/" +:+ b) = (Path.split a ++ Path.split b)%list.
Proof. apply split_go_slash. Qed.

Lemma split_go_segments_free s : forall cur,
  slashFree cur = true -> Forall (fun x => slashFree x = true) (Path.split_go cur s).
Proof.
  induction s as [|c s IH]; intros cur H; cbn [Path.split_go].
  - constructor; [|constructor]. unfold String.rev. now rewrite slashFree_rev_app, H.
  - destruct (Ascii.eqb c "/") eqn:Hc.
    + constructor; [|now apply IH]. unfold String.rev. now rewrite slashFree_rev_app, H.
    + apply IH. cbn [slashFree]. now rewrite Hc, H.
Qed.

Lemma split_last_free q xs s : Path.split q = (xs ++ [s])%list -> slashFree s = true.
Proof.
  intros H. pose proof (split_go_segments_free q "" eq_refl) as Hall.
  unfold Path.split in H. rewrite H in Hall.
  apply Forall_app in Hall as [_ Hs]. now inversion Hs.
Qed.

Lemma proper_name_spec s :
  Fs.proper_name s = true <-> s <> "" /\ s <> "." /\ s <> "..".
Proof.
  unfold Fs.proper_name. rewrite negb_true_iff, !orb_false_iff, !String.eqb_neq. tauto.
Qed.

Lemma normalize_go_snoc b s xs :
  Fs.proper_name s = true -> forall acc,
  Path.normalize_go b acc (xs ++ [s]) = (Path.normalize_go b acc xs ++ [s])%list.
Proof.
  intros Hs. apply proper_name_spec in Hs as (H1 & H2 & H3).
  apply String.eqb_neq in H1, H2, H3.
  induction xs as [|x xs IH]; intros acc.
  - cbn [app Path.normalize_go]. now rewrite H1, H2, H3.
  - cbn [app Path.normalize_go].
    destruct (String.eqb x "" || String.eqb x ".")%bool; [apply IH|].
    destruct (String.eqb x ".."); [|apply IH].
    destruct acc as [|top below]; [destruct b; apply IH|].
    destruct (String.eqb top ".."); apply IH.
Qed.

Lemma hasLastSegment_join s ys : hasLastSegment s (Js.join "/" (ys ++ [s])).
Proof.
  induction ys as [|y ys IH]; [now left|]. right.
  destruct ys as [|y' ys].
  - exists y. reflexivity.
  - change (Js.join "/" ((y :: y' :: ys) ++ [s]))
      with (y +:+ "/" +:+ Js.join "/" ((y' :: ys) ++ [s])).
    destruct IH as [->|[q ->]].
    + exists y. reflexivity.
    + exists (y +:+ "/" +:+ q). now rewrite !append_assoc.
Qed.

Lemma hasLastSegment_slash s t : hasLastSegment s t -> hasLastSegment s ("/" +:+ t).
Proof.
  intros [->|[q ->]]; right; [now exists "" | now exists ("/" +:+ q)].
Qed.

Lemma hasLastSegment_split s t :
  hasLastSegment s t -> slashFree s = true ->
  exists xs, Path.split t = (xs ++ [s])%list.
Proof.
  intros [->|[q ->]] Hs.
  - exists []. now apply split_free.
  - exists (Path.split q). now rewrite split_slash, (split_free s Hs).
Qed.

Lemma hasLastSegment_nonempty s t : hasLastSegment s t -> s <> "" -> t <> "".
Proof.
  intros [->|[q ->]] Hs; [exact Hs|]. now destruct q.
Qed.

Lemma last_nonempty_snoc s xs : s <> "" -> forall d, Path.last_nonempty d (xs ++ [s]) = s.
Proof.
  intros Hs. apply String.eqb_neq in Hs.
  induction xs as [|x xs IH]; intros d; cbn [app Path.last_nonempty]; [now rewrite Hs | apply IH].
Qed.

Lemma split_last q xs s :
  Path.split q = (xs ++ [s])%list -> List.last (Path.split q) "" = s.
Proof. intros ->. apply last_last. Qed.

Lemma lastPortion_last q xs s :
  Path.split q = (xs ++ [s])%list -> s <> "" -> Path.lastPortion q = s.
Proof. intros H Hs. unfold Path.lastPortion. rewrite H. now apply last_nonempty_snoc. Qed.

Lemma extname_last q xs s :
  Path.split q = (xs ++ [s])%list -> Fs.proper_name s = true ->
  Path.extname q = Path.ext_go true "" s.
Proof.
  intros H Hs. apply proper_name_spec in Hs as (H1 & _ & H3).
  unfold Path.extname. rewrite (lastPortion_last q xs s H H1).
  apply String.eqb_neq in H3. now rewrite H3.
Qed.

(** A path whose last segment is a name resolves to a path with that
    last segment. *)
Lemma resolve_last cwd0 q xs s :
  Path.split q = (xs ++ [s])%list -> Fs.proper_name s = true ->
  hasLastSegment s (Path.resolve cwd0 q).
Proof.
  intros H Hs. unfold Path.resolve, Path.render. apply hasLastSegment_slash.
  unfold Path.resolve_segments, Path.normalizeString.
  destruct (Path.isAbsolute q).
  - rewrite H, (normalize_go_snoc _ _ _ Hs). apply hasLastSegment_join.
  - rewrite split_slash, H, app_assoc, (normalize_go_snoc _ _ _ Hs).
    apply hasLastSegment_join.
Qed.

Lemma extname_resolve cwd0 q xs s :
  Path.split q = (xs ++ [s])%list -> Fs.proper_name s = true ->
  Path.extname (Path.resolve cwd0 q) = Path.extname q.
Proof.
  intros H Hs. rewrite (extname_last q xs s H Hs).
  destruct (hasLastSegment_split s _ (resolve_last cwd0 q xs s H Hs)
                                 (split_last_free q xs s H)) as [ys Hys].
  exact (extname_last _ ys s Hys Hs).
Qed.

Lemma endsWithSlash_split p : forall cur,
  Path.endsWithSlash p = true -> exists xs, Path.split_go cur p = (xs ++ [""])%list.
Proof.
  induction p as [|c r IH]; intros cur H; [discriminate|].
  destruct r as [|c' r].
  - cbn in H. cbn [Path.split_go]. rewrite H. now exists [String.rev cur].
  - change (Path.endsWithSlash (String c' r) = true) in H. cbn [Path.split_go].
    destruct (Ascii.eqb c "/").
    + destruct (IH "" H) as [xs Hxs]. exists (String.rev cur :: xs).
      cbn [Path.split_go] in Hxs. now rewrite Hxs.
    + exact (IH _ H).
Qed.

Lemma split_last_not_slash q xs s :
  Path.split q = (xs ++ [s])%list -> s <> "" -> Path.endsWithSlash q = false.
Proof.
  intros H Hs. destruct (Path.endsWithSlash q) eqn:He; [|reflexivity].
  destruct (endsWithSlash_split q "" He) as [ys Hys]. unfold Path.split in H.
  rewrite Hys in H. apply app_inj_tail in H as [_ H]. congruence.
Qed.

(** Normalising keeps a last segment that is a name. *)
Lemma normalize_last q xs s :
  Path.split q = (xs ++ [s])%list -> Fs.proper_name s = true ->
  hasLastSegment s (Path.normalize q).
Proof.
  intros H Hs. pose proof (proj1 (proper_name_spec s) Hs) as (H1 & _ & _).
  unfold Path.normalize.
  assert (Hq : String.eqb q "" = false).
  { apply String.eqb_neq. intros ->. destruct xs as [|x [|x' xs]]; cbn in H; congruence. }
  rewrite Hq. cbv zeta. unfold Path.normalizeString.
  rewrite H, (normalize_go_snoc _ _ _ Hs), (split_last_not_slash q xs s H H1).
  pose proof (hasLastSegment_join s (Path.normalize_go (negb (Path.isAbsolute q)) [] xs))
    as Hb.
  pose proof (hasLastSegment_nonempty _ _ Hb H1) as Hne.
  apply String.eqb_neq in Hne. rewrite Hne.
  destruct (Path.isAbsolute q); [now apply hasLastSegment_slash | exact Hb].
Qed.

Lemma join_dir_name dir name :
  slashFree name = true -> Fs.proper_name name = true ->
  hasLastSegment name (Path.join [dir; name]).
Proof.
  intros Hf Hp. pose proof (proj1 (proper_name_spec name) Hp) as (H1 & _ & _).
  assert (Ht : Js.truthy name = true) by now apply truthy_nonempty.
  unfold Path.join. rewrite !filter_cons, filter_nil.
  destruct (decide (Js.truthy name = true)) as [_|Hn]; [|congruence].
  destruct (decide (Js.truthy dir = true)) as [_|_].
  - apply (normalize_last _ (Path.split dir) name); [|exact Hp].
    change (Js.join "/" [dir; name]) with (dir +:+ "/" +:+ name).
    now rewrite split_slash, (split_free name Hf).
  - apply (normalize_last _ [] name); [|exact Hp]. now apply split_free.
Qed.

Lemma slashFree_replace s : slashFree (Js.replace_colon_dot s) = slashFree s.
Proof.
  induction s as [|c s IH]; [reflexivity|]. cbn [Js.replace_colon_dot slashFree].
  rewrite IH. f_equal. f_equal.
  destruct (Ascii.eqb_spec c ":") as [->|_]; [reflexivity|].
  destruct (Ascii.eqb_spec c ".") as [->|_]; reflexivity.
Qed.

Lemma slashFree_substring s : forall a l,
  slashFree s = true -> slashFree (String.substring a l s) = true.
Proof.
  induction s as [|c s IH]; intros a l H.
  - destruct a, l; reflexivity.
  - cbn [slashFree] in H. apply andb_true_iff in H as [Hc Hs].
    destruct a as [|a]; [destruct l as [|l]|]; cbn [String.substring slashFree].
    + reflexivity.
    + rewrite Hc. now apply IH.
    + now apply IH.
Qed.

Lemma ext_go_png x : forall best, Path.ext_go false best (x +:+ ".png") = ".png".
Proof.
  induction x as [|c x IH]; intros best; [reflexivity|].
  change (String c x +:+ ".png") with (String c (x +:+ ".png")). cbn [Path.ext_go].
  destruct (Ascii.eqb c "." && negb false)%bool; apply IH.
Qed.

Lemma ext_go_png_first c x : Path.ext_go true "" (String c x +:+ ".png") = ".png".
Proof.
  change (String c x +:+ ".png") with (String c (x +:+ ".png")). cbn [Path.ext_go].
  rewrite andb_false_r. apply ext_go_png.
Qed.

Lemma proper_name_png c x : Fs.proper_name (String c x +:+ ".png") = true.
Proof.
  apply proper_name_spec.
  change (String c x +:+ ".png") with (String c (x +:+ ".png")).
  repeat split; try discriminate.
  - destruct x as [|c1 x]; discriminate.
  - destruct x as [|c1 [|c2 x]]; discriminate.
Qed.

Section SavedNames.

Variable E : Env.
Variable prefix : string.
Variable n : nat.

Hypothesis prefix_free : slashFree prefix = true.
Hypothesis clock_free : slashFree (toISOString E n) = true.
Hypothesis random_free : slashFree (random36 E n) = true.

Lemma imageFileName_stem :
  exists c x, imageFileName E prefix n = String c x +:+ ".png".
Proof.
  unfold imageFileName. destruct prefix as [|c p].
  - exists "-"%char. eexists. change ("" +:+ "-" +:+ ?a) with (String "-" a).
    rewrite <- !append_assoc. reflexivity.
  - exists c. eexists.
    change (String c p +:+ ?a) with (String c (p +:+ a)).
    change (String c (p +:+ ?a +:+ ".png")) with (String c p +:+ a +:+ ".png").
    rewrite <- !append_assoc. reflexivity.
Qed.

Lemma imageFileName_free : slashFree (imageFileName E prefix n) = true.
Proof.
  unfold imageFileName, Js.substring.
  rewrite !slashFree_app, slashFree_replace, prefix_free, clock_free.
  now rewrite (slashFree_substring _ 2 (8 - 2) random_free).
Qed.

Lemma imagePathAt_name :
  hasLastSegment (imageFileName E prefix n) (imagePathAt E prefix n).
Proof.
  change (imagePathAt E prefix n)
    with (Path.join [getImagesDirectory E; imageFileName E prefix n]).
  apply join_dir_name; [apply imageFileName_free|].
  destruct imageFileName_stem as (c & x & ->). apply proper_name_png.
Qed.

End SavedNames.

(** The path of a saved image, cut at its slashes, ends in the name
    made up for it, and that name carries the extension [.png]. *)
Lemma imagePathAt_split (E : Env) (prefix : string) (n : nat) :
  slashFree prefix = true ->
  slashFree (toISOString E n) = true ->
  slashFree (random36 E n) = true ->
  exists xs,
    Path.split (imagePathAt E prefix n) = (xs ++ [imageFileName E prefix n])%list
    /\ Fs.proper_name (imageFileName E prefix n) = true
    /\ Path.ext_go true "" (imageFileName E prefix n) = ".png".
Proof.
  intros Hp Hc Hr.
  pose proof (imagePathAt_name E prefix n Hp Hc Hr) as Hlast.
  pose proof (imageFileName_free E prefix n Hp Hc Hr) as Hfree.
  destruct (imageFileName_stem E prefix n Hp) as (c & x & Hname).
  destruct (hasLastSegment_split _ _ Hlast Hfree) as [xs Hxs].
  exists xs. split; [exact Hxs|]. rewrite Hname.
  split; [apply proper_name_png | apply ext_go_png_first].
Qed.

Lemma imagePathAt_accepted (E : Env) (prefix : string) (n : nat) :
  slashFree prefix = true ->
  slashFree (toISOString E n) = true ->
  slashFree (random36 E n) = true ->
  Js.includes ALLOWED_IMAGE_EXTENSIONS
    (Js.toLowerCase (Path.extname (Path.resolve (cwd E) (imagePathAt E prefix n)))) = true
  /\ getMimeType (imagePathAt E prefix n) = "image/png".
Proof.
  intros Hp Hc Hr. destruct (imagePathAt_split E prefix n Hp Hc Hr) as (xs & Hxs & Hn & He).
  unfold getMimeType.
  now rewrite (extname_resolve (cwd E) _ xs _ Hxs Hn), (extname_last _ xs _ Hxs Hn), He.
Qed.

(** X9.  A saved image is a [.png] file, whatever the response said
    its type was.  When the prefix, the clock string and the random
    string hold no ['/'] (as "generated", "edited", an ISO date and a
    base-36 fraction do), the path [saveImage] writes to ends in the
    file name it made up, directly under a directory; its extension is
    [.png], before and after resolving; so the validator accepts the
    extension and [getMimeType] gives [image/png] when the image is
    later edited. *)
Theorem saved_image_is_png (E : Env) (prefix : string) (n : nat) :
  slashFree prefix = true ->
  slashFree (toISOString E n) = true ->
  slashFree (random36 E n) = true ->
  let p := imagePathAt E prefix n in
  hasLastSegment (imageFileName E prefix n) p
  /\ Path.extname p = ".png"
  /\ Path.extname (Path.resolve (cwd E) p) = ".png"
  /\ Js.includes ALLOWED_IMAGE_EXTENSIONS
       (Js.toLowerCase (Path.extname (Path.resolve (cwd E) p))) = true
  /\ getMimeType p = "image/png".
Proof.
  intros Hp Hc Hr. cbv zeta.
  destruct (imagePathAt_split E prefix n Hp Hc Hr) as (xs & Hxs & Hproper & Hpng).
  assert (Hext : Path.extname (imagePathAt E prefix n) = ".png")
    by now rewrite (extname_last _ xs _ Hxs Hproper).
  assert (Hres : Path.extname (Path.resolve (cwd E) (imagePathAt E prefix n)) = ".png")
    by now rewrite (extname_resolve (cwd E) _ xs _ Hxs Hproper).
  split; [exact (imagePathAt_name E prefix n Hp Hc Hr)|].
  split; [exact Hext|]. split; [exact Hres|].
  split; [now rewrite Hres|]. unfold getMimeType. now rewrite Hext.
Qed.

Lemma saved_image_is_png_witness :
  let E := Demo.env None (Demo.always (Ok Demo.twoImages)) in
  imagePathAt E "generated" 0 = Demo.firstImage
  /\ Path.extname (imagePathAt E "generated" 0) = ".png"
  /\ getMimeType (imagePathAt E "generated" 0) = "image/png".
Proof.
  cbv zeta. split; [reflexivity|].
  pose proof (saved_image_is_png (Demo.env None (Demo.always (Ok Demo.twoImages)))
                "generated" 0 eq_refl eq_refl eq_refl) as H.
  cbv zeta in H. split; [exact (proj1 (proj2 H)) | exact (proj2 (proj2 (proj2 (proj2 H))))].
Defined.

(** * Further properties: the file that is validated and the file that is read *)

Lemma read_names_file m cwd0 p content :
  wellFormed m -> Fs.readFile m cwd0 p = Done content ->
  Fs.proper_name (List.last (Path.split p) "") = true.
Proof.
  intros Hwf Hr. destruct (readFile_done _ _ _ _ Hr) as (Hne & i & Hl & Hd & _).
  unfold Fs.lookup in Hl. apply String.eqb_neq in Hne. rewrite Hne in Hl.
  assert (Hs : Path.split p = (removelast (Path.split p) ++ [List.last (Path.split p) ""])%list)
    by (apply app_removelast_last, split_go_nonempty).
  set (s := List.last (Path.split p) "") in *. rewrite Hs, walk_app in Hl.
  destruct (Fs.walk m _ (removelast _)) as [d|e]; [|discriminate].
  cbn [Fs.walk] in Hl. destruct (Fs.as_dir m d) as [[]|e] eqn:Ha; [|discriminate].
  destruct (Fs.inode_at m (Fs.enter d s)) as [j|] eqn:Hj; [|discriminate].
  injection Hl as ->.
  destruct (Fs.proper_name s) eqn:Hp; [reflexivity|exfalso].
  assert (Hdir : forall at_, Fs.as_dir m at_ = Done tt ->
                             Fs.inode_at m at_ = Some i -> False).
  { intros at_ H1 H2. unfold Fs.as_dir in H1. rewrite H2, Hd in H1. discriminate. }
  unfold Fs.proper_name in Hp. apply negb_false_iff in Hp.
  unfold Fs.enter in Hj.
  destruct (String.eqb s "" || String.eqb s ".")%bool eqn:H1.
  - exact (Hdir d Ha Hj).
  - cbn [orb] in Hp. rewrite Hp in Hj.
    destruct d as [|x d]; [exact (Hdir [] Ha Hj)|].
    unfold Fs.as_dir, Fs.inode_at in Ha.
    destruct (m !! (x :: d)) as [k|] eqn:Hk; [|discriminate].
    exact (Hdir _ (proj2 (Hwf _ _ Hk)) Hj).
Qed.

(** X10.  The MIME type sent for an image comes from the extension
    that was validated.  The validator looks at the extension of the
    resolved path, [getMimeType] at the extension of the path as
    given.  On a disk that is a tree, for a path that passed
    validation and could be read, the two extensions are the same, so
    the type is the one of an allowed extension: [image/jpeg] for
    [.jpg] and [.jpeg], [image/png], [image/webp], [image/gif].  The
    fallback of [getMimeType] is never what is sent. *)
Theorem mime_type_of_validated_image (E : Env) (p : string) (w : World)
        (content : string) :
  wellFormed (fs w) ->
  fst (validateImagePath E p w) = Ok tt ->
  Fs.readFile (fs w) (cwd E) p = Done content ->
  Path.extname (Path.resolve (cwd E) p) = Path.extname p
  /\ ((Js.toLowerCase (Path.extname p) = ".jpg" /\ getMimeType p = "image/jpeg")
      \/ (Js.toLowerCase (Path.extname p) = ".jpeg" /\ getMimeType p = "image/jpeg")
      \/ (Js.toLowerCase (Path.extname p) = ".png" /\ getMimeType p = "image/png")
      \/ (Js.toLowerCase (Path.extname p) = ".webp" /\ getMimeType p = "image/webp")
      \/ (Js.toLowerCase (Path.extname p) = ".gif" /\ getMimeType p = "image/gif")).
Proof.
  intros Hwf Hv Hr.
  pose proof (read_names_file _ _ _ _ Hwf Hr) as Hp.
  assert (Hs : Path.split p = (removelast (Path.split p) ++ [List.last (Path.split p) ""])%list)
    by (apply app_removelast_last, split_go_nonempty).
  pose proof (extname_resolve (cwd E) p _ _ Hs Hp) as Hext.
  split; [exact Hext|].
  assert (Hin : Js.includes ALLOWED_IMAGE_EXTENSIONS (Js.toLowerCase (Path.extname p)) = true).
  { rewrite <- Hext.
    destruct (Js.includes ALLOWED_IMAGE_EXTENSIONS _) eqn:Hi; [reflexivity|].
    destruct (validate_bad_extension E p w Hi) as [msg Hbad].
    rewrite Hbad in Hv. discriminate. }
  unfold getMimeType. cbv zeta.
  unfold Js.includes, ALLOWED_IMAGE_EXTENSIONS in Hin. cbn [existsb] in Hin.
  destruct (String.eqb_spec (Js.toLowerCase (Path.extname p)) ".jpg") as [H|_]; [now left|].
  destruct (String.eqb_spec (Js.toLowerCase (Path.extname p)) ".jpeg") as [H|_];
    [right; now left|].
  destruct (String.eqb_spec (Js.toLowerCase (Path.extname p)) ".png") as [H|_];
    [right; right; now left|].
  destruct (String.eqb_spec (Js.toLowerCase (Path.extname p)) ".webp") as [H|_];
    [right; right; right; now left|].
  destruct (String.eqb_spec (Js.toLowerCase (Path.extname p)) ".gif") as [H|_];
    [right; right; right; now right|].
  discriminate.
Qed.

Lemma demo_disk_wellFormed : wellFormed Demo.disk.
Proof.
  intros k i H. unfold Demo.disk in H. cbn [list_to_map foldr] in H.
  repeat (apply lookup_insert_Some in H as [[<- _]|[_ H]];
          [split; [discriminate | reflexivity]|]).
  now rewrite lookup_empty in H.
Qed.

Lemma mime_type_of_validated_image_witness :
  let E := Demo.env None (Demo.always (Ok Demo.textOnly)) in
  Path.extname (Path.resolve "/work" "./edge.PNG") = Path.extname "./edge.PNG"
  /\ getMimeType "./edge.PNG" = "image/png".
Proof.
  cbv zeta.
  pose proof (mime_type_of_validated_image
                (Demo.env None (Demo.always (Ok Demo.textOnly))) "./edge.PNG"
                (fresh Demo.disk) "EDGE" demo_disk_wellFormed eq_refl eq_refl) as [H _].
  split; [exact H | reflexivity].
Defined.

Lemma normalize_go_all (P : string -> Prop) b segs : forall acc,
  Forall P acc -> Forall P segs -> Forall P (Path.normalize_go b acc segs).
Proof.
  induction segs as [|s r IH]; intros acc Hacc Hsegs; cbn [Path.normalize_go].
  - now apply Forall_rev.
  - inversion Hsegs as [|? ? Hs Hr]; subst.
    destruct (String.eqb s "" || String.eqb s ".")%bool; [now apply IH|].
    destruct (String.eqb s "..").
    + destruct acc as [|top below].
      * destruct b; apply IH; auto.
      * inversion Hacc; subst. destruct (String.eqb top ".."); apply IH; auto.
    + apply IH; auto.
Qed.

Lemma normalize_go_proper segs : forall acc,
  Forall (fun s => Fs.proper_name s = true) acc ->
  Forall (fun s => Fs.proper_name s = true) (Path.normalize_go false acc segs).
Proof.
  induction segs as [|s r IH]; intros acc Hacc; cbn [Path.normalize_go].
  - now apply Forall_rev.
  - destruct (String.eqb s "" || String.eqb s ".")%bool eqn:H1; [now apply IH|].
    destruct (String.eqb s "..") eqn:H2.
    + destruct acc as [|top below]; [now apply IH|].
      inversion Hacc as [|? ? Htop Hbelow]; subst.
      apply proper_name_spec in Htop as (_ & _ & Htop). apply String.eqb_neq in Htop.
      rewrite Htop. now apply IH.
    + apply IH. constructor; [|exact Hacc].
      unfold Fs.proper_name. now rewrite H1, H2.
Qed.

Lemma normalize_go_app b xs ys : forall acc,
  Path.normalize_go b acc (xs ++ ys)
  = Path.normalize_go b (rev (Path.normalize_go b acc xs)) ys.
Proof.
  induction xs as [|x xs IH]; intros acc; cbn [app Path.normalize_go].
  - now rewrite rev_involutive.
  - destruct (String.eqb x "" || String.eqb x ".")%bool; [apply IH|].
    destruct (String.eqb x ".."); [|apply IH].
    destruct acc as [|top below]; [destruct b; apply IH|].
    destruct (String.eqb top ".."); apply IH.
Qed.

(** The kernel's walk and [path.resolve] agree on where a path leads. *)
Lemma walk_normalize m segs : forall at_ d,
  Forall (fun s => Fs.proper_name s = true) at_ ->
  Fs.walk m at_ segs = Done d -> d = Path.normalize_go false (rev at_) segs.
Proof.
  induction segs as [|s r IH]; intros at_ d Hat H; cbn [Fs.walk Path.normalize_go] in *.
  - injection H as <-. now rewrite rev_involutive.
  - destruct (Fs.as_dir m at_); [|discriminate]. unfold Fs.enter in H.
    destruct (String.eqb s "" || String.eqb s ".")%bool eqn:H1; [now apply IH|].
    destruct (String.eqb s "..") eqn:H2.
    + destruct at_ as [|t xs _] using rev_ind; [now apply (IH [])|].
      rewrite removelast_last in H. rewrite rev_unit.
      apply Forall_app in Hat as [Hxs Ht]. inversion Ht as [|? ? Hp _]; subst.
      apply proper_name_spec in Hp as (_ & _ & Hp). apply String.eqb_neq in Hp.
      rewrite Hp. now apply IH.
    + rewrite <- rev_unit. apply IH; [|exact H].
      apply Forall_app. split; [exact Hat|]. constructor; [|constructor].
      unfold Fs.proper_name. now rewrite H1, H2.
Qed.

Lemma start_proper cwd0 p : Forall (fun s => Fs.proper_name s = true) (Fs.start cwd0 p).
Proof.
  unfold Fs.start. destruct (Path.isAbsolute p); [constructor|].
  apply normalize_go_proper. constructor.
Qed.

Lemma walk_resolve m cwd0 p d :
  Fs.walk m (Fs.start cwd0 p) (Path.split p) = Done d -> d = Path.resolve_segments cwd0 p.
Proof.
  intros H. apply (walk_normalize _ _ _ _ (start_proper cwd0 p)) in H. subst d.
  unfold Fs.start, Path.resolve_segments, Path.normalizeString.
  destruct (Path.isAbsolute p); [reflexivity|].
  now rewrite split_slash, normalize_go_app.
Qed.

Lemma resolve_segments_names cwd0 p :
  Forall (fun s => Fs.proper_name s = true) (Path.resolve_segments cwd0 p)
  /\ Forall (fun s => slashFree s = true) (Path.resolve_segments cwd0 p).
Proof.
  unfold Path.resolve_segments, Path.normalizeString. split.
  - destruct (Path.isAbsolute p); apply normalize_go_proper; constructor.
  - destruct (Path.isAbsolute p); apply normalize_go_all; try constructor;
      now apply split_go_segments_free.
Qed.

Lemma split_join d :
  Forall (fun s => slashFree s = true) d -> d <> [] -> Path.split (Js.join "/" d) = d.
Proof.
  induction d as [|x d IH]; intros Hall Hne; [congruence|].
  inversion Hall as [|? ? Hx Hd]; subst. destruct d as [|y d].
  - now apply split_free.
  - change (Js.join "/" (x :: y :: d)) with (x +:+ "/" +:+ Js.join "/" (y :: d)).
    rewrite split_slash, (split_free x Hx), IH; [reflexivity | exact Hd | discriminate].
Qed.

Section Tree.

Variable m : FsMap.
Hypothesis tree : wellFormed m.

Lemma ancestors_are_directories suffix : forall pre i,
  m !! (pre ++ suffix)%list = Some i -> suffix <> [] -> Fs.as_dir m pre = Done tt.
Proof.
  induction suffix as [|t ys IH] using rev_ind; intros pre i H Hne; [congruence|].
  destruct (tree _ _ H) as [_ Hparent].
  rewrite app_assoc, removelast_last in Hparent.
  destruct ys as [|y ys]; [now rewrite app_nil_r in Hparent|].
  unfold Fs.as_dir, Fs.inode_at in Hparent.
  destruct (pre ++ y :: ys)%list as [|k ks] eqn:Hk; [now destruct pre|].
  destruct (m !! (k :: ks)) as [j|] eqn:Hj; [|discriminate].
  rewrite <- Hk in Hj. exact (IH pre j Hj ltac:(discriminate)).
Qed.

Lemma walk_tree d : forall pre i,
  Forall (fun s => Fs.proper_name s = true) d ->
  Fs.inode_at m (pre ++ d) = Some i -> Fs.walk m pre d = Done (pre ++ d)%list.
Proof.
  induction d as [|s r IH]; intros pre i Hall H; [now rewrite app_nil_r|].
  inversion Hall as [|? ? Hs Hr]; subst. cbn [Fs.walk].
  assert (Hk : m !! (pre ++ s :: r)%list = Some i).
  { unfold Fs.inode_at in H. destruct (pre ++ s :: r)%list eqn:Hk; [now destruct pre|].
    exact H. }
  rewrite (ancestors_are_directories (s :: r) pre i Hk ltac:(discriminate)).
  rewrite (enter_proper pre s Hs).
  replace (pre ++ s :: r)%list with ((pre ++ [s]) ++ r)%list in * by now rewrite <- app_assoc.
  apply (IH _ i Hr H).
Qed.

(** Looking up the rendered form of normalised segments. *)
Lemma lookup_render cwd0 d i :
  Forall (fun s => Fs.proper_name s = true) d ->
  Forall (fun s => slashFree s = true) d ->
  Fs.inode_at m d = Some i -> Fs.lookup m cwd0 (Path.render d) = Done i.
Proof.
  intros Hp Hf Hi. unfold Fs.lookup.
  replace (String.eqb (Path.render d) "") with false by reflexivity.
  assert (Habs : Fs.start cwd0 (Path.render d) = []).
  { unfold Fs.start, Path.isAbsolute, Path.render.
    change ("/" +:+ Js.join "/" d) with (String "/" (Js.join "/" d)).
    cbn [String.prefix]. destruct (ascii_dec "/" "/"); [|congruence].
    now destruct (Js.join "/" d). }
  rewrite Habs.
  replace (Path.split (Path.render d)) with ("" :: Path.split (Js.join "/" d))
    by reflexivity.
  change (Fs.walk m [] ("" :: Path.split (Js.join "/" d)))
    with (Fs.walk m [] (Path.split (Js.join "/" d))).
  destruct d as [|x d].
  - unfold Fs.inode_at in Hi. injection Hi as <-. reflexivity.
  - rewrite (split_join (x :: d) Hf ltac:(discriminate)).
    rewrite (walk_tree (x :: d) [] i Hp Hi). cbn [app]. now rewrite Hi.
Qed.

Lemma lookup_resolved cwd0 p i :
  Fs.lookup m cwd0 p = Done i -> Fs.lookup m cwd0 (Path.resolve cwd0 p) = Done i.
Proof.
  intros H. unfold Fs.lookup in H. destruct (String.eqb p ""); [discriminate|].
  destruct (Fs.walk m _ _) as [d|e] eqn:Hw; [|discriminate].
  destruct (Fs.inode_at m d) as [j|] eqn:Hj; [|discriminate]. injection H as ->.
  apply walk_resolve in Hw. subst d.
  destruct (resolve_segments_names cwd0 p) as [Hp Hf].
  exact (lookup_render cwd0 _ i Hp Hf Hj).
Qed.

End Tree.

(** X11.  The file the validator measures is the file that is read.
    [validateImagePath] stats the resolved path while [editImage] and
    the reference loop read the path as given.  On a disk that is a
    tree the two name the same file whenever the read succeeds: the
    resolved path has the very inode the read found, a regular file
    holding what was read, so when validation passed its size is
    within the 20 MiB cap. *)
Theorem validated_file_is_file_read (E : Env) (p : string) (w : World)
        (content : string) :
  wellFormed (fs w) ->
  Fs.readFile (fs w) (cwd E) p = Done content ->
  exists stats,
    Fs.stat (fs w) (cwd E) p = Done stats
    /\ Fs.stat (fs w) (cwd E) (Path.resolve (cwd E) p) = Done stats
    /\ isDirectory stats = false
    /\ data stats = content
    /\ (fst (validateImagePath E p w) = Ok tt -> size stats <= MAX_IMAGE_SIZE_BYTES).
Proof.
  intros Hwf Hr. destruct (readFile_done _ _ _ _ Hr) as (_ & i & Hl & Hd & Hc).
  pose proof (lookup_resolved _ Hwf (cwd E) p i Hl) as Hres.
  exists i. split; [exact Hl|]. split; [exact Hres|]. split; [exact Hd|].
  split; [exact Hc|]. intros Hv.
  destruct (Js.includes ALLOWED_IMAGE_EXTENSIONS
              (Js.toLowerCase (Path.extname (Path.resolve (cwd E) p)))) eqn:Hi.
  - rewrite (validate_good_extension E p w Hi) in Hv. unfold Fs.stat in Hv.
    rewrite Hres in Hv. destruct (Z.gtb_spec (size i) MAX_IMAGE_SIZE_BYTES) as [Hgt|Hle];
      [discriminate | exact Hle].
  - destruct (validate_bad_extension E p w Hi) as [msg Hbad].
    rewrite Hbad in Hv. discriminate.
Qed.

Lemma validated_file_is_file_read_witness :
  let E := Demo.env None (Demo.always (Ok Demo.textOnly)) in
  exists stats,
    Fs.stat Demo.disk "/work" "sub/../edge.PNG" = Fail ENOENT
    /\ Fs.stat Demo.disk "/work" "./edge.PNG" = Done stats
    /\ Fs.stat Demo.disk "/work" "/work/edge.PNG" = Done stats
    /\ size stats <= MAX_IMAGE_SIZE_BYTES.
Proof.
  cbv zeta.
  destruct (validated_file_is_file_read
              (Demo.env None (Demo.always (Ok Demo.textOnly))) "./edge.PNG"
              (fresh Demo.disk) "EDGE" demo_disk_wellFormed eq_refl)
    as (stats & H1 & H2 & _ & _ & H3).
  exists stats. split; [reflexivity|]. split; [exact H1|]. split; [exact H2|].
  apply H3. reflexivity.
Defined.

(** * Further properties: continuing on the server's own image *)

Lemma insert_tree m k x :
  wellFormed m -> k <> [] -> Fs.as_dir m (removelast k) = Done tt ->
  (forall i, m !! k = Some i -> isDirectory i = false) ->
  wellFormed (<[k := x]> m).
Proof.
  intros Hwf Hk Hparent Hfree k' i H. destruct (decide (k = k')) as [<-|Hne].
  - split; [exact Hk|]. now apply as_dir_insert.
  - rewrite lookup_insert_ne in H by exact Hne. destruct (Hwf _ _ H) as [H1 H2].
    split; [exact H1|]. now apply as_dir_insert.
Qed.

Lemma writeFile_tree m cwd0 p content stamp m' :
  Fs.writeFile m cwd0 p content stamp = Done m' -> keepsTree m m'.
Proof.
  unfold Fs.writeFile, keepsTree. destruct (String.eqb p ""); [discriminate|].
  destruct (Fs.walk _ _ _) as [dir|e]; [|discriminate].
  destruct (Fs.as_dir m dir) as [[]|e] eqn:Ha; [|discriminate].
  destruct (Fs.proper_name _); [|discriminate].
  set (name := List.last (Path.split p) "").
  assert (Hparent : Fs.as_dir m (removelast (dir ++ [name])) = Done tt)
    by now rewrite removelast_last.
  destruct (m !! (dir ++ [name])%list) as [i|] eqn:Hi.
  - destruct (isDirectory i) eqn:Hd; [discriminate|]. intros H Hwf. injection H as <-.
    apply insert_tree; [exact Hwf | now destruct dir | exact Hparent |].
    intros j Hj. congruence.
  - intros H Hwf. injection H as <-.
    apply insert_tree; [exact Hwf | now destruct dir | exact Hparent |].
    intros j Hj. congruence.
Qed.

Lemma parent_is_directory m at_ :
  wellFormed m -> Fs.as_dir m at_ = Done tt -> Fs.as_dir m (removelast at_) = Done tt.
Proof.
  intros Hwf Ha. destruct at_ as [|x r]; [exact Ha|].
  unfold Fs.as_dir, Fs.inode_at in Ha.
  destruct (m !! (x :: r)) as [i|] eqn:Hi; [|discriminate].
  exact (proj2 (Hwf _ _ Hi)).
Qed.

Lemma mkdir_go_tree stamp segs : forall m at_ m',
  wellFormed m -> Fs.as_dir m at_ = Done tt ->
  Fs.mkdir_go m at_ segs stamp = Done m' -> wellFormed m'.
Proof.
  induction segs as [|s segs IH]; intros m at_ m' Hwf Ha H; cbn [Fs.mkdir_go] in H.
  - now injection H as <-.
  - destruct (Fs.proper_name s) eqn:Hp.
    + destruct (m !! (at_ ++ [s])%list) as [i|] eqn:Hi.
      * destruct (isDirectory i) eqn:Hd; [|discriminate].
        apply (IH _ _ _ Hwf) in H; [exact H|].
        unfold Fs.as_dir, Fs.inode_at. destruct (at_ ++ [s])%list eqn:Hk; [now destruct at_|].
        now rewrite Hi, Hd.
      * assert (Hwf1 : wellFormed (<[(at_ ++ [s])%list := mkInode true 4096 "" stamp]> m)).
        { apply insert_tree; [exact Hwf | now destruct at_ | now rewrite removelast_last |].
          intros j Hj. congruence. }
        apply (IH _ _ _ Hwf1) in H; [exact H|].
        unfold Fs.as_dir, Fs.inode_at. destruct (at_ ++ [s])%list eqn:Hk; [now destruct at_|].
        now rewrite lookup_insert_eq.
    + apply (IH _ _ _ Hwf) in H; [exact H|]. unfold Fs.enter. unfold Fs.proper_name in Hp.
      destruct (String.eqb s "" || String.eqb s ".")%bool; [exact Ha|].
      destruct (String.eqb s ".."); [now apply parent_is_directory | discriminate Hp].
Qed.

Lemma mkdir_recursive_tree m cwd0 p stamp m' :
  Fs.mkdir_recursive m cwd0 p stamp = Done m' -> keepsTree m m'.
Proof.
  unfold Fs.mkdir_recursive, keepsTree. destruct (String.eqb p ""); [discriminate|].
  destruct (Fs.as_dir _ _) as [[]|e] eqn:Ha; [|discriminate].
  intros H Hwf. exact (mkdir_go_tree _ _ _ _ _ Hwf Ha H).
Qed.

Lemma tree_serve E rs w : wellFormed (fs w) -> wellFormed (fs (serve E rs w)).
Proof.
  exact (files_serve keepsTree (fun m H => H) (fun m1 m2 m3 H12 H23 H => H23 (H12 H))
                     writeFile_tree mkdir_recursive_tree E rs w).
Qed.

Section OwnImage.

Variable E : Env.

Lemma ownImage_same w w' : lastImagePath w' = lastImagePath w -> ownImage E w -> ownImage E w'.
Proof. unfold ownImage. now intros ->. Qed.

Lemma processPart_own prefix l p w :
  slashFree prefix = true -> ownImage E w ->
  ownImage E (snd (processPart E (getImagesDirectory E) prefix l p w)).
Proof.
  intros Hp H. destruct (imageData p) as [d|] eqn:Hd.
  - rewrite (processPart_image E prefix l p d w Hd).
    destruct (Fs.writeFile _ _ _ _ _) as [m1|e]; [|exact H].
    unfold ownImage. cbn [snd lastImagePath set_lastImagePath].
    now exists prefix, (ticks w).
  - now rewrite (processPart_text E prefix l p w Hd).
Qed.

Lemma forParts_own prefix ps : forall l w,
  slashFree prefix = true -> ownImage E w ->
  ownImage E (snd (forParts E (getImagesDirectory E) prefix ps l w)).
Proof.
  induction ps as [|p ps IH]; intros l w Hp H; [exact H|].
  cbn [forParts]. unfold mbind, M_bind, bind.
  pose proof (processPart_own prefix l p w Hp H) as H1.
  destruct (processPart E (getImagesDirectory E) prefix l p w) as [[l'|e] w1];
    cbn [snd] in *; [now apply IH | exact H1].
Qed.

Lemma buildImageResponse_own response prefix prompt warnings w :
  slashFree prefix = true -> ownImage E w ->
  ownImage E (snd (buildImageResponse E response prefix prompt warnings w)).
Proof.
  intros Hp H.
  assert (Hr : ownImage E (snd (reassemble E response prefix w))).
  { rewrite reassemble_unfold.
    destruct (Fs.mkdir_recursive _ _ _ _) as [m1|e]; [|exact H].
    apply forParts_own; [exact Hp|]. exact H. }
  rewrite buildImageResponse_unfold.
  destruct (reassemble E response prefix w) as [[l|e] w1]; exact Hr.
Qed.

Lemma generateImage_own a w : ownImage E w -> ownImage E (snd (generateImage E a w)).
Proof.
  intros H. destruct (configured w) eqn:Hc;
    [|now rewrite generateImage_unconfigured by assumption].
  destruct (resolveModel (gen_model a)) as [m|e] eqn:Hm;
    [|now rewrite (generateImage_configured E a w Hc), Hm].
  destruct (configured_client w Hc) as [g Hg].
  rewrite (generateImage_checked E a w g m Hc Hg Hm). cbv zeta.
  destruct (generateContent E g _ _) as [response|e]; [|exact H].
  rewrite caught_world. now apply buildImageResponse_own.
Qed.

Lemma editImage_own a w : ownImage E w -> ownImage E (snd (editImage E a w)).
Proof.
  intros H. destruct (configured w) eqn:Hc;
    [|now rewrite editImage_unconfigured by assumption].
  destruct (resolveModel (edit_model a)) as [m|e] eqn:Hm;
    [|now rewrite (editImage_bad_model E a w e Hc Hm)].
  destruct (fst (validateImagePath E (imagePath a) w)) as [[]|e] eqn:Hv;
    [|now rewrite (editImage_invalid E a w m e Hc Hm Hv)].
  destruct (configured_client w Hc) as [g Hg].
  rewrite (editImage_checked E a w g m Hc Hg Hm Hv).
  destruct (Fs.readFile _ _ _) as [buf|e]; [|exact H]. cbv zeta.
  destruct (generateContent E g _ _) as [response|e]; [|exact H].
  rewrite caught_world. now apply buildImageResponse_own.
Qed.

Lemma callTool_own r w : ownImage E w -> ownImage E (snd (callTool E r w)).
Proof.
  intros H. rewrite callTool_world. destruct r as [key|a|a| |a| |name]; cbn [dispatch].
  - apply (ownImage_same w); [|exact H]. destruct (Js.truthy key) eqn:Ht.
    + rewrite (configureGeminiToken_nonempty E key w Ht).
      destruct (Fs.writeFile _ _ _ _ _); reflexivity.
    + destruct key; [reflexivity | discriminate].
  - now apply generateImage_own.
  - now apply editImage_own.
  - apply (ownImage_same w); [|exact H]. now apply (keeps_getConfigurationStatus lastImagePath).
  - destruct (continueEditing_cases E a w) as [Hx|[Hx|[(p & _ & Hx)|(p & _ & _ & Hx)]]];
      rewrite Hx; try exact H.
    now apply editImage_own.
  - apply (ownImage_same w); [|exact H]. now apply (keeps_getLastImageInfo lastImagePath).
  - exact H.
Qed.

Lemma serve_own rs : forall w, ownImage E w -> ownImage E (serve E rs w).
Proof.
  induction rs as [|r rs IH]; intros w H; [exact H|].
  cbn [serve]. apply IH. now apply callTool_own.
Qed.

Lemma run_own m : ownImage E (run E m).
Proof.
  unfold ownImage.
  destruct (loadConfig_fresh E m) as [_ [(k & _ & _ & ->)|[(k & _ & _ & ->)|[_ ->]]]];
    exact I.
Qed.

Lemma run_files m : fs (run E m) = m.
Proof.
  destruct (loadConfig_fresh E m) as [_ [(k & _ & _ & ->)|[(k & _ & _ & ->)|[_ ->]]]];
    reflexivity.
Qed.

End OwnImage.

(** X12.  [continue_editing] never turns down the server's own image
    for its name or its absence.  Start on a disk that is a tree, with
    a clock and a random source whose strings hold no ['/'].  In every
    state the server reaches, the last image it recorded is a regular
    file that is there; the extension the validator sees is [.png]; so
    validating it succeeds when the file is within the 20 MiB cap and
    fails with [InvalidParams] only when it is larger; and the part
    sent for it carries [image/png]. *)
Theorem own_image_passes_validation (E : Env) (m : FsMap) (rs : list ToolRequest) :
  wellFormed m ->
  (forall n, slashFree (toISOString E n) = true /\ slashFree (random36 E n) = true) ->
  let w := serve E rs (run E m) in
  forall p, lastImagePath w = Some p ->
  exists stats,
    Fs.stat (fs w) (cwd E) p = Done stats
    /\ isDirectory stats = false
    /\ getMimeType p = "image/png"
    /\ (size stats <= MAX_IMAGE_SIZE_BYTES -> validateImagePath E p w = (Ok tt, w))
    /\ (MAX_IMAGE_SIZE_BYTES < size stats ->
        exists msg, validateImagePath E p w = (Throw (McpError InvalidParams msg), w)).
Proof.
  intros Hwf Hfree. cbv zeta. intros p Hp.
  pose proof (serve_own E rs _ (run_own E m)) as Hown.
  pose proof (tracked_serve E rs _ (tracked_run E m)) as Htr.
  assert (Htree : wellFormed (fs (serve E rs (run E m)))).
  { apply tree_serve. now rewrite run_files. }
  set (w := serve E rs (run E m)) in *.
  unfold ownImage in Hown. rewrite Hp in Hown. destruct Hown as (prefix & n & Hpre & ->).
  destruct Htr as [Hnone|(q & content & Hq & Hr)]; [congruence|].
  assert (q = imagePathAt E prefix n) as -> by congruence.
  destruct (readFile_done _ _ _ _ Hr) as (_ & i & Hl & Hd & _).
  pose proof (lookup_resolved _ Htree (cwd E) _ i Hl) as Hres.
  destruct (Hfree n) as [Hclock Hrandom].
  destruct (imagePathAt_accepted E prefix n Hpre Hclock Hrandom) as (Hin & Hmime).
  exists i. split; [exact Hl|]. split; [exact Hd|]. split; [exact Hmime|].
  rewrite (validate_good_extension E _ w Hin). unfold Fs.stat. rewrite Hres.
  split; intros Hs.
  - destruct (Z.gtb_spec (size i) MAX_IMAGE_SIZE_BYTES); [lia | reflexivity].
  - destruct (Z.gtb_spec (size i) MAX_IMAGE_SIZE_BYTES); [eexists; reflexivity | lia].
Qed.

Lemma own_image_passes_validation_witness :
  let E := steadyEnv (Some "env-key") (Demo.always (Ok Demo.twoImages)) in
  let w := serve E [generate_image (mkGenerateArgs "a cat" None)] (run E Demo.disk) in
  let p := "/work/generated_imgs/generated-2025-01-31T12-00-00-000Z-k3x9q2.png" in
  lastImagePath w = Some p
  /\ exists stats, Fs.stat (fs w) "/work" p = Done stats /\ getMimeType p = "image/png".
Proof.
  cbv zeta.
  assert (Hp : lastImagePath
                 (serve (steadyEnv (Some "env-key") (Demo.always (Ok Demo.twoImages)))
                        [generate_image (mkGenerateArgs "a cat" None)]
                        (run (steadyEnv (Some "env-key") (Demo.always (Ok Demo.twoImages)))
                             Demo.disk))
               = Some "/work/generated_imgs/generated-2025-01-31T12-00-00-000Z-k3x9q2.png")
    by (vm_compute; reflexivity).
  split; [exact Hp|].
  destruct (own_image_passes_validation
              (steadyEnv (Some "env-key") (Demo.always (Ok Demo.twoImages))) Demo.disk
              [generate_image (mkGenerateArgs "a cat" None)]
              demo_disk_wellFormed (fun n => conj eq_refl eq_refl) _ Hp)
    as (stats & H1 & _ & H3 & _).
  exists stats. split; [exact H1 | exact H3].
Defined.

(** * Further properties: a name used twice *)

Lemma writeFile_again m cwd0 p content stamp m1 content' stamp' :
  Fs.writeFile m cwd0 p content stamp = Done m1 ->
  exists m2, Fs.writeFile m1 cwd0 p content' stamp' = Done m2.
Proof.
  unfold Fs.writeFile. destruct (String.eqb p ""); [discriminate|].
  destruct (Fs.walk m (Fs.start cwd0 p) (removelast (Path.split p))) as [dir|e] eqn:Hw;
    [|discriminate].
  destruct (Fs.as_dir m dir) as [[]|e] eqn:Ha; [|discriminate].
  destruct (Fs.proper_name (List.last (Path.split p) "")) eqn:Hn; [|discriminate].
  set (name := List.last (Path.split p) "") in *.
  set (file := mkInode false (Z.of_nat (String.length content)) content stamp).
  intros H.
  assert (Hm : m1 = <[(dir ++ [name])%list := file]> m
               /\ forall i, m !! (dir ++ [name])%list = Some i -> isDirectory i = false).
  { destruct (m !! (dir ++ [name])%list) as [i|] eqn:Hi.
    - destruct (isDirectory i) eqn:Hd; [discriminate|].
      injection H as <-. split; [reflexivity|]. intros j Hj. congruence.
    - injection H as <-. split; [reflexivity|]. intros j Hj. discriminate. }
  destruct Hm as [-> Hnd].
  rewrite (walk_insert m _ file Hnd _ _ _ Hw), (as_dir_insert m _ file Hnd dir Ha).
  rewrite lookup_insert_eq. cbn [isDirectory file]. eauto.
Qed.

(** X13.  File names are not checked for collisions.  If the clock
    and the random source give the next image the name of the one just
    saved, the second [saveImage] succeeds all the same, returns the
    same path, and the file then holds the second image: the first is
    gone without an error. *)
Theorem repeated_name_overwrites (E : Env) (prefix d1 d2 : string) (w : World)
        (s1 : SavedImage) :
  imagePathAt E prefix (S (ticks w)) = imagePathAt E prefix (ticks w) ->
  fst (saveImage E (getImagesDirectory E) prefix d1 w) = Ok s1 ->
  let w1 := snd (saveImage E (getImagesDirectory E) prefix d1 w) in
  let r2 := saveImage E (getImagesDirectory E) prefix d2 w1 in
  fst r2 = Ok (mkSaved (filePath s1) d2 "image/png")
  /\ Fs.readFile (fs w1) (cwd E) (filePath s1) = Done (from_base64 E d1)
  /\ Fs.readFile (fs (snd r2)) (cwd E) (filePath s1) = Done (from_base64 E d2).
Proof.
  intros Hsame H1. cbv zeta. revert H1. rewrite (saveImage_spec E prefix d1 w).
  destruct (Fs.writeFile (fs w) _ _ _ _) as [m1|e] eqn:Hw1; [|discriminate].
  cbn [fst snd]. intros H1. injection H1 as <-. cbn [filePath].
  rewrite (saveImage_spec E prefix d2 (set_fs m1 (tick w))).
  cbn [fs ticks set_fs tick]. rewrite Hsame.
  destruct (writeFile_again _ _ _ _ _ _ (from_base64 E d2)
                            (localeTime E (S (S (ticks w)))) Hw1) as [m2 Hw2].
  rewrite Hw2. cbn [fst snd fs set_fs].
  split; [reflexivity|]. split.
  - exact (writeFile_readFile _ _ _ _ _ _ Hw1).
  - exact (writeFile_readFile _ _ _ _ _ _ Hw2).
Qed.

Lemma repeated_name_overwrites_witness :
  let E := steadyEnv (Some "env-key") (Demo.always (Ok Demo.twoImages)) in
  let p := "/work/generated_imgs/generated-2025-01-31T12-00-00-000Z-k3x9q2.png" in
  let w := Demo.ready Demo.withImagesDir in
  let w1 := snd (saveImage E (getImagesDirectory E) "generated" "AAAA" w) in
  let r2 := saveImage E (getImagesDirectory E) "generated" "BBBB" w1 in
  fst r2 = Ok (mkSaved p "BBBB" "image/png")
  /\ Fs.readFile (fs (snd r2)) "/work" p = Done "raw:BBBB".
Proof.
  cbv zeta.
  destruct (repeated_name_overwrites
              (steadyEnv (Some "env-key") (Demo.always (Ok Demo.twoImages)))
              "generated" "AAAA" "BBBB" (Demo.ready Demo.withImagesDir)
              (mkSaved "/work/generated_imgs/generated-2025-01-31T12-00-00-000Z-k3x9q2.png"
                       "AAAA" "image/png")
              eq_refl eq_refl) as (H1 & _ & H3).
  split; [exact H1 | exact H3].
Defined.

(** * Further properties: the size in the rejection message *)

(** X14.  The size in the too-large message is rounded to whole
    megabytes.  A file over the 20 MiB cap by less than half a
    mebibyte is turned down with a message that gives its size as the
    maximum itself: "Image file too large (20MB). Maximum: 20MB". *)
Theorem oversize_message_rounds (E : Env) (p : string) (w : World) (stats : Inode) :
  Js.includes ALLOWED_IMAGE_EXTENSIONS
    (Js.toLowerCase (Path.extname (Path.resolve (cwd E) p))) = true ->
  Fs.stat (fs w) (cwd E) (Path.resolve (cwd E) p) = Done stats ->
  MAX_IMAGE_SIZE_BYTES < size stats < MAX_IMAGE_SIZE_BYTES + 512 * 1024 ->
  validateImagePath E p w
  = (Throw (McpError InvalidParams "Image file too large (20MB). Maximum: 20MB"), w).
Proof.
  intros Hin Hs Hrange. rewrite (validate_good_extension E p w Hin), Hs.
  change MAX_IMAGE_SIZE_BYTES with 20971520 in *.
  destruct (Z.gtb_spec (size stats) 20971520) as [_|Hle]; [|lia].
  assert (Hr : Js.round_div (size stats) (1024 * 1024) = 20).
  { unfold Js.round_div. symmetry.
    apply (Z.div_unique_pos _ _ 20 (2 * size stats + 1024 * 1024 - 2 * (1024 * 1024) * 20));
      lia. }
  rewrite Hr. reflexivity.
Qed.

Lemma oversize_message_rounds_witness :
  let E := Demo.env None (Demo.always (Ok Demo.textOnly)) in
  validateImagePath E "over.png" (fresh Demo.disk)
  = (Throw (McpError InvalidParams "Image file too large (20MB). Maximum: 20MB"),
     fresh Demo.disk).
Proof.
  cbv zeta.
  apply (oversize_message_rounds (Demo.env None (Demo.always (Ok Demo.textOnly)))
           "over.png" (fresh Demo.disk) (Demo.file 20971521 "OVER")).
  - reflexivity.
  - reflexivity.
  - split; reflexivity.
Defined.
